(** * gauge-external-params: the placeholder resolution engine

    A shallow embedding of [ParamResolver] (resolver/ParamResolver.js),
    [Preprocessor] (preprocessor/Preprocessor.js) and the plugin's
    [maskSensitiveInfo] (index.js), together with the JavaScript string and
    regular-expression primitives they rely on.

    JavaScript strings are modelled as [string]; every delimiter the code
    looks at is ASCII, so the byte view and the UTF-16 view agree on where
    a placeholder starts and ends. *)

From Stdlib Require Import Ascii String ZArith Lia Bool List.
From stdpp Require Import base option list gmap strings.

Local Open Scope Z_scope.

(** ** JavaScript string primitives *)

Module JsString.

Definition len (s : string) : nat := String.length s.

(** [s.substring(n)] *)
Fixpoint drop (n : nat) (s : string) : string :=
  match n, s with
  | O, _ => s
  | S n', String _ s' => drop n' s'
  | S _, EmptyString => EmptyString
  end.

(** [s.substring(0, n)] *)
Fixpoint take (n : nat) (s : string) : string :=
  match n, s with
  | O, _ => EmptyString
  | S n', String a s' => String a (take n' s')
  | S _, EmptyString => EmptyString
  end.

(** [s.startsWith(p)] *)
Fixpoint startsWith (p s : string) : bool :=
  match p, s with
  | EmptyString, _ => true
  | String a p', String b s' => if ascii_dec a b then startsWith p' s' else false
  | String _ _, EmptyString => false
  end.

(** The split of [s] around the first occurrence of [pat]
    (StringIndexOf from position 0): text before it, text after it. *)
Fixpoint splitFirst (pat s : string) : option (string * string) :=
  if startsWith pat s then Some (EmptyString, drop (len pat) s)
  else match s with
       | EmptyString => None
       | String a s' =>
           match splitFirst pat s' with
           | Some (before, after) => Some (String a before, after)
           | None => None
           end
       end.

(** [toLowerCase] and [toUpperCase] on the ASCII letters. *)
Definition lowerChar (a : ascii) : ascii :=
  let n := N_of_ascii a in
  if (N.leb 65 n && N.leb n 90)%bool then ascii_of_N (n + 32) else a.

Definition upperChar (a : ascii) : ascii :=
  let n := N_of_ascii a in
  if (N.leb 97 n && N.leb n 122)%bool then ascii_of_N (n - 32) else a.

Fixpoint mapChars (f : ascii -> ascii) (s : string) : string :=
  match s with
  | EmptyString => EmptyString
  | String a s' => String (f a) (mapChars f s')
  end.

Definition toLowerCase : string -> string := mapChars lowerChar.
Definition toUpperCase : string -> string := mapChars upperChar.

(** Whether character [c] occurs in [s]. *)
Fixpoint contains (c : ascii) (s : string) : bool :=
  match s with
  | EmptyString => false
  | String a s' => if ascii_dec a c then true else contains c s'
  end.

Definition isDigit (a : ascii) : option nat := Ascii.is_nat a.

(** The capture a [$n] reference stands for, when [1 <= n <= m]. *)
Definition captureText (caps : list (option string)) (n : nat) : option string :=
  match n with
  | O => None
  | S i => match nth_error caps i with
           | Some (Some c) => Some c
           | Some None => Some EmptyString
           | None => None
           end
  end.

(** GetSubstitution (ECMA-262, 22.1.3.19.1) without named captures:
    [matched] is the matched text, [before] and [after] the text of the
    subject on either side of it, [caps] the numbered captures. *)
Fixpoint getSubstitution (caps : list (option string))
    (matched before after template : string) : string :=
  match template with
  | EmptyString => EmptyString
  | String a rest =>
      if ascii_dec a "$" then
        match rest with
        | EmptyString => String a EmptyString
        | String b rest' =>
            if ascii_dec b "$" then
              String "$" (getSubstitution caps matched before after rest')
            else if ascii_dec b "`" then
              before +:+ getSubstitution caps matched before after rest'
            else if ascii_dec b "&" then
              matched +:+ getSubstitution caps matched before after rest'
            else if ascii_dec b "'" then
              after +:+ getSubstitution caps matched before after rest'
            else
              match isDigit b with
              | None => String a (getSubstitution caps matched before after rest)
              | Some d1 =>
                  let oneDigit :=
                    match captureText caps d1 with
                    | Some c => c +:+ getSubstitution caps matched before after rest'
                    | None => String a (String b (getSubstitution caps matched before after rest'))
                    end in
                  match rest' with
                  | EmptyString => oneDigit
                  | String c rest'' =>
                      match isDigit c with
                      | None => oneDigit
                      | Some d2 =>
                          if Nat.leb (10 * d1 + d2) (length caps) then
                            match captureText caps (10 * d1 + d2) with
                            | Some t => t +:+ getSubstitution caps matched before after rest''
                            | None =>
                                String a (String b (String c
                                  (getSubstitution caps matched before after rest'')))
                            end
                          else oneDigit
                      end
                  end
              end
        end
      else String a (getSubstitution caps matched before after rest)
  end.

(** [s.replace(pat, template)] with a string pattern: only the first
    occurrence is replaced, and the template is expanded by
    GetSubstitution with no captures. *)
Definition replace (s pat template : string) : string :=
  match splitFirst pat s with
  | None => s
  | Some (before, after) =>
      before +:+ getSubstitution [] pat before after template +:+ after
  end.

End JsString.

(** ** Regular expressions: a backtracking matcher

    The two patterns of the program use character classes, greedy
    repetition of a class, an optional non-capturing group and capturing
    groups.  The matcher follows the continuation semantics of ECMA-262
    (22.2.2): a matcher takes the remaining input, the captures so far and
    a continuation, and backtracks when the continuation fails. *)

Module Regex.
Import JsString.

(** A character class: ranges, possibly negated ([[^...]]). *)
Record cclass := { negated : bool; ranges : list (ascii * ascii) }.

Definition inRange (c : ascii) (r : ascii * ascii) : bool :=
  (N.leb (N_of_ascii (fst r)) (N_of_ascii c)
   && N.leb (N_of_ascii c) (N_of_ascii (snd r)))%bool.

Definition classMatches (cl : cclass) (c : ascii) : bool :=
  xorb (negated cl) (existsb (inRange c) (ranges cl)).

Definition noneOf (cs : list ascii) : cclass :=
  {| negated := true; ranges := map (fun c => (c, c)) cs |}.

(** Every character of [s] is in the class. *)
Fixpoint allIn (cl : cclass) (s : string) : bool :=
  match s with
  | EmptyString => true
  | String a s' => classMatches cl a && allIn cl s'
  end.

(** [s] is empty or starts outside the class: a greedy run ends here. *)
Definition stopsAt (cl : cclass) (s : string) : bool :=
  match s with
  | EmptyString => true
  | String a _ => negb (classMatches cl a)
  end.

(** The length of the run of class characters [s] starts with. *)
Fixpoint runLength (cl : cclass) (s : string) : nat :=
  match s with
  | EmptyString => O
  | String a s' => if classMatches cl a then S (runLength cl s') else O
  end.

(** Whether [s] holds [n] class characters in a row somewhere. *)
Fixpoint hasRun (cl : cclass) (n : nat) (s : string) : bool :=
  Nat.leb n (runLength cl s)
  || match s with
     | EmptyString => false
     | String _ s' => hasRun cl n s'
     end.

Inductive regex :=
| RChar (c : ascii)                  (* a literal character *)
| RRep (min : nat) (cl : cclass)     (* cl{min,}, greedy; cl+ is min = 1 *)
| RSeq (r1 r2 : regex)
| ROpt (r : regex)                   (* (?:r)?, greedy *)
| RGroup (i : nat) (r : regex).      (* capturing group number i *)

Definition captures := gmap nat string.

(** The state a continuation receives: remaining input and captures. *)
Definition cont := string -> captures -> option (string * captures).

(** Greedy [cl{min,}]: take one more character first, and only when the
    rest fails stop here (if the minimum has been reached). *)
Fixpoint repClass (cl : cclass) (min : nat) (s : string)
    (k : string -> option (string * captures)) : option (string * captures) :=
  let stop := match min with O => k s | S _ => None end in
  match s with
  | EmptyString => stop
  | String a s' =>
      if classMatches cl a then
        match repClass cl (Nat.pred min) s' k with
        | Some r => Some r
        | None => stop
        end
      else stop
  end.

Fixpoint rmatch (r : regex) (s : string) (c : captures) (k : cont)
    : option (string * captures) :=
  match r with
  | RChar a =>
      match s with
      | String b s' => if ascii_dec a b then k s' c else None
      | EmptyString => None
      end
  | RRep min cl => repClass cl min s (fun s' => k s' c)
  | RSeq r1 r2 => rmatch r1 s c (fun s' c' => rmatch r2 s' c' k)
  | ROpt r1 =>
      match rmatch r1 s c
              (fun s' c' => if Nat.eqb (len s') (len s) then None else k s' c') with
      | Some res => Some res
      | None => k s c
      end
  | RGroup i r1 =>
      rmatch r1 s c (fun s' c' => k s' (<[i := take (len s - len s') s]> c'))
  end.

(** One result of [exec]: [m[0]], and the numbered groups. *)
Record rmatch_result := { matched : string; groups : captures }.

Definition group (m : rmatch_result) (i : nat) : option string := groups m !! i.

(** A match attempt anchored at the start of [s]. *)
Definition matchAt (r : regex) (s : string) : option rmatch_result :=
  match rmatch r s ∅ (fun s' c => Some (s', c)) with
  | Some (s', c) => Some {| matched := take (len s - len s') s; groups := c |}
  | None => None
  end.

(** [s.match(r)] for a pattern without the [g] flag: the leftmost match. *)
Fixpoint exec (r : regex) (s : string) : option rmatch_result :=
  match matchAt r s with
  | Some m => Some m
  | None => match s with
            | EmptyString => None
            | String _ s' => exec r s'
            end
  end.

(** The successive matches of a [g] pattern, as [matchAll] and [replace]
    iterate them: [skip] is the number of characters still covered by the
    previous match; an empty match advances by one character. *)
Fixpoint scan (r : regex) (skip : nat) (s : string) : list rmatch_result :=
  match s with
  | EmptyString =>
      match skip, matchAt r EmptyString with
      | O, Some m => [m]
      | _, _ => []
      end
  | String _ s' =>
      match skip with
      | S n => scan r n s'
      | O => match matchAt r s with
             | Some m => m :: scan r (Nat.pred (len (matched m))) s'
             | None => scan r O s'
             end
      end
  end.

Definition matchAll (r : regex) (s : string) : list rmatch_result := scan r O s.

Definition groupList (n : nat) (m : rmatch_result) : list (option string) :=
  map (fun i => group m (S i)) (seq 0 n).

(** [s.replace(r, template)] for a [g] pattern with [n] groups;
    [before] is the text of the subject already passed. *)
Fixpoint replaceFrom (r : regex) (n : nat) (template : string)
    (skip : nat) (before s : string) : string :=
  match s with
  | EmptyString =>
      match skip, matchAt r EmptyString with
      | O, Some m => getSubstitution (groupList n m) (matched m) before EmptyString template
      | _, _ => EmptyString
      end
  | String a s' =>
      let before' := before +:+ String a EmptyString in
      match skip with
      | S k => replaceFrom r n template k before' s'
      | O =>
          match matchAt r s with
          | Some m =>
              let l := len (matched m) in
              getSubstitution (groupList n m) (matched m) before (drop l s) template
              +:+ match l with
                  | O => String a (replaceFrom r n template O before' s')
                  | S k => replaceFrom r n template k before' s'
                  end
          | None => String a (replaceFrom r n template O before' s')
          end
      end
  end.

Definition replaceAll (r : regex) (n : nat) (s template : string) : string :=
  replaceFrom r n template O EmptyString s.

End Regex.

(** ** The placeholder grammar *)

Module Grammar.
Import JsString Regex.

(** [/<([^:]+):([^#]+)#([^|>]+)(?:\|([^>]+))?>/] *)
Definition placeholderRegex : regex :=
  RSeq (RChar "<")
 (RSeq (RGroup 1 (RRep 1 (noneOf [":"%char])))
 (RSeq (RChar ":")
 (RSeq (RGroup 2 (RRep 1 (noneOf ["#"%char])))
 (RSeq (RChar "#")
 (RSeq (RGroup 3 (RRep 1 (noneOf ["|"%char; ">"%char])))
 (RSeq (ROpt (RSeq (RChar "|") (RGroup 4 (RRep 1 (noneOf [">"%char])))))
       (RChar ">"))))))).

(** The object [parsePlaceholder] returns; [defaultValue] is [undefined]
    ([None]) when group 4 did not take part in the match. *)
Record placeholder := {
  name : string;
  source : string;
  key : string;
  defaultValue : option string
}.

(** A group that did not take part reads as [undefined]; groups 1 to 3
    always take part in a match of [placeholderRegex]. *)
Definition groupOr (m : rmatch_result) (i : nat) : string :=
  default EmptyString (group m i).

Definition toPlaceholder (m : rmatch_result) : placeholder :=
  {| name := groupOr m 1; source := groupOr m 2; key := groupOr m 3;
     defaultValue := group m 4 |}.

(** [ParamResolver.parsePlaceholder]: the error carries its message. *)
Definition parsePlaceholder (placeholderText : string) : string + placeholder :=
  match exec placeholderRegex placeholderText with
  | None => inl ("Invalid placeholder syntax: " +:+ placeholderText)
  | Some m => inr (toPlaceholder m)
  end.

(** The [defaultValue] argument of [createPlaceholder]: left out (or
    [undefined], which selects the parameter's default [null]), an
    explicit [null], or a string. *)
Inductive defaultArg := DUndefined | DNull | DString (d : string).

Definition createPlaceholder (name source key : string) (defaultValue : defaultArg)
    : string :=
  let placeholder := "<" +:+ name +:+ ":" +:+ source +:+ "#" +:+ key in
  let placeholder :=
    match defaultValue with
    | DString d => placeholder +:+ "|" +:+ d
    | DUndefined | DNull => placeholder
    end in
  placeholder +:+ ">".

(** The conditions of the grammar on the parts of a placeholder. *)
Definition validParts (name source key : string) : Prop :=
  name <> "" /\ contains ":" name = false /\
  source <> "" /\ contains "#" source = false /\
  key <> "" /\ contains "|" key = false /\ contains ">" key = false.

(** The condition on a default value: it has no [>]; [nonEmpty] adds
    that it is not the empty string. *)
Definition validDefault (nonEmpty : bool) (d : defaultArg) : Prop :=
  match d with
  | DString ds => contains ">" ds = false /\ (nonEmpty = true -> ds <> "")
  | DUndefined | DNull => True
  end.

(** What a parsed placeholder shows of the argument it was built from. *)
Definition parsedDefault (d : defaultArg) : option string :=
  match d with DString s => Some s | DUndefined | DNull => None end.

(** What follows the key in a serialized placeholder. *)
Definition tailText (d : option string) : string :=
  match d with
  | None => ">"
  | Some ds => "|" +:+ ds +:+ ">"
  end.

Definition withDefault (d : option string) (c : captures) : captures :=
  match d with
  | None => c
  | Some ds => <[4%nat := ds]> c
  end.

(** The end of [placeholderRegex]: [(?:\|([^>]+))?>]. *)
Definition tailRegex : regex :=
  RSeq (ROpt (RSeq (RChar "|") (RGroup 4 (RRep 1 (noneOf [">"%char])))))
       (RChar ">").

End Grammar.

(** ** Effects: exceptions, the console and the outside world *)

Module Js.

(** A thrown [Error]: its [message] and, for errors of the file system,
    its [code]. *)
Record error := { message : string; code : option string }.

(** [new Error(msg)] *)
Definition newError (msg : string) : error := {| message := msg; code := None |}.

Inductive outcome (A : Type) :=
| Return (a : A)
| Throw (e : error).
Arguments Return {A} a.
Arguments Throw {A} e.

(** The values a caller may hand to [resolveText]. *)
Inductive jsval :=
| VUndefined
| VNull
| VBool (b : bool)
| VNumber (n : Z)
| VString (s : string)
| VObject (id : nat).

(** ToBoolean *)
Definition truthy (v : jsval) : bool :=
  match v with
  | VUndefined | VNull => false
  | VBool b => b
  | VNumber n => negb (Z.eqb n 0)
  | VString s => negb (Nat.eqb (String.length s) 0)
  | VObject _ => true
  end.

(** [typeof v === 'string'] *)
Definition isString (v : jsval) : bool :=
  match v with VString _ => true | _ => false end.

(** What a source's [resolve] hands back when it does not throw. *)
Inductive resolved := RUndefined | RNull | RValue (v : string).

(** Computations: state passing with exceptions.  An [await]ed call is
    a call; [try ... catch] is [tryCatch]. *)
Definition Eff (S A : Type) : Type := S -> outcome A * S.

Definition ret {S A} (a : A) : Eff S A := fun st => (Return a, st).
Definition throw {S A} (e : error) : Eff S A := fun st => (Throw e, st).
Definition bind {S A B} (m : Eff S A) (f : A -> Eff S B) : Eff S B :=
  fun st => match m st with
            | (Return a, st') => f a st'
            | (Throw e, st') => (Throw e, st')
            end.
Definition tryCatch {S A} (m : Eff S A) (h : error -> Eff S A) : Eff S A :=
  fun st => match m st with
            | (Return a, st') => (Return a, st')
            | (Throw e, st') => h e st'
            end.

(** [for (const item of items) ...] *)
Fixpoint forEach {S A} (body : A -> Eff S unit) (items : list A) : Eff S unit :=
  match items with
  | [] => ret tt
  | item :: rest => bind (body item) (fun _ => forEach body rest)
  end.

Declare Scope js_scope.
Delimit Scope js_scope with js.
Notation "x <- m ;; k" := (bind m (fun x => k))
  (at level 100, m at next level, right associativity) : js_scope.
Notation "m ;; k" := (bind m (fun _ => k))
  (at level 100, right associativity) : js_scope.

End Js.

(** ** ParamResolver *)

Module ParamResolver.
Import JsString Regex Grammar Js.
Local Open Scope js_scope.

Section Engine.

(** Everything outside the engine: the environment table, files,
    remote stores, the backends' own caches, and the clock. *)
Context {World : Type}.

(** [Date.now()], in milliseconds. *)
Variable now : World -> Z.

(** A source adapter as the engine sees it: the name of its class
    (for the warning line) and its [resolve]. *)
Record Source := {
  className : string;
  resolve : string -> World -> outcome resolved * World
}.

(** A top-level cache entry, [{ value, timestamp }]. *)
Record CacheEntry := { value : string; timestamp : Z }.

(** The resolver object and what it acts on.  [calls] is a ghost
    record of the backend calls made, [(className, key)] in order. *)
Record state := {
  world : World;
  sources : gmap string Source;
  cache : gmap string CacheEntry;
  cacheTimeout : Z;
  console : list string;
  calls : list (string * string)
}.

Definition setWorld (w : World) (st : state) : state :=
  {| world := w; sources := sources st; cache := cache st;
     cacheTimeout := cacheTimeout st; console := console st; calls := calls st |}.

Definition setCache (c : gmap string CacheEntry) (st : state) : state :=
  {| world := world st; sources := sources st; cache := c;
     cacheTimeout := cacheTimeout st; console := console st; calls := calls st |}.

Definition addCall (cn k : string) (st : state) : state :=
  {| world := world st; sources := sources st; cache := cache st;
     cacheTimeout := cacheTimeout st; console := console st;
     calls := calls st ++ [(cn, k)] |}.

(** [console.log/warn/error]: one line per call, the arguments joined
    by a space. *)
Definition print (line : string) (st : state) : state :=
  {| world := world st; sources := sources st; cache := cache st;
     cacheTimeout := cacheTimeout st; console := console st ++ [line];
     calls := calls st |}.

(** Computations of the engine. *)
Definition M (A : Type) : Type := Eff state A.

Definition log (line : string) : M unit := fun st => (Return tt, print line st).

(** [this.sources] *)
Definition registered : M (gmap string Source) := fun st => (Return (sources st), st).

(** [this.sourcePrecedence] *)
Definition sourcePrecedence : list string :=
  ["env"; "file"; "vault"; "aws"; "k8s"; "http"].

(** [sources.push(x)] *)
Definition push {A} (l : list A) (x : A) : list A := l ++ [x].

(** [getOrderedSources], on the registration [this.sources]. *)
Definition getOrderedSources (registered : gmap string Source)
    (preferredSourceType : string) : list Source :=
  let sources := [] in
  let sources :=
    match registered !! preferredSourceType with
    | Some src => push sources src
    | None => sources
    end in
  fold_left
    (fun sources sourceType =>
       if bool_decide (sourceType <> preferredSourceType) then
         match registered !! sourceType with
         | Some src => push sources src
         | None => sources
         end
       else sources)
    sourcePrecedence sources.

(** The fallback chain in the words of the specification: the declared
    source, then the precedence list without it, of which the registered
    identifiers are kept. *)
Definition fallbackChain (isRegistered : string -> bool) (declaredSource : string)
    : list string :=
  List.filter isRegistered
    (declaredSource
       :: List.filter (fun n => bool_decide (n <> declaredSource)) sourcePrecedence).

(** [getCachedValue]: [None] is the [null] of a miss. *)
Definition getCachedValue (key : string) : M (option string) :=
  fun st =>
    match cache st !! key with
    | None => (Return None, st)
    | Some cached =>
        if Z.gtb (now (world st) - timestamp cached) (cacheTimeout st)
        then (Return None, setCache (delete key (cache st)) st)
        else (Return (Some (value cached)), st)
    end.

Definition setCachedValue (key v : string) : M unit :=
  fun st =>
    (Return tt,
     setCache (<[key := {| value := v; timestamp := now (world st) |}]> (cache st)) st).

(** The state once [src] has been called for [key] and left the world
    as [w]. *)
Definition called (src : Source) (key : string) (w : World) (st : state) : state :=
  setWorld w (addCall (className src) key st).

(** [await source.resolve(key)] *)
Definition callResolve (src : Source) (key : string) : M resolved :=
  fun st =>
    let '(out, w) := resolve src key (world st) in
    (out, called src key w st).

(** The [console.warn] line for a source that threw. *)
Definition warnLine (src : Source) (key : string) (e : error) : string :=
  "Source " +:+ className src +:+ " failed for key " +:+ key +:+ ": " +:+ message e.

(** The loop of [resolvePlaceholder] over the ordered sources: [inl v]
    when the loop returns [v] from inside, [inr lastError] when it runs
    to its end. *)
Fixpoint walk (orderedSources : list Source) (key cacheKey : string)
    (lastError : option error) : M (string + option error) :=
  match orderedSources with
  | [] => ret (inr lastError)
  | src :: rest =>
      r <- tryCatch
             (resolvedValue <- callResolve src key ;;
              match resolvedValue with
              | RValue v => setCachedValue cacheKey v ;; ret (inl v)
              | RNull | RUndefined => ret (inr lastError)
              end)
             (fun e => log (warnLine src key e) ;; ret (inr (Some e))) ;;
      match r with
      | inl v => ret (inl v)
      | inr lastError' => walk rest key cacheKey lastError'
      end
  end.

(** [lastError?.message || 'No sources available'] *)
Definition lastErrorText (lastError : option error) : string :=
  match lastError with
  | Some e => if Nat.eqb (len (message e)) 0 then "No sources available" else message e
  | None => "No sources available"
  end.

Definition cacheKeyOf (name sourceType key : string) : string :=
  name +:+ ":" +:+ sourceType +:+ ":" +:+ key.

Definition unresolvedMessage (key sourceType : string) (lastError : option error)
    : string :=
  "Could not resolve placeholder for key '" +:+ key +:+ "' from source '"
    +:+ sourceType +:+ "'. Last error: " +:+ lastErrorText lastError.

(** [resolvePlaceholder]; [defaultValue = None] is [undefined]. *)
Definition resolvePlaceholder (name sourceType key : string)
    (defaultValue : option string) : M string :=
  let cacheKey := cacheKeyOf name sourceType key in
  cachedValue <- getCachedValue cacheKey ;;
  match cachedValue with
  | Some v => ret v
  | None =>
      srcs <- registered ;;
      let orderedSources := getOrderedSources srcs sourceType in
      r <- walk orderedSources key cacheKey None ;;
      match r with
      | inl v => ret v
      | inr lastError =>
          match defaultValue with
          | Some d => ret d
          | None => throw (newError (unresolvedMessage key sourceType lastError))
          end
      end
  end.

(** The body of the [for (const match of matches)] loop of
    [resolveText], threading [resolvedText]. *)
Definition resolveMatch (m : rmatch_result) (resolvedText : string) : M string :=
  let fullMatch := matched m in
  let p := toPlaceholder m in
  tryCatch
    (resolvedValue <- resolvePlaceholder (name p) (source p) (key p) (defaultValue p) ;;
     ret (replace resolvedText fullMatch resolvedValue))
    (fun e =>
       log ("Failed to resolve placeholder " +:+ fullMatch +:+ ": " +:+ message e) ;;
       match defaultValue p with
       | Some d => ret (replace resolvedText fullMatch d)
       | None =>
           throw (newError ("Failed to resolve required placeholder "
                              +:+ fullMatch +:+ ": " +:+ message e))
       end).

Fixpoint resolveLoop (matches : list rmatch_result) (resolvedText : string)
    : M string :=
  match matches with
  | [] => ret resolvedText
  | m :: rest =>
      resolvedText' <- resolveMatch m resolvedText ;;
      resolveLoop rest resolvedText'
  end.

(** [resolveText] *)
Definition resolveText (text : jsval) : M jsval :=
  if negb (truthy text) || negb (isString text) then ret text
  else
    match text with
    | VString s =>
        let matches := matchAll placeholderRegex s in
        resolvedText <- resolveLoop matches s ;;
        ret (VString resolvedText)
    | _ => ret text
    end.

(** Every source of a chain, called in order for [key] from state
    [st], fails: it throws, or returns [null] or [undefined].  The run
    collects the thrown errors in order and ends in state [st']. *)
Inductive failedRun (key : string)
    : list Source -> state -> list error -> state -> Prop :=
| failed_nil st : failedRun key [] st [] st
| failed_throw src rest st e w errs st' :
    resolve src key (world st) = (Throw e, w) ->
    failedRun key rest (print (warnLine src key e) (called src key w st)) errs st' ->
    failedRun key (src :: rest) st (e :: errs) st'
| failed_absent src rest st r w errs st' :
    resolve src key (world st) = (Return r, w) ->
    r = RNull \/ r = RUndefined ->
    failedRun key rest (called src key w st) errs st' ->
    failedRun key (src :: rest) st errs st'.

(** The error the walk holds after a failed run that started with
    [le]. *)
Definition lastOf (le : option error) (errs : list error) : option error :=
  match last errs with
  | Some e => Some e
  | None => le
  end.

End Engine.

(** The message of the error [resolveText] throws for match [m]. *)
Definition requiredMessage (m : rmatch_result) (cause : string) : string :=
  "Failed to resolve required placeholder " +:+ matched m +:+ ": " +:+ cause.

Arguments Source : clear implicits.
Arguments state : clear implicits.
Arguments M : clear implicits.

End ParamResolver.

(** ** The plugin (index.js) *)

Module Plugin.
Import JsString Regex Js ParamResolver.
Local Open Scope js_scope.

(** [/([a-zA-Z0-9+/]{20,})/g] *)
Definition sensitiveClass : cclass :=
  {| negated := false;
     ranges := [("a", "z"); ("A", "Z"); ("0", "9"); ("+", "+"); ("/", "/")]%char |}.

Definition sensitiveRegex : regex := RGroup 1 (RRep 20 sensitiveClass).

Definition maskSensitiveInfo (message : string) : string :=
  replaceAll sensitiveRegex 1 message "****".

(** The parts of a [NotifyStepExecutionStarting] request the handler
    reads, and the [executionResult] it answers with. *)
Record fragment := { text : jsval }.
Record step := { actualText : jsval; fragments : option (list fragment) }.
Record request := { currentStep : option step }.
Record executionResult := { failed : bool; errorMessage : option string }.

Section Handler.
Context {World : Type}.
Variable now : World -> Z.

Fixpoint resolveFragments (frs : list fragment) : M World unit :=
  match frs with
  | [] => ret tt
  | fr :: rest =>
      (if truthy (text fr)
       then resolveText now (text fr) ;; ret tt
       else ret tt) ;;
      resolveFragments rest
  end.

(** [handleStepExecutionStarting]: the reply passed to [callback].
    The resolved texts are written back into the request object, which
    the reply does not carry. *)
Definition handleStepExecutionStarting (req : request) : M World executionResult :=
  tryCatch
    (match currentStep req with
     | Some st =>
         if truthy (actualText st) then
           resolveText now (actualText st) ;;
           match fragments st with
           | Some frs => resolveFragments frs
           | None => ret tt
           end
         else ret tt
     | None => ret tt
     end ;;
     ret {| failed := false; errorMessage := None |})
    (fun e =>
       log ("Error resolving step parameters: " +:+ message e) ;;
       ret {| failed := true;
              errorMessage :=
                Some ("Parameter resolution failed: "
                        +:+ maskSensitiveInfo (message e)) |}).

End Handler.

End Plugin.

(** ** Preprocessor *)

Module Preprocessor.
Import JsString Js ParamResolver.
Local Open Scope js_scope.

(** What [readdir] meets on its way down a directory: a listing either
    fails or gives the entries, each a file, a directory with its own
    listing, or something else (a link, a socket). *)
Inductive dirTree :=
| Unreadable (e : error)
| Entries (items : list (string * dirent))
with dirent :=
| IsFile
| IsDirectory (sub : dirTree)
| IsOther.

Section Batch.
Context {World : Type}.
Variable now : World -> Z.

(** Node's [path] functions. *)
Variable join : string -> string -> string.
Variable relative : string -> string -> string.
Variable dirname : string -> string.
Variable extname : string -> string.

(** Node's [fs.promises] functions, acting on the world. *)
Variable readFile : string -> World -> outcome string * World.
Variable writeFile : string -> string -> World -> outcome unit * World.
Variable fsCopyFile : string -> string -> World -> outcome unit * World.
Variable mkdir : string -> World -> outcome unit * World.

Definition io {A} (f : World -> outcome A * World) : M World A :=
  fun st => let '(out, w) := f (world st) in (out, setWorld w st).

Definition ensureDirectoryExists (dirPath : string) : M World unit :=
  tryCatch (io (mkdir dirPath))
    (fun e =>
       if bool_decide (code e <> Some "EEXIST")
       then throw (newError ("Failed to create directory " +:+ dirPath
                               +:+ ": " +:+ message e))
       else ret tt).

Definition copyFile (sourcePath targetPath : string) : M World unit :=
  tryCatch
    (ensureDirectoryExists (dirname targetPath) ;;
     io (fsCopyFile sourcePath targetPath))
    (fun e =>
       throw (newError ("Failed to copy file from " +:+ sourcePath +:+ " to "
                          +:+ targetPath +:+ ": " +:+ message e))).

Definition isSpecFile (filename : string) : bool :=
  let specExtensions := [".spec"; ".md"] in
  let ext := toLowerCase (extname filename) in
  bool_decide (ext ∈ specExtensions).

Definition processSpecFile (sourcePath targetPath : string) : M World unit :=
  tryCatch
    (log ("Processing spec file: " +:+ sourcePath) ;;
     content <- io (readFile sourcePath) ;;
     resolvedContent <- resolveText now (VString content) ;;
     ensureDirectoryExists (dirname targetPath) ;;
     match resolvedContent with
     | VString data => io (writeFile targetPath data)
     | _ => throw (newError "The data argument must be of type string")
     end ;;
     log ("Resolved placeholders in: " +:+ sourcePath +:+ " -> " +:+ targetPath))
    (fun e =>
       log ("Failed to process spec file " +:+ sourcePath +:+ ": " +:+ message e) ;;
       tryCatch
         (copyFile sourcePath targetPath ;;
          log ("Copied original file due to processing error: " +:+ sourcePath))
         (fun copyError =>
            throw (newError ("Failed to process or copy spec file " +:+ sourcePath
                               +:+ ": " +:+ message e)))).

(** The body of the loop of [processDirectoryRecursive]; [recur] is the
    recursive call on a subdirectory. *)
Definition processItem (recur : dirTree -> string -> M World unit)
    (currentDir outDir baseDir : string) (item : string * dirent) : M World unit :=
  let sourcePath := join currentDir (fst item) in
  let relativePath := relative baseDir sourcePath in
  let targetPath := join outDir relativePath in
  match snd item with
  | IsDirectory sub =>
      ensureDirectoryExists targetPath ;;
      recur sub sourcePath
  | IsFile =>
      if isSpecFile (fst item) then processSpecFile sourcePath targetPath
      else copyFile sourcePath targetPath
  | IsOther => copyFile sourcePath targetPath
  end.

Fixpoint processDirectoryRecursive (listing : dirTree)
    (currentDir outDir baseDir : string) : M World unit :=
  tryCatch
    (match listing with
     | Unreadable e => throw e
     | Entries items =>
         forEach
           (processItem
              (fun sub dir => processDirectoryRecursive sub dir outDir baseDir)
              currentDir outDir baseDir)
           items
     end)
    (fun e =>
       throw (newError ("Failed to process directory " +:+ currentDir
                          +:+ ": " +:+ message e))).

End Batch.

End Preprocessor.

(** ** EnvSource (sources/EnvSource.js) *)

Module EnvSource.
Import JsString Js.

Record config := { prefix : string; transformCase : string }.

(** [new EnvSource()] *)
Definition defaultConfig : config := {| prefix := ""; transformCase := "none" |}.

Definition envKeyOf (cfg : config) (key : string) : string :=
  let envKey := if Nat.eqb (len (prefix cfg)) 0 then key else prefix cfg +:+ key in
  if decide (transformCase cfg = "upper") then toUpperCase envKey
  else if decide (transformCase cfg = "lower") then toLowerCase envKey
  else envKey.

(** [resolve(key)] against the table [process.env]. *)
Definition resolve (cfg : config) (processEnv : gmap string string) (key : string)
    : outcome resolved :=
  let envKey := envKeyOf cfg key in
  match processEnv !! envKey with
  | Some v => Return (RValue v)
  | None =>
      Throw (newError ("EnvSource failed to resolve key '" +:+ key +:+ "': "
                         +:+ "Environment variable '" +:+ envKey +:+ "' not found"))
  end.

End EnvSource.

(** ** A small concrete world, for examples *)

Module Demo.
Import JsString Js ParamResolver.

(** A clock, an environment table, and a flat file store in which some
    paths refuse to be written. *)
Record demoWorld := {
  clock : Z;
  env : gmap string string;
  files : gmap string string;
  readOnly : list string
}.

Definition now (w : demoWorld) : Z := clock w.

Definition envSource : Source demoWorld :=
  {| className := "EnvSource";
     resolve := fun key w => (EnvSource.resolve EnvSource.defaultConfig (env w) key, w) |}.

(** A backend that answers from a fixed table and returns [null] for a
    key it does not have. *)
Definition tableSource (cn : string) (table : gmap string string) : Source demoWorld :=
  {| className := cn;
     resolve := fun key w =>
       (Return (match table !! key with Some v => RValue v | None => RNull end), w) |}.

(** A backend that is down: every call throws [msg]. *)
Definition brokenSource (cn msg : string) : Source demoWorld :=
  {| className := cn; resolve := fun key w => (Throw (newError msg), w) |}.

Definition mkWorld (t : Z) (e : list (string * string)) : demoWorld :=
  {| clock := t; env := list_to_map e; files := ∅; readOnly := [] |}.

Definition mkState (w : demoWorld) (srcs : list (string * Source demoWorld)) : state demoWorld :=
  {| world := w; sources := list_to_map srcs; cache := ∅; cacheTimeout := 60000;
     console := []; calls := [] |}.

(** Paths as [/]-separated strings, as far as the scenarios need them. *)
Definition join (a b : string) : string := a +:+ "/" +:+ b.
Definition relative (base p : string) : string := drop (S (len base)) p.

Fixpoint lastIndexOf (c : ascii) (s : string) : option nat :=
  match s with
  | EmptyString => None
  | String a s' =>
      match lastIndexOf c s' with
      | Some i => Some (S i)
      | None => if ascii_dec a c then Some O else None
      end
  end.

Definition dirname (p : string) : string :=
  match lastIndexOf "/" p with Some i => take i p | None => "." end.

Definition extname (p : string) : string :=
  match lastIndexOf "." p with Some i => drop i p | None => "" end.

Definition denied (what path : string) : error :=
  {| message := "EACCES: permission denied, " +:+ what +:+ " '" +:+ path +:+ "'";
     code := Some "EACCES" |}.

Definition setFiles (f : gmap string string) (w : demoWorld) : demoWorld :=
  {| clock := clock w; env := env w; files := f; readOnly := readOnly w |}.

Definition readFile (path : string) (w : demoWorld) : outcome string * demoWorld :=
  match files w !! path with
  | Some content => (Return content, w)
  | None =>
      (Throw {| message := "ENOENT: no such file or directory, open '" +:+ path +:+ "'";
                code := Some "ENOENT" |}, w)
  end.

Definition writeFile (path data : string) (w : demoWorld) : outcome unit * demoWorld :=
  if bool_decide (path ∈ readOnly w) then (Throw (denied "open" path), w)
  else (Return tt, setFiles (<[path := data]> (files w)) w).

Definition fsCopyFile (src dst : string) (w : demoWorld) : outcome unit * demoWorld :=
  match files w !! src with
  | None =>
      (Throw {| message := "ENOENT: no such file or directory, copyfile '" +:+ src +:+ "'";
                code := Some "ENOENT" |}, w)
  | Some content =>
      if bool_decide (dst ∈ readOnly w) then (Throw (denied "copyfile" dst), w)
      else (Return tt, setFiles (<[dst := content]> (files w)) w)
  end.

Definition mkdir (path : string) (w : demoWorld) : outcome unit * demoWorld := (Return tt, w).

End Demo.

(** ** Scenarios *)

Module Scenario.
Import JsString Regex Grammar Js ParamResolver Plugin Preprocessor Demo.

(** The environment of the tests: [TEST_VAR=test_value]. *)
Definition testState : state demoWorld :=
  mkState (mkWorld 1000 [("TEST_VAR", "test_value")]) [("env", envSource)].

(** A sealed vault in front of the environment. *)
Definition sealedVault : Source demoWorld :=
  brokenSource "VaultSource" "Vault is sealed".

Definition fallbackState : state demoWorld :=
  mkState (mkWorld 5 [("K", "from-env")]) [("vault", sealedVault); ("env", envSource)].

(** [env] and [file] both hold a value for key [K]. *)
Definition fileTable : Source demoWorld :=
  tableSource "FileSource" (list_to_map [("K", "from-file")]).

Definition bothState : state demoWorld :=
  mkState (mkWorld 5 [("K", "from-env")]) [("env", envSource); ("file", fileTable)].

(** A cache entry for [<t:env#K>] inserted at time 0, read at time
    60000 with the default TTL of 60000 ms. *)
Definition agedState : state demoWorld :=
  {| world := mkWorld 60000 [("K", "fresh")];
     sources := list_to_map [("env", envSource)];
     cache := {[ "t:env:K" := {| value := "stale"; timestamp := 0 |} ]};
     cacheTimeout := 60000; console := []; calls := [] |}.

(** A backend whose error text embeds a 25-character token. *)
Definition token : string := "ABCDEFGHIJKLMNOPQRSTUVWXY".

Definition leakyVault : Source demoWorld :=
  brokenSource "VaultSource" ("permission denied for token " +:+ token).

Definition leakyState : state demoWorld :=
  mkState (mkWorld 0 []) [("vault", leakyVault)].

Definition leakyStep : request :=
  {| currentStep :=
       Some {| actualText := VString "login with <t:vault#secret/data/app>";
               fragments := None |} |}.

(** A password with [$] characters. *)
Definition dollarState : state demoWorld :=
  mkState (mkWorld 0 [("PW", "pa$$word"); ("AMP", "a$&b")]) [("env", envSource)].

(** A spec directory with a document that cannot be resolved. *)
Definition specFiles : gmap string string :=
  list_to_map [("specs/a.spec", "* Login as <user:env#NO_SUCH_VAR>");
               ("specs/b.spec", "* Open <page:env#PAGE|home>")].

Definition specListing : dirTree := Entries [("a.spec", IsFile); ("b.spec", IsFile)].

Definition batchState (locked : list string) : state demoWorld :=
  mkState {| clock := 0; env := ∅; files := specFiles; readOnly := locked |}
          [("env", envSource)].

Definition processSpecs : M demoWorld unit :=
  processDirectoryRecursive now join relative dirname extname
    readFile writeFile fsCopyFile mkdir specListing "specs" "out" "specs".

(** Whether [pat] occurs in [s]. *)
Fixpoint occursIn (pat s : string) : bool :=
  if startsWith pat s then true
  else match s with
       | EmptyString => false
       | String _ s' => occursIn pat s'
       end.

End Scenario.

(** ** [split] and [join] *)

Module JsSplit.
Import JsString.

(** The first part of [s.split(c)] and the parts after it. *)
Fixpoint splitParts (c : ascii) (s : string) : string * list string :=
  match s with
  | EmptyString => (EmptyString, [])
  | String a s' =>
      let '(p, ps) := splitParts c s' in
      if ascii_dec a c then (EmptyString, p :: ps) else (String a p, ps)
  end.

(** [s.split(c)] for a one-character separator: never empty. *)
Definition split (c : ascii) (s : string) : list string :=
  let '(p, ps) := splitParts c s in p :: ps.

(** [parts.join(sep)] *)
Fixpoint joinWith (sep : string) (parts : list string) : string :=
  match parts with
  | [] => EmptyString
  | p :: rest =>
      match rest with
      | [] => p
      | _ :: _ => p +:+ sep +:+ joinWith sep rest
      end
  end.

(** [parts[i]], a string where the index exists. *)
Definition at_ (parts : list string) (i : nat) : option string := nth_error parts i.

(** [x || null] for a string or [undefined]: the empty string is falsy. *)
Definition orNull (x : option string) : option string :=
  match x with
  | Some s => if Nat.eqb (len s) 0 then None else Some s
  | None => None
  end.

(** [x || d] *)
Definition orElse (x : option string) (d : string) : string :=
  match orNull x with Some s => s | None => d end.

End JsSplit.

(** ** The key grammars of the adapters *)

Module VaultKey.
Import JsString JsSplit Js.

(** [VaultSource.parseKey]: [{ secretPath, field }]. *)
Record parsed := { secretPath : string; field : option string }.

Definition parseKey (key : string) : parsed :=
  let parts := split ":" key in
  {| secretPath := default EmptyString (at_ parts 0);
     field := orNull (at_ parts 1) |}.

End VaultKey.

Module FileKey.
Import JsString JsSplit Js.

(** [FileSource.parseKey]: [{ filename, jsonPath }]. *)
Record parsed := { filename : string; jsonPath : option string }.

Definition parseKey (key : string) : parsed :=
  let parts := split "#" key in
  {| filename := default EmptyString (at_ parts 0);
     jsonPath := orNull (at_ parts 1) |}.

End FileKey.

Module K8sKey.
Import JsString JsSplit Js.

(** [K8sSource.parseKey]: [{ type, name, field, namespace }]. *)
Record parsed := {
  type : string;
  name : string;
  field : option string;
  namespace : option string
}.

Definition parseKey (key : string) : outcome parsed :=
  let parts := split ":" key in
  if Nat.ltb (length parts) 2 then
    Throw (newError ("Invalid key format. Expected 'type:name' or 'type:name:field', got: "
                       +:+ key))
  else
    let type := default EmptyString (at_ parts 0) in
    let name := default EmptyString (at_ parts 1) in
    let field :=
      if Nat.ltb 2 (length parts) then Some (joinWith ":" (skipn 2 parts)) else None in
    if contains "/" name then
      let nameParts := split "/" name in
      Return {| type := type;
                name := default EmptyString (at_ nameParts 1);
                field := field;
                namespace := Some (default EmptyString (at_ nameParts 0)) |}
    else
      Return {| type := type; name := name; field := field; namespace := None |}.

End K8sKey.

Module AwsKey.
Import JsString JsSplit Regex Js.

(** [AwsSecretsSource.parseKey]:
    [{ secretName, field, versionId, versionStage }]. *)
Record parsed := {
  secretName : string;
  field : option string;
  versionId : option string;
  versionStage : option string
}.

(** The class of [/^[a-f0-9-]{36}$/i]; under the [i] flag the letters
    match in either case. *)
Definition uuidClass : cclass :=
  {| negated := false;
     ranges := [("a", "f"); ("A", "F"); ("0", "9"); ("-", "-")]%char |}.

(** [versionPart.match(/^[a-f0-9-]{36}$/i)]: the pattern is anchored at
    both ends, so it matches when the whole text is 36 characters of the
    class. *)
Definition looksLikeVersionId (versionPart : string) : bool :=
  Nat.eqb (len versionPart) 36 && allIn uuidClass versionPart.

Definition parseKey (key : string) : parsed :=
  let versionParts := split "@" key in
  if Nat.ltb 1 (length versionParts) then
    let secretName := default EmptyString (at_ versionParts 0) in
    let versionPart := default EmptyString (at_ versionParts 1) in
    let field :=
      if contains ":" versionPart then at_ (split ":" versionPart) 1 else None in
    if looksLikeVersionId versionPart then
      {| secretName := secretName; field := field;
         versionId := at_ (split ":" versionPart) 0; versionStage := None |}
    else
      {| secretName := secretName; field := field;
         versionId := None; versionStage := at_ (split ":" versionPart) 0 |}
  else
    let parts := split ":" key in
    if Nat.ltb 1 (length parts) then
      {| secretName := default EmptyString (at_ parts 0);
         field := Some (joinWith ":" (skipn 1 parts));
         versionId := None; versionStage := None |}
    else
      {| secretName := key; field := None; versionId := None; versionStage := None |}.

End AwsKey.

Module HttpKey.
Import JsString JsSplit Js.

Section Parse.

(** Parsed JSON values, and [JSON.parse] ([None] when it throws). *)
Context {Json : Type}.
Variable jsonParse : string -> option Json.

(** A request body: the text as it is, or the value it parses to. *)
Inductive body := BodyText (s : string) | BodyJson (j : Json).

(** [HttpSource.parseKey]: [{ url, jsonPath, method, body }]. *)
Record parsed := {
  url : string;
  jsonPath : option string;
  method : string;
  requestBody : option body
}.

(** [key.match(/^(GET|POST|PUT|PATCH|DELETE):/)]: the method named at the
    start of the key, if any. *)
Definition methodPrefix (key : string) : option string :=
  List.find (fun m => startsWith (m +:+ ":") key) ["GET"; "POST"; "PUT"; "PATCH"; "DELETE"].

Definition parseKey (key : string) : parsed :=
  let method := default "GET" (methodPrefix key) in
  let key :=
    match methodPrefix key with
    | Some m => drop (len (m +:+ ":")) key
    | None => key
    end in
  let parts := split "#" key in
  (* [jsonPath = parts[1]] is assigned as it is when there is a second part *)
  let jsonPath := if Nat.ltb 1 (length parts) then at_ parts 1 else None in
  let key := if Nat.ltb 1 (length parts) then default EmptyString (at_ parts 0) else key in
  if negb (String.eqb method "GET") && negb (String.eqb method "DELETE") then
    let bodyParts := split ":" key in
    if Nat.ltb 1 (length bodyParts) then
      let text := joinWith ":" (skipn 1 bodyParts) in
      {| url := default EmptyString (at_ bodyParts 0);
         jsonPath := jsonPath; method := method;
         requestBody := Some (match jsonParse text with
                              | Some j => BodyJson j
                              | None => BodyText text
                              end) |}
    else {| url := key; jsonPath := jsonPath; method := method; requestBody := None |}
  else {| url := key; jsonPath := jsonPath; method := method; requestBody := None |}.

End Parse.

End HttpKey.

(** ** EnvSource: the utility methods

    [process.env] is the table of the variables of the environment, as
    in [EnvSource.resolve]; the names it inherits as an object are left
    aside. *)

Module EnvSourceUtil.
Import JsString JsSplit Js EnvSource.


(** An entry of [listAvailable()]. *)
Record available := { key : string; originalKey : string; hasValue : bool }.

(** [listAvailable()], over the entries of [process.env]. *)
Definition listAvailable (cfg : config) (processEnv : gmap string string)
    : list available :=
  let prefix := prefix cfg in
  omap
    (fun '(k, value) =>
       if Nat.eqb (len prefix) 0 || startsWith prefix k then
         Some {| key := if Nat.eqb (len prefix) 0 then k else drop (len prefix) k;
                 originalKey := k;
                 hasValue := negb (Nat.eqb (len value) 0) |}
       else None)
    (map_to_list processEnv).

End EnvSourceUtil.

(** ** Documents *)

Module Document.
Import JsString Regex Grammar.

(** The text of a placeholder, from its parts. *)
Definition placeholderText (name source key : string) (d : option string) : string :=
  "<" +:+ name +:+ ":" +:+ source +:+ "#" +:+ key +:+ tailText d.

(** A parsed [defaultValue] handed on to [createPlaceholder]:
    [undefined] selects the parameter's default. *)
Definition asArgument (d : option string) : defaultArg :=
  match d with
  | Some ds => DString ds
  | None => DUndefined
  end.

End Document.

(** ** The analysis and validation utilities of the preprocessor *)

Module Analysis.
Import JsString JsSplit Regex Grammar Js ParamResolver Preprocessor.
Local Open Scope js_scope.

(** An entry of the list [findPlaceholders] returns. *)
Record span := { start : nat; end_ : nat }.
Record occurrence := {
  fullMatch : string;
  name : string;
  source : string;
  key : string;
  defaultValue : option string;
  position : span
}.

(** The loop [while ((match = placeholderRegex.exec(content)) !== null)]
    on a [g] pattern: [s] is the content from position [index] on, and
    [skip] the number of characters left before [lastIndex].  Every
    match is listed with its [match.index].  The pattern of the source
    matches no empty text, so [lastIndex] moves on at every match. *)
Fixpoint execLoop (r : regex) (skip index : nat) (s : string)
    : list (nat * rmatch_result) :=
  match s with
  | EmptyString => []
  | String _ s' =>
      match skip with
      | S n => execLoop r n (S index) s'
      | O => match matchAt r s with
             | Some m =>
                 (index, m) :: execLoop r (Nat.pred (len (matched m))) (S index) s'
             | None => execLoop r O (S index) s'
             end
      end
  end.

(** The object pushed for a match found at [index]. *)
Definition toOccurrence (found : nat * rmatch_result) : occurrence :=
  let '(index, m) := found in
  {| fullMatch := matched m;
     name := groupOr m 1;
     source := groupOr m 2;
     key := groupOr m 3;
     defaultValue := orNull (group m 4);
     position := {| start := index; end_ := (index + len (matched m))%nat |} |}.

(** The placeholder an occurrence stands for. *)
Definition asPlaceholder (o : occurrence) : placeholder :=
  {| Grammar.name := name o; Grammar.source := source o; Grammar.key := key o;
     Grammar.defaultValue := defaultValue o |}.

(** [content.substring(a, b)] for [a <= b]. *)
Definition substring (a b : nat) (content : string) : string :=
  take (b - a) (drop a content).

(** The object [validateSpecs] fills in and returns. *)
Record validationError := { file : string; error : string }.
Record results := {
  totalFiles : nat;
  processedFiles : nat;
  errors : list validationError;
  warnings : list string
}.

(** [{ totalFiles: 0, processedFiles: 0, errors: [], warnings: [] }] *)
Definition emptyResults : results :=
  {| totalFiles := 0; processedFiles := 0; errors := []; warnings := [] |}.

Definition countFile (r : results) : results :=
  {| totalFiles := S (totalFiles r); processedFiles := processedFiles r;
     errors := errors r; warnings := warnings r |}.

Definition countProcessed (r : results) : results :=
  {| totalFiles := totalFiles r; processedFiles := S (processedFiles r);
     errors := errors r; warnings := warnings r |}.

Definition pushError (f e : string) (r : results) : results :=
  {| totalFiles := totalFiles r; processedFiles := processedFiles r;
     errors := errors r ++ [{| file := f; error := e |}]; warnings := warnings r |}.

(** The spec files of a listing, and the directories in it that cannot
    be read. *)
Fixpoint specFileCount (extname : string -> string) (listing : dirTree) : nat :=
  match listing with
  | Unreadable _ => O
  | Entries items =>
      list_sum
        (map (fun item : string * dirent =>
                match snd item with
                | IsFile => if isSpecFile extname (fst item) then 1%nat else O
                | IsDirectory sub => specFileCount extname sub
                | IsOther => O
                end)
             items)
  end.

Fixpoint unreadableCount (listing : dirTree) : nat :=
  match listing with
  | Unreadable _ => 1%nat
  | Entries items =>
      list_sum
        (map (fun item : string * dirent =>
                match snd item with
                | IsDirectory sub => unreadableCount sub
                | IsFile | IsOther => O
                end)
             items)
  end.

(** [r'] is [r] after [n] more spec files were met and [u] directories
    could not be read: every file met is counted, and is either
    processed or reported, and so is every unreadable directory. *)
Definition accountsFor (n u : nat) (r r' : results) : Prop :=
  totalFiles r' = (totalFiles r + n)%nat /\
  (processedFiles r' + length (errors r')
   = processedFiles r + length (errors r) + n + u)%nat /\
  (processedFiles r <= processedFiles r')%nat /\
  (exists new, errors r' = errors r ++ new) /\
  warnings r' = warnings r.

Section Tools.
Context {World : Type}.
Variable now : World -> Z.
Variable join : string -> string -> string.
Variable extname : string -> string.
Variable readFile : string -> World -> outcome string * World.

Definition findPlaceholders (filePath : string) : M World (list occurrence) :=
  tryCatch
    (content <- io (readFile filePath) ;;
     ret (map toOccurrence (execLoop placeholderRegex 0 0 content)))
    (fun e =>
       throw (newError ("Failed to analyze file " +:+ filePath +:+ ": " +:+ message e))).

(** Validation runs on the resolver and on the [results] object that
    is handed down. *)
Definition V (A : Type) : Type := Eff (results * state World) A.

Definition onResolver {A} (m : M World A) : V A :=
  fun s => let '(out, st) := m (snd s) in (out, (fst s, st)).

Definition onResults (f : results -> results) : V unit :=
  fun s => (Return tt, (f (fst s), snd s)).

Definition validateSpecFile (filePath : string) : V unit :=
  tryCatch
    (onResolver (log ("Validating spec file: " +:+ filePath)) ;;
     content <- onResolver (io (readFile filePath)) ;;
     onResolver (resolveText now (VString content)) ;;
     onResults countProcessed ;;
     onResolver (log ("✓ Validation passed: " +:+ filePath)))
    (fun e =>
       onResults (pushError filePath (message e)) ;;
       onResolver (log ("✗ Validation failed: " +:+ filePath +:+ " - " +:+ message e))).

(** The body of the loop of [validateDirectoryRecursive]. *)
Definition validateItem (recur : dirTree -> string -> V unit)
    (currentDir : string) (item : string * dirent) : V unit :=
  let itemPath := join currentDir (fst item) in
  match snd item with
  | IsDirectory sub => recur sub itemPath
  | IsFile =>
      if isSpecFile extname (fst item) then
        onResults countFile ;;
        validateSpecFile itemPath
      else ret tt
  | IsOther => ret tt
  end.

Fixpoint validateDirectoryRecursive (listing : dirTree) (currentDir : string)
    : V unit :=
  tryCatch
    (match listing with
     | Unreadable e => throw e
     | Entries items =>
         forEach (validateItem validateDirectoryRecursive currentDir) items
     end)
    (fun e =>
       onResults (pushError currentDir ("Failed to read directory: " +:+ message e))).

End Tools.

End Analysis.

(** ** The life cycle of the resolver *)

Module Lifecycle.
Import JsString JsSplit Js ParamResolver Preprocessor Plugin Analysis.
Local Open Scope js_scope.

(** [try { m } finally { fin }]: [fin] runs either way, and what it
    throws replaces the outcome of [m]. *)
Definition tryFinally {S A} (m : Eff S A) (fin : Eff S unit) : Eff S A :=
  fun st =>
    let '(out, st1) := m st in
    match fin st1 with
    | (Return _, st2) => (out, st2)
    | (Throw e, st2) => (Throw e, st2)
    end.

(** [v === false] and [v === true] *)
Definition isFalse (v : jsval) : bool :=
  match v with VBool false => true | _ => false end.
Definition isTrue (v : jsval) : bool :=
  match v with VBool true => true | _ => false end.

Section Resolver.

(** [Options] stands for the settings of one source in the
    configuration, as the constructor of its adapter reads them. *)
Context {World Options : Type}.
Variable now : World -> Z.

(** An adapter object: its [resolve], as the engine calls it, and its
    [initialize]; [refreshCache] and [cleanup] where the object has
    such functions. *)
Record Adapter := {
  asSource : Source World;
  srcInitialize : World -> outcome unit * World;
  srcRefreshCache : option (World -> outcome unit * World);
  srcCleanup : option (World -> outcome unit * World)
}.

(** An entry of [sources] in the configuration (an object): its
    [enabled] field, [undefined] when left out, and the rest. *)
Record sourceSettings := { enabled : jsval; options : Options }.

(** The configuration as the resolver reads it: [cacheTimeout], a whole
    number of seconds when present, and [sources]. *)
Record configuration := {
  cfgCacheTimeout : option Z;
  cfgSources : option (gmap string sourceSettings)
}.

(** [fs.readFile(path, 'utf8')]; [JSON.parse], which throws or gives a
    value, [None] for the document [null]; the constructors of the
    adapters, by source name, which may read the environment; and the
    settings of each source in the built-in configuration. *)
Variable readFile : string -> World -> outcome string * World.
Variable jsonParse : string -> outcome (option configuration).
Variable construct : string -> option Options -> World -> Adapter.
Variable defaultOptions : string -> Options.

(** The resolver object: the engine's part of it, [this.config],
    [this.configPath], and [this.sources], a [Map], as the list of its
    entries in insertion order. *)
Record resolver := {
  engine : state World;
  config : option configuration;
  configPath : string;
  registry : list (string * Adapter)
}.

(** The sources as the engine looks them up. *)
Definition view (reg : list (string * Adapter)) : gmap string (Source World) :=
  list_to_map (map (fun entry => (fst entry, asSource (snd entry))) reg).

Definition setSources (srcs : gmap string (Source World)) (st : state World)
    : state World :=
  {| world := world st; sources := srcs; cache := cache st;
     cacheTimeout := cacheTimeout st; console := console st; calls := calls st |}.

Definition setTimeout (t : Z) (st : state World) : state World :=
  {| world := world st; sources := sources st; cache := cache st;
     cacheTimeout := t; console := console st; calls := calls st |}.

Definition setEngine (st : state World) (r : resolver) : resolver :=
  {| engine := st; config := config r; configPath := configPath r;
     registry := registry r |}.

Definition setConfig (c : option configuration) (r : resolver) : resolver :=
  {| engine := engine r; config := c; configPath := configPath r;
     registry := registry r |}.

Definition setRegistry (reg : list (string * Adapter)) (r : resolver) : resolver :=
  {| engine := setSources (view reg) (engine r); config := config r;
     configPath := configPath r; registry := reg |}.

(** [new ParamResolver(configPath)] *)
Definition newResolver (w : World) (path : string) : resolver :=
  {| engine := {| world := w; sources := ∅; cache := ∅; cacheTimeout := 60000;
                  console := []; calls := [] |};
     config := None; configPath := path; registry := [] |}.

(** [map.set(name, a)]: a present key keeps its place. *)
Fixpoint mapSet (name : string) (a : Adapter) (reg : list (string * Adapter))
    : list (string * Adapter) :=
  match reg with
  | [] => [(name, a)]
  | entry :: rest =>
      if String.eqb (fst entry) name then (name, a) :: rest
      else entry :: mapSet name a rest
  end.

(** [map.delete(name)] *)
Definition mapDelete (name : string) (reg : list (string * Adapter))
    : list (string * Adapter) :=
  List.filter (fun entry => negb (String.eqb (fst entry) name)) reg.

(** Computations on the resolver. *)
Definition R (A : Type) : Type := Eff resolver A.

Definition onEngine {A} (m : M World A) : R A :=
  fun r => let '(out, st) := m (engine r) in (out, setEngine st r).

Definition logR (line : string) : R unit := onEngine (log line).

(** A call of a method of an adapter. *)
Definition call (f : World -> outcome unit * World) : R unit := onEngine (io f).

(** [this.cache.clear()] *)
Definition clearCache : R unit :=
  fun r => (Return tt, setEngine (setCache ∅ (engine r)) r).

Definition getDefaultConfig : configuration :=
  {| cfgCacheTimeout := Some 60;
     cfgSources :=
       Some (list_to_map
               [("env", {| enabled := VBool true; options := defaultOptions "env" |});
                ("file", {| enabled := VBool true; options := defaultOptions "file" |});
                ("http", {| enabled := VBool true; options := defaultOptions "http" |});
                ("vault", {| enabled := VBool false; options := defaultOptions "vault" |});
                ("aws", {| enabled := VBool false; options := defaultOptions "aws" |});
                ("k8s", {| enabled := VBool false; options := defaultOptions "k8s" |})]) |}.

Definition loadConfig : R unit :=
  tryCatch
    (configContent <- (fun r => onEngine (io (readFile (configPath r))) r) ;;
     parsed <- (fun r => (jsonParse configContent, r)) ;;
     (fun r => (Return tt, setConfig parsed r)) ;;
     match parsed with
     | None => throw (newError "Cannot read properties of null (reading 'cacheTimeout')")
     | Some c =>
         match cfgCacheTimeout c with
         | Some seconds =>
             if negb (Z.eqb seconds 0) then
               fun r => (Return tt, setEngine (setTimeout (seconds * 1000) (engine r)) r)
             else ret tt
         | None => ret tt
         end
     end)
    (fun e =>
       if bool_decide (code e = Some "ENOENT") then
         (fun r => logR ("Config file not found at " +:+ configPath r
                           +:+ ", using defaults") r) ;;
         fun r => (Return tt, setConfig (Some getDefaultConfig) r)
       else throw (newError ("Failed to load config: " +:+ message e))).

(** [sourceConfig.x?.enabled] *)
Definition enabledOf (entry : option sourceSettings) : jsval :=
  match entry with
  | Some s => enabled s
  | None => VUndefined
  end.

(** [this.sources.set(name, new XSource(sourceConfig.x))] *)
Definition register (name : string) (entry : option sourceSettings) : R unit :=
  fun r =>
    let adapter := construct name (options <$> entry) (world (engine r)) in
    (Return tt, setRegistry (mapSet name adapter (registry r)) r).

(** A source that is on unless switched off, and one that is off
    unless switched on. *)
Definition unlessDisabled (sourceConfig : gmap string sourceSettings) (name : string)
    : R unit :=
  if negb (isFalse (enabledOf (sourceConfig !! name)))
  then register name (sourceConfig !! name)
  else ret tt.

Definition whenEnabled (sourceConfig : gmap string sourceSettings) (name : string)
    : R unit :=
  if isTrue (enabledOf (sourceConfig !! name))
  then register name (sourceConfig !! name)
  else ret tt.

(** The body of the loop that initializes the sources. *)
Definition initializeOne (entry : string * Adapter) : R unit :=
  let '(name, source) := entry in
  tryCatch
    (call (srcInitialize source) ;;
     logR ("Initialized " +:+ name +:+ " source"))
    (fun e =>
       logR ("Failed to initialize " +:+ name +:+ " source: " +:+ message e) ;;
       fun r => (Return tt, setRegistry (mapDelete name (registry r)) r)).

(** The loop over [this.sources] deletes no entry but the one it is at,
    so it visits the entries the map holds when the loop begins. *)
Definition initializeSources : R unit :=
  fun r =>
    match config r with
    | None => throw (newError "Cannot read properties of null (reading 'sources')") r
    | Some c =>
        let sourceConfig := default ∅ (cfgSources c) in
        (unlessDisabled sourceConfig "env" ;;
         unlessDisabled sourceConfig "file" ;;
         unlessDisabled sourceConfig "http" ;;
         whenEnabled sourceConfig "vault" ;;
         whenEnabled sourceConfig "aws" ;;
         whenEnabled sourceConfig "k8s" ;;
         fun r => forEach initializeOne (registry r) r) r
    end.

Definition initialize : R unit :=
  tryCatch
    (loadConfig ;;
     initializeSources ;;
     logR "ParamResolver initialized successfully")
    (fun e =>
       logR ("Failed to initialize ParamResolver: " +:+ message e) ;;
       throw e).

Definition refreshOne (entry : string * Adapter) : R unit :=
  let '(name, source) := entry in
  match srcRefreshCache source with
  | Some refreshCache =>
      tryCatch (call refreshCache)
        (fun e =>
           logR ("Failed to refresh cache for " +:+ name +:+ " source: " +:+ message e))
  | None => ret tt
  end.

Definition refreshCaches : R unit :=
  clearCache ;;
  fun r => forEach refreshOne (registry r) r.

Definition cleanupOne (entry : string * Adapter) : R unit :=
  let '(name, source) := entry in
  match srcCleanup source with
  | Some cleanup =>
      tryCatch (call cleanup)
        (fun e => logR ("Failed to cleanup " +:+ name +:+ " source: " +:+ message e))
  | None => ret tt
  end.

Definition cleanup : R unit :=
  clearCache ;;
  (fun r => forEach cleanupOne (registry r) r) ;;
  fun r => (Return tt, setRegistry [] r).

(** Two states of the resolver that differ at most in the world, the
    console and the record of calls. *)
Definition sameSetup (r r' : resolver) : Prop :=
  registry r' = registry r /\ config r' = config r /\
  configPath r' = configPath r /\
  sources (engine r') = sources (engine r) /\
  cache (engine r') = cache (engine r) /\
  cacheTimeout (engine r') = cacheTimeout (engine r).

(** The sources a configuration asks for: [env], [file] and [http]
    unless their [enabled] is [false]; [vault], [aws] and [k8s] only if
    their [enabled] is [true]. *)
Definition wanted (sourceConfig : gmap string sourceSettings) (name : string) : bool :=
  if bool_decide (name ∈ ["env"; "file"; "http"]) then
    negb (isFalse (enabledOf (sourceConfig !! name)))
  else if bool_decide (name ∈ ["vault"; "aws"; "k8s"]) then
    isTrue (enabledOf (sourceConfig !! name))
  else false.

(** A resolver without sources and with an empty cache. *)
Definition cleanedUp (r : resolver) : Prop :=
  registry r = [] /\ sources (engine r) = ∅ /\ cache (engine r) = ∅.

(** An outcome that, when it is an error, is a new [Error] whose
    message starts with [prefix]. *)
Definition failsWith {A} (prefix : string) (out : outcome A) : Prop :=
  forall e, out = Throw e -> exists msg, e = newError (prefix +:+ msg).


(** *** The handlers of the plugin that drive the life cycle *)


Definition handleExecutionEnding : R executionResult :=
  tryCatch
    (cleanup ;;
     ret {| failed := false; errorMessage := None |})
    (fun e => ret {| failed := false; errorMessage := None |}).

Definition handleSpecExecutionStarting : R executionResult :=
  tryCatch
    (refreshCaches ;;
     ret {| failed := false; errorMessage := None |})
    (fun e =>
       ret {| failed := true;
              errorMessage := Some ("Failed to refresh caches: " +:+ message e) |}).

(** *** The entry points of the preprocessor *)

Variable join : string -> string -> string.
Variable relative : string -> string -> string.
Variable dirname : string -> string.
Variable extname : string -> string.
Variable basename : string -> string -> string.
Variable writeFile : string -> string -> World -> outcome unit * World.
Variable fsCopyFile : string -> string -> World -> outcome unit * World.
Variable mkdir : string -> World -> outcome unit * World.

(** [listing] is what [readdir] finds under [specDir]. *)
Definition processDirectory (listing : dirTree) (specDir outDir : string) : R unit :=
  tryFinally
    (tryCatch
       (initialize ;;
        onEngine (ensureDirectoryExists mkdir outDir) ;;
        onEngine (processDirectoryRecursive now join relative dirname extname
                    readFile writeFile fsCopyFile mkdir listing specDir outDir specDir) ;;
        logR ("Successfully processed specs from " +:+ specDir +:+ " to " +:+ outDir))
       (fun e => throw (newError ("Preprocessing failed: " +:+ message e))))
    cleanup.

Definition getDefaultOutputPath (filePath : string) : string :=
  let dir := dirname filePath in
  let ext := extname filePath in
  let name := basename filePath ext in
  join dir (name +:+ "_resolved" +:+ ext).

(** [outputPath] is [None] when left out or [null]. *)
Definition processFile (filePath : string) (outputPath : option string) : R unit :=
  tryFinally
    (tryCatch
       (initialize ;;
        let targetPath := orElse outputPath (getDefaultOutputPath filePath) in
        onEngine (processSpecFile now dirname readFile writeFile fsCopyFile mkdir
                    filePath targetPath) ;;
        logR ("Successfully processed file: " +:+ filePath +:+ " -> " +:+ targetPath))
       (fun e =>
          throw (newError ("Failed to process file " +:+ filePath +:+ ": " +:+ message e))))
    cleanup.

Definition validateSpecs (listing : dirTree) (specDir : string) : R results :=
  tryFinally
    (tryCatch
       (initialize ;;
        fun r =>
          let '(out, s) :=
            validateDirectoryRecursive now join extname readFile listing specDir
              (emptyResults, engine r) in
          match out with
          | Return _ => (Return (fst s), setEngine (snd s) r)
          | Throw e => (Throw e, setEngine (snd s) r)
          end)
       (fun e => throw (newError ("Validation failed: " +:+ message e))))
    cleanup.

End Resolver.

Arguments Adapter : clear implicits.
Arguments sourceSettings : clear implicits.
Arguments configuration : clear implicits.
Arguments resolver : clear implicits.
Arguments R : clear implicits.

End Lifecycle.

(** ** A small configuration and adapters, for examples *)

Module LifecycleDemo.
Import JsString Js ParamResolver Demo Lifecycle.

(** An adapter whose life-cycle methods do nothing. *)
Definition quiet (src : Source demoWorld) : Adapter demoWorld :=
  {| asSource := src;
     srcInitialize := fun w => (Return tt, w);
     srcRefreshCache := Some (fun w => (Return tt, w));
     srcCleanup := Some (fun w => (Return tt, w)) |}.

(** The environment adapter for [env], an empty table for the rest. *)
Definition construct (name : string) (o : option unit) (w : demoWorld)
    : Adapter demoWorld :=
  if String.eqb name "env" then quiet envSource
  else quiet (tableSource name ∅).

(** The configuration [{}]. *)
Definition emptyConfig : configuration unit :=
  {| cfgCacheTimeout := None; cfgSources := None |}.

(** A parser that knows the documents [{}] and [null]. *)
Definition jsonParse (content : string) : outcome (option (configuration unit)) :=
  if String.eqb content "{}" then Return (Some emptyConfig)
  else if String.eqb content "null" then Return None
  else Throw (newError "Unexpected token in JSON").


Definition bare : demoWorld := mkWorld 0 [].

End LifecycleDemo.

(** ** The Vault adapter: [resolve] and its cache of secrets *)

Module VaultSource.
Import JsString JsSplit Js VaultKey.
Local Open Scope js_scope.

Section Adapter.

(** [Json] stands for the values of a secret and of its fields (the
    data of a secret is never [null]: [fetchSecret] throws for a secret
    it does not find); the world holds Vault and the clock. *)
Context {World Json : Type}.

(** [Date.now()]; [fetchSecret], the read of a secret from Vault with
    its own error handling, which returns the data or throws;
    [lodash.get], [undefined] as [None]; the text of a value that is a
    string; [JSON.stringify]. *)
Variable now : World -> Z.
Variable fetchSecret : string -> World -> outcome Json * World.
Variable get : Json -> string -> option Json.
Variable asString : Json -> option string.
Variable stringify : Json -> string.

(** An entry of [secretCache], [{ data, timestamp }]. *)
Record cached := { data : Json; timestamp : Z }.

(** The adapter object, as far as [resolve] goes: [config.cacheTimeout]
    when it is set, a number; the cache of secrets by path. *)
Record vault := {
  cacheTimeout : option Z;
  secretCache : gmap string cached;
  world : World
}.

Definition setSecretCache (c : gmap string cached) (v : vault) : vault :=
  {| cacheTimeout := cacheTimeout v; secretCache := c; world := world v |}.

Definition setWorld (w : World) (v : vault) : vault :=
  {| cacheTimeout := cacheTimeout v; secretCache := secretCache v; world := w |}.

(** [this.config.cacheTimeout || 300000] *)
Definition effectiveTimeout (v : vault) : Z :=
  match cacheTimeout v with
  | Some t => if Z.eqb t 0 then 300000 else t
  | None => 300000
  end.

Definition extractField (secretData : Json) (field : option string) : outcome string :=
  match orNull field with
  | None => Return (stringify secretData)
  | Some f =>
      match get secretData f with
      | None => Throw (newError ("Field '" +:+ f +:+ "' not found in secret"))
      | Some value =>
          Return (match asString value with
                  | Some s => s
                  | None => stringify value
                  end)
      end
  end.

(** [None] is the [null] of a miss. *)
Definition getCachedSecret (path : string) : Eff vault (option Json) :=
  fun v =>
    match secretCache v !! path with
    | None => (Return None, v)
    | Some entry =>
        if Z.gtb (now (world v) - timestamp entry) (effectiveTimeout v)
        then (Return None, setSecretCache (delete path (secretCache v)) v)
        else (Return (Some (data entry)), v)
    end.

Definition setCachedSecret (path : string) (secret : Json) : Eff vault unit :=
  fun v =>
    (Return tt,
     setSecretCache
       (<[path := {| data := secret; timestamp := now (world v) |}]> (secretCache v)) v).

Definition resolve (key : string) : Eff vault string :=
  tryCatch
    (let parsed := parseKey key in
     let cacheKey := secretPath parsed in
     cachedSecret <- getCachedSecret cacheKey ;;
     match cachedSecret with
     | Some secret => fun v => (extractField secret (field parsed), v)
     | None =>
         secret <- (fun v => let '(out, w) := fetchSecret (secretPath parsed) (world v) in
                             (out, setWorld w v)) ;;
         setCachedSecret cacheKey secret ;;
         fun v => (extractField secret (field parsed), v)
     end)
    (fun e =>
       throw (newError ("VaultSource failed to resolve key '" +:+ key +:+ "': "
                          +:+ message e))).

(** What [resolve] makes of the outcome of [extractField]. *)
Definition reported (key : string) (out : outcome string) : outcome string :=
  match out with
  | Return s => Return s
  | Throw e =>
      Throw (newError ("VaultSource failed to resolve key '" +:+ key +:+ "': "
                         +:+ message e))
  end.

End Adapter.

Arguments cached : clear implicits.
Arguments vault : clear implicits.

End VaultSource.

(** ** The file adapter: [loadFile] and its cache *)

Module FileSource.
Import JsString JsSplit Js.
Local Open Scope js_scope.

(** What [fs.stat] tells of a file: its size in bytes and
    [mtime.getTime()]. *)
Record stats := { size : Z; mtime : Z }.

(** [this.config], as far as [loadFile] reads it. *)
Record config := {
  basePath : string;
  allowedExtensions : list string;
  cacheFiles : bool;
  maxFileSize : Z
}.

Section Adapter.

(** [Data] stands for the parsed content of a file. *)
Context {World Data : Type}.

(** [path.resolve] with two arguments and with one, [path.extname],
    [fs.stat], [fs.readFile], [JSON.parse], [yaml.load], the test
    [data !== null], the test [error instanceof SyntaxError], which the
    record of an error does not show, and the decimal text of a
    number. *)
Variable pathResolve : string -> string -> string.
Variable pathResolveBase : string -> string.
Variable extname : string -> string.
Variable stat : string -> World -> outcome stats * World.
Variable readFile : string -> World -> outcome string * World.
Variable jsonParse : string -> outcome Data.
Variable yamlLoad : string -> outcome Data.
Variable notNull : Data -> bool.
Variable isSyntaxError : error -> bool.
Variable showNumber : Z -> string.

(** The adapter object: its configuration, [fileCache], [fileMTimes],
    and the world of files. *)
Record fileSource := {
  cfg : config;
  fileCache : gmap string Data;
  fileMTimes : gmap string Z;
  world : World
}.

Definition setWorld (w : World) (f : fileSource) : fileSource :=
  {| cfg := cfg f; fileCache := fileCache f; fileMTimes := fileMTimes f; world := w |}.

Definition setCaches (c : gmap string Data) (m : gmap string Z) (f : fileSource)
    : fileSource :=
  {| cfg := cfg f; fileCache := c; fileMTimes := m; world := world f |}.

(** [this.fileCache.delete(filePath); this.fileMTimes.delete(filePath)] *)
Definition evict (filePath : string) (f : fileSource) : fileSource :=
  setCaches (delete filePath (fileCache f)) (delete filePath (fileMTimes f)) f.

Definition F (A : Type) : Type := Eff fileSource A.

Definition fsCall {A} (m : World -> outcome A * World) : F A :=
  fun f => let '(out, w) := m (world f) in (out, setWorld w f).

(** [getCachedFile]: [None] is the [null] of a miss. *)
Definition getCachedFile (filePath : string) : F (option Data) :=
  fun f =>
    match fileCache f !! filePath with
    | None => (Return None, f)
    | Some cachedData =>
        tryCatch
          (fileStats <- fsCall (stat filePath) ;;
           fun f =>
             let cachedMTime := fileMTimes f !! filePath in
             if bool_decide (Some (mtime fileStats) <> cachedMTime)
             then (Return None, evict filePath f)
             else (Return (Some cachedData), f))
          (fun e => fun f => (Return None, evict filePath f)) f
    end.

(** The part of [loadFile] after the cache: size check, read, parse,
    and the entry written to the cache. *)
Definition readAndParse (c : config) (filename filePath ext : string) : F Data :=
  fileStats <- fsCall (stat filePath) ;;
  if Z.gtb (size fileStats) (maxFileSize c) then
    throw (newError ("File '" +:+ filename +:+ "' is too large ("
                       +:+ showNumber (size fileStats) +:+ " bytes, max: "
                       +:+ showNumber (maxFileSize c) +:+ ")"))
  else
    content <- fsCall (readFile filePath) ;;
    data <- (if String.eqb ext ".json" then fun f => (jsonParse content, f)
             else if String.eqb ext ".yaml" || String.eqb ext ".yml"
                  then fun f => (yamlLoad content, f)
                  else throw (newError ("Unsupported file extension: " +:+ ext))) ;;
    (if cacheFiles c then
       fun f => (Return tt,
                 setCaches (<[filePath := data]> (fileCache f))
                           (<[filePath := mtime fileStats]> (fileMTimes f)) f)
     else ret tt) ;;
    ret data.

Definition loadFile (filename : string) : F Data :=
  tryCatch
    (c <- (fun f => (Return (cfg f), f)) ;;
     let filePath := pathResolve (basePath c) filename in
     if negb (startsWith (pathResolveBase (basePath c)) filePath) then
       throw (newError ("File '" +:+ filename +:+ "' is outside allowed base path"))
     else
       let ext := toLowerCase (extname filename) in
       if negb (bool_decide (ext ∈ allowedExtensions c)) then
         throw (newError ("File extension '" +:+ ext +:+ "' is not allowed. Allowed: "
                            +:+ joinWith ", " (allowedExtensions c)))
       else
         cachedData <- (if cacheFiles c then getCachedFile filePath else ret None) ;;
         match cachedData with
         | Some cached =>
             if notNull cached then ret cached
             else readAndParse c filename filePath ext
         | None => readAndParse c filename filePath ext
         end)
    (fun e =>
       if bool_decide (code e = Some "ENOENT") then
         throw (newError ("File '" +:+ filename +:+ "' not found"))
       else if bool_decide (code e = Some "EACCES") then
         throw (newError ("Permission denied reading file '" +:+ filename +:+ "'"))
       else if isSyntaxError e then
         throw (newError ("Invalid JSON/YAML syntax in file '" +:+ filename +:+ "': "
                            +:+ message e))
       else throw e).

End Adapter.

Arguments fileSource : clear implicits.
Arguments F : clear implicits.

End FileSource.

(** ** Small adapters, for examples *)

Module AdapterDemo.
Import JsString JsSplit Js.

(** Secrets as flat objects of text fields. *)
Inductive json := JText (s : string) | JObject (fields : list (string * string)).

Definition get (j : json) (f : string) : option json :=
  match j with
  | JObject fields => JText <$> (list_to_map fields : gmap string string) !! f
  | JText _ => None
  end.

Definition asString (j : json) : option string :=
  match j with JText s => Some s | JObject _ => None end.

(** The text of a value, without the quotes of JSON. *)
Definition stringify (j : json) : string :=
  match j with
  | JText s => s
  | JObject fields =>
      "{" +:+ joinWith "," (map (fun p => fst p +:+ ":" +:+ snd p) fields) +:+ "}"
  end.

(** A Vault with one secret; the world is the clock. *)
Definition fetchSecret (path : string) (clock : Z) : outcome json * Z :=
  if String.eqb path "secret/app"
  then (Return (JObject [("user", "admin"); ("db", "pg")]), clock)
  else (Throw (newError ("Secret not found at path '" +:+ path +:+ "'")), clock).

Definition emptyVault (clock : Z) : VaultSource.vault Z json :=
  {| VaultSource.cacheTimeout := None; VaultSource.secretCache := ∅;
     VaultSource.world := clock |}.

(** Files with their content and modification time. *)
Definition fileWorld : Type := gmap string (string * Z).

Definition notFound (what path : string) : error :=
  {| message := "ENOENT: no such file or directory, " +:+ what +:+ " '" +:+ path +:+ "'";
     code := Some "ENOENT" |}.

Definition stat (path : string) (w : fileWorld) : outcome FileSource.stats * fileWorld :=
  match w !! path with
  | Some (content, m) =>
      (Return {| FileSource.size := Z.of_nat (len content); FileSource.mtime := m |}, w)
  | None => (Throw (notFound "stat" path), w)
  end.

Definition readFile (path : string) (w : fileWorld) : outcome string * fileWorld :=
  match w !! path with
  | Some (content, _) => (Return content, w)
  | None => (Throw (notFound "open" path), w)
  end.

(** [path.resolve] on a base path and a file name that may begin with
    one [../]. *)
Definition pathResolve (base filename : string) : string :=
  if startsWith "../" filename
  then Demo.dirname base +:+ "/" +:+ drop 3 filename
  else base +:+ "/" +:+ filename.

(** The content of a file stands for its parsed data. *)
Definition parse (content : string) : outcome string := Return content.

Definition digit (n : nat) : ascii := ascii_of_nat (48 + n).

Fixpoint showNat (fuel n : nat) : string :=
  match fuel with
  | O => EmptyString
  | S fuel' =>
      if Nat.ltb n 10 then String (digit n) EmptyString
      else showNat fuel' (n / 10) +:+ String (digit (n mod 10)) EmptyString
  end.

Definition showNumber (z : Z) : string :=
  if Z.ltb z 0 then "-" +:+ showNat 20 (Z.to_nat (- z)) else showNat 20 (Z.to_nat z).

Definition files : fileWorld :=
  {[ "/data/app/users.json" := ("[alice, bob]", 100);
     "/data/app-private/keys.json" := ("[k1, k2]", 200) ]}.

Definition fileConfig (cache : bool) : FileSource.config :=
  {| FileSource.basePath := "/data/app";
     FileSource.allowedExtensions := [".json"; ".yaml"; ".yml"];
     FileSource.cacheFiles := cache;
     FileSource.maxFileSize := 1048576 |}.

Definition fileAdapter (cache : bool) (cached : list (string * string))
    (mtimes : list (string * Z)) : FileSource.fileSource fileWorld string :=
  {| FileSource.cfg := fileConfig cache;
     FileSource.fileCache := list_to_map cached;
     FileSource.fileMTimes := list_to_map mtimes;
     FileSource.world := files |}.

End AdapterDemo.
(** * Properties *)

(** ** Strings *)

Section StringFacts.
Import JsString.

Lemma str_app_cons a (s t : string) : String a s +:+ t = String a (s +:+ t).
Proof. reflexivity. Qed.

Lemma str_app_nil_r (s : string) : s +:+ "" = s.
Proof. induction s as [|a s IH]; [reflexivity|]. rewrite str_app_cons. by f_equal. Qed.

Lemma app_assoc_str (s t u : string) : (s +:+ t) +:+ u = s +:+ (t +:+ u).
Proof.
  induction s as [|a s IH]; [reflexivity|].
  rewrite !str_app_cons. by f_equal.
Qed.

Lemma len_app (s t : string) : len (s +:+ t) = (len s + len t)%nat.
Proof.
  induction s as [|a s IH]; [reflexivity|].
  rewrite str_app_cons. unfold len in *. simpl. by rewrite IH.
Qed.

Lemma take_app (s t : string) : take (len s) (s +:+ t) = s.
Proof.
  induction s as [|a s IH]; [reflexivity|].
  rewrite str_app_cons. unfold len in *. simpl. by f_equal.
Qed.

(** The text consumed between input [u +:+ rest] and remainder [rest]. *)
Lemma take_consumed (u rest : string) :
  take (len (u +:+ rest) - len rest) (u +:+ rest) = u.
Proof.
  rewrite len_app. replace (len u + len rest - len rest)%nat with (len u) by lia.
  apply take_app.
Qed.

Lemma drop_app (s t : string) : drop (len s) (s +:+ t) = t.
Proof. induction s as [|a s IH]; [reflexivity|]. rewrite str_app_cons. exact IH. Qed.

Lemma len_zero (s : string) : len s = O <-> s = "".
Proof. destruct s; split; intros H; try reflexivity; discriminate. Qed.

End StringFacts.

(** ** The matcher on the placeholder pattern *)

Section MatcherFacts.
Import JsString Regex Grammar.

Lemma inRange_single (a c : ascii) : inRange a (c, c) = true <-> a = c.
Proof.
  unfold inRange. simpl. rewrite andb_true_iff, !N.leb_le. split.
  - intros [H1 H2]. rewrite <- (ascii_N_embedding a), <- (ascii_N_embedding c).
    f_equal. lia.
  - intros ->. lia.
Qed.

Lemma noneOf_matches (cs : list ascii) (a : ascii) :
  classMatches (noneOf cs) a = true <-> ~ In a cs.
Proof.
  unfold classMatches, noneOf. simpl.
  destruct (existsb (inRange a) (map (fun c => (c, c)) cs)) eqn:E; simpl.
  - split; [discriminate|]. intros Hn. exfalso. apply Hn.
    apply existsb_exists in E as [[lo hi] [Hin Hr]].
    apply in_map_iff in Hin as [c [Hc Hin]]. inversion Hc; subst.
    apply inRange_single in Hr. by subst.
  - split; [|reflexivity]. intros _ Hin.
    assert (existsb (inRange a) (map (fun c => (c, c)) cs) = true) as E'.
    { apply existsb_exists. exists (a, a). split.
      - apply in_map_iff. by exists a.
      - by apply inRange_single. }
    congruence.
Qed.

Lemma allIn_noneOf (cs : list ascii) (s : string) :
  (forall c, In c cs -> contains c s = false) -> allIn (noneOf cs) s = true.
Proof.
  induction s as [|a s IH]; intros H; [reflexivity|].
  simpl. apply andb_true_iff. split.
  - apply noneOf_matches. intros Hin. specialize (H a Hin). simpl in H.
    destruct (ascii_dec a a); congruence.
  - apply IH. intros c Hc. specialize (H c Hc). simpl in H.
    destruct (ascii_dec a c); congruence.
Qed.

(** A greedy repetition takes a whole run when the continuation accepts
    what follows it. *)
Lemma repClass_run cl (u rest : string) k res :
  allIn cl u = true -> stopsAt cl rest = true ->
  forall min, (min <= len u)%nat -> k rest = Some res ->
  repClass cl min (u +:+ rest) k = Some res.
Proof.
  intros Hall Hstop. induction u as [|a u IH]; intros min Hmin Hk.
  - assert (min = O) as -> by (unfold len in Hmin; simpl in Hmin; lia).
    change ("" +:+ rest) with rest.
    destruct rest as [|b rest]; simpl; [exact Hk|].
    simpl in Hstop. apply negb_true_iff in Hstop. by rewrite Hstop.
  - simpl in Hall. apply andb_true_iff in Hall as [Ha Hu].
    rewrite str_app_cons. simpl. rewrite Ha.
    rewrite (IH Hu (Nat.pred min)); [reflexivity| |exact Hk].
    unfold len in *. simpl in Hmin. lia.
Qed.

Lemma stopsAt_cons cs (a : ascii) (s : string) :
  In a cs -> stopsAt (noneOf cs) (String a s) = true.
Proof.
  intros Hin. simpl. apply negb_true_iff.
  destruct (classMatches (noneOf cs) a) eqn:E; [|reflexivity].
  apply noneOf_matches in E. contradiction.
Qed.

End MatcherFacts.

(** ** Round trip of the placeholder syntax *)

Section RoundTrip.
Import JsString Regex Grammar.

Lemma nonempty_len (s : string) : s <> "" -> (1 <= len s)%nat.
Proof. destruct s; [congruence|]. unfold len. simpl. lia. Qed.

Lemma allIn_1 c s : contains c s = false -> allIn (noneOf [c]) s = true.
Proof. intros H. apply allIn_noneOf. intros c' [<-|[]]. exact H. Qed.

Lemma allIn_2 c d s :
  contains c s = false -> contains d s = false -> allIn (noneOf [c; d]) s = true.
Proof. intros H1 H2. apply allIn_noneOf. intros c' [<-|[<-|[]]]; assumption. Qed.

Lemma take_consumed_eq (u rest : string) (n : nat) :
  n = len rest -> take (len (u +:+ rest) - n) (u +:+ rest) = u.
Proof. intros ->. apply take_consumed. Qed.

Lemma take_whole (s : string) : take (len s - len "") s = s.
Proof.
  rewrite <- (str_app_nil_r s) at 2. rewrite <- (str_app_nil_r s) at 1.
  apply take_consumed.
Qed.

Lemma createPlaceholder_tail name source key d :
  createPlaceholder name source key d
  = "<" +:+ name +:+ ":" +:+ source +:+ "#" +:+ key +:+ tailText (parsedDefault d).
Proof.
  unfold createPlaceholder. destruct d; simpl;
    repeat (rewrite !app_assoc_str; simpl); reflexivity.
Qed.

Ltac norm_app :=
  repeat first
    [ progress change (String.append (String ?a ?s) ?t) with (String a (String.append s t))
    | progress change (String.append EmptyString ?t) with t ].

Lemma rmatch_tail (d : option string) (c : captures) (k : cont) res :
  match d with Some ds => ds <> "" /\ contains ">" ds = false | None => True end ->
  k "" (withDefault d c) = Some res ->
  rmatch tailRegex (tailText d) c k = Some res.
Proof.
  intros Hd Hk. unfold tailRegex. destruct d as [ds|]; cbn [tailText withDefault] in *.
  - destruct Hd as [Hne Hgt].
    norm_app. cbn [rmatch].
    destruct (ascii_dec "|" "|") as [_|]; [|congruence].
    erewrite (repClass_run _ ds ">");
      [ reflexivity | by apply allIn_1 | apply stopsAt_cons; by left
      | by apply nonempty_len | ].
    cbn beta.
    replace (len ">" =? len (String "|" (ds +:+ ">")))%nat with false.
    2:{ symmetry. apply Nat.eqb_neq. pose proof (len_app ds ">") as Hl.
        change (len (String "|" (ds +:+ ">"))) with (S (len (ds +:+ ">"))).
        rewrite Hl. change (len ">") with 1%nat. lia. }
    destruct (ascii_dec ">" ">") as [_|]; [|congruence].
    rewrite (take_consumed_eq ds ">" (len ">")) by reflexivity. exact Hk.
  - exact Hk.
Qed.

Lemma stopsAt_tail (d : option string) :
  stopsAt (noneOf ["|"; ">"]%char) (tailText d) = true.
Proof.
  destruct d; simpl tailText; norm_app.
  - apply stopsAt_cons. by left.
  - apply stopsAt_cons. right. by left.
Qed.

(** The anchored match of a serialized placeholder. *)
Lemma matchAt_serialized name source key (d : option string) :
  validParts name source key ->
  match d with Some ds => ds <> "" /\ contains ">" ds = false | None => True end ->
  matchAt placeholderRegex
    ("<" +:+ name +:+ ":" +:+ source +:+ "#" +:+ key +:+ tailText d)
  = Some {| matched := "<" +:+ name +:+ ":" +:+ source +:+ "#" +:+ key +:+ tailText d;
            groups := withDefault d
                        (<[3%nat := key]> (<[2%nat := source]> (<[1%nat := name]> ∅))) |}.
Proof.
  intros (Hn & Hn' & Hs & Hs' & Hk & Hk1 & Hk2) Hd.
  unfold matchAt, placeholderRegex. fold tailRegex.
  norm_app. cbn [rmatch].
  destruct (ascii_dec "<" "<") as [_|]; [|congruence].
  erewrite (repClass_run _ name (String ":" _));
    [ | by apply allIn_1 | apply stopsAt_cons; by left | by apply nonempty_len | ].
  2:{ cbn [rmatch].
      destruct (ascii_dec ":" ":") as [_|]; [|congruence].
      erewrite (repClass_run _ source (String "#" _));
        [ | by apply allIn_1 | apply stopsAt_cons; by left | by apply nonempty_len | ].
      2:{ cbn [rmatch].
          destruct (ascii_dec "#" "#") as [_|]; [|congruence].
          erewrite (repClass_run _ key (tailText d));
            [ | by apply allIn_2 | apply stopsAt_tail | by apply nonempty_len | ].
          2:{ apply rmatch_tail; [exact Hd|reflexivity]. }
          reflexivity. }
      reflexivity. }
  cbn beta iota. rewrite take_whole.
  rewrite (take_consumed_eq key (tailText d)) by reflexivity.
  rewrite (take_consumed_eq source (String "#" (key +:+ tailText d))) by reflexivity.
  rewrite (take_consumed_eq name
             (String ":" (source +:+ String "#" (key +:+ tailText d)))) by reflexivity.
  reflexivity.
Qed.

Lemma exec_matchAt r s m : matchAt r s = Some m -> exec r s = Some m.
Proof. intros H. destruct s; simpl; by rewrite H. Qed.

(** C4, as amended: for a name without [:], a source without [#], a key
    without [|] and [>], all non-empty, and a default value that is
    absent or is a NON-EMPTY string without [>], parsing the serialized
    placeholder gives back the name, the source, the key and the default
    value (an absent default, left out or [null], reads back as
    [undefined]). *)
Theorem C4_round_trip name source key (d : defaultArg) :
  validParts name source key ->
  validDefault true d ->
  parsePlaceholder (createPlaceholder name source key d)
  = inr {| Grammar.name := name; Grammar.source := source; Grammar.key := key;
           defaultValue := parsedDefault d |}.
Proof.
  intros Hv Hd. unfold parsePlaceholder.
  rewrite createPlaceholder_tail.
  rewrite (exec_matchAt _ _ _ (matchAt_serialized name source key (parsedDefault d) Hv
             ltac:(destruct d; simpl in *; intuition))).
  f_equal. unfold toPlaceholder, groupOr, group. cbn [groups].
  destruct d as [| |ds]; cbn [parsedDefault withDefault];
    by simplify_map_eq.
Qed.

Lemma C4_round_trip_witness :
  parsePlaceholder (createPlaceholder "token" "env" "API_TOKEN" (DString "default-token"))
  = inr {| Grammar.name := "token"; Grammar.source := "env"; Grammar.key := "API_TOKEN";
           defaultValue := Some "default-token" |}.
Proof.
  apply (C4_round_trip "token" "env" "API_TOKEN" (DString "default-token")).
  - unfold validParts. repeat split; (discriminate || reflexivity).
  - simpl. split; [reflexivity | discriminate].
Defined.

(** C4 as stated fails: the empty string is a default value without [>],
    and its serialization [<n:s#k|>] does not parse back. *)
Lemma C4_empty_default_counterexample :
  validParts "n" "s" "k" /\ validDefault false (DString "") /\
  createPlaceholder "n" "s" "k" (DString "") = "<n:s#k|>" /\
  parsePlaceholder (createPlaceholder "n" "s" "k" (DString ""))
  = inl "Invalid placeholder syntax: <n:s#k|>" /\
  parsePlaceholder (createPlaceholder "n" "s" "k" (DString ""))
  <> inr {| Grammar.name := "n"; Grammar.source := "s"; Grammar.key := "k";
            defaultValue := Some "" |}.
Proof.
  split; [|split; [|split; [|split]]].
  - unfold validParts. repeat split; (discriminate || reflexivity).
  - simpl. split; [reflexivity | discriminate].
  - reflexivity.
  - vm_compute. reflexivity.
  - vm_compute. discriminate.
Qed.

End RoundTrip.

(** ** The precedence resolver *)

Section ResolverFacts.
Import JsString Regex Grammar Js ParamResolver.

Context {World : Type}.
Variable now : World -> Z.

Abbreviation Source := (Source World).
Abbreviation state := (state World).

(** *** One step of the walk *)

Lemma walk_cons_throw (src : Source) rest key ck le (st : state) e w :
  resolve src key (world st) = (Throw e, w) ->
  walk now (src :: rest) key ck le st
  = walk now rest key ck (Some e) (print (warnLine src key e) (called src key w st)).
Proof.
  intros H. cbn [walk]. unfold bind at 1. unfold tryCatch, bind at 1, callResolve.
  rewrite H. reflexivity.
Qed.

Lemma walk_cons_absent (src : Source) rest key ck le (st : state) r w :
  resolve src key (world st) = (Return r, w) ->
  r = RNull \/ r = RUndefined ->
  walk now (src :: rest) key ck le st = walk now rest key ck le (called src key w st).
Proof.
  intros H Hr. cbn [walk]. unfold bind at 1. unfold tryCatch, bind at 1, callResolve.
  rewrite H. destruct Hr as [-> | ->]; reflexivity.
Qed.

Lemma walk_cons_value (src : Source) rest key ck le (st : state) v w :
  resolve src key (world st) = (Return (RValue v), w) ->
  walk now (src :: rest) key ck le st
  = (Return (inl v),
     setCache (<[ck := {| value := v; timestamp := now w |}]> (cache st))
              (called src key w st)).
Proof.
  intros H. cbn [walk]. unfold bind at 1. unfold tryCatch, bind at 1, callResolve.
  rewrite H. reflexivity.
Qed.

Lemma lastOf_cons le e errs : lastOf le (e :: errs) = lastOf (Some e) errs.
Proof. unfold lastOf. rewrite last_cons. by destruct (last errs). Qed.

(** *** A run in which every source fails *)

Lemma walk_failedRun key chain (st : state) errs st' :
  failedRun key chain st errs st' ->
  forall ck le, walk now chain key ck le st = (Return (inr (lastOf le errs)), st').
Proof.
  induction 1 as [st | src rest st e w errs st' Hres _ IH
                     | src rest st r w errs st' Hres Hr _ IH]; intros ck le.
  - reflexivity.
  - rewrite (walk_cons_throw _ _ _ _ _ _ _ _ Hres), IH. by rewrite lastOf_cons.
  - rewrite (walk_cons_absent _ _ _ _ _ _ _ _ Hres Hr). apply IH.
Qed.

Lemma walk_failed_prefix key pre (st : state) errs st1 :
  failedRun key pre st errs st1 ->
  forall post ck le,
    walk now (pre ++ post) key ck le st = walk now post key ck (lastOf le errs) st1.
Proof.
  induction 1 as [st | src rest st e w errs st' Hres _ IH
                     | src rest st r w errs st' Hres Hr _ IH]; intros post ck le.
  - reflexivity.
  - rewrite <- app_comm_cons, (walk_cons_throw _ _ _ _ _ _ _ _ Hres), IH.
    by rewrite lastOf_cons.
  - rewrite <- app_comm_cons, (walk_cons_absent _ _ _ _ _ _ _ _ Hres Hr). apply IH.
Qed.

(** A failed run leaves the cache, the registration and the TTL alone,
    and calls exactly the sources of the chain, in order. *)
Lemma failedRun_frame key chain (st : state) errs st' :
  failedRun key chain st errs st' ->
  cache st' = cache st /\ sources st' = sources st /\
  cacheTimeout st' = cacheTimeout st /\
  calls st' = calls st ++ map (fun src => (className src, key)) chain.
Proof.
  induction 1 as [st | src rest st e w errs st' Hres _ IH
                     | src rest st r w errs st' Hres Hr _ IH].
  - repeat split. by rewrite app_nil_r.
  - destruct IH as (Hc & Hs & Ht & Hcalls). repeat split; try assumption.
    rewrite Hcalls. cbn. by rewrite <- app_assoc.
  - destruct IH as (Hc & Hs & Ht & Hcalls). repeat split; try assumption.
    rewrite Hcalls. cbn. by rewrite <- app_assoc.
Qed.

(** *** The cache *)

Lemma getCachedValue_miss key (st st0 : state) :
  getCachedValue now key st = (Return None, st0) ->
  cache st0 !! key = None /\ sources st0 = sources st /\ world st0 = world st /\
  calls st0 = calls st /\ console st0 = console st /\ cacheTimeout st0 = cacheTimeout st.
Proof.
  unfold getCachedValue. destruct (cache st !! key) as [e|] eqn:E.
  - destruct (_ >? _); intros H; inversion H; subst; cbn.
    by rewrite lookup_delete_eq.
  - intros H; inversion H; subst. by rewrite E.
Qed.

Lemma resolvePlaceholder_miss name sourceType key dflt (st st0 : state) :
  getCachedValue now (cacheKeyOf name sourceType key) st = (Return None, st0) ->
  resolvePlaceholder now name sourceType key dflt st
  = bind (walk now (getOrderedSources (sources st0) sourceType) key
               (cacheKeyOf name sourceType key) None)
         (fun r =>
            match r with
            | inl v => ret v
            | inr lastError =>
                match dflt with
                | Some d => ret d
                | None => throw (newError (unresolvedMessage key sourceType lastError))
                end
            end) st0.
Proof. intros H. unfold resolvePlaceholder, bind at 1. by rewrite H. Qed.

Lemma getCachedValue_frame key (st : state) :
  calls (snd (getCachedValue now key st)) = calls st /\
  world (snd (getCachedValue now key st)) = world st /\
  sources (snd (getCachedValue now key st)) = sources st.
Proof.
  unfold getCachedValue. destruct (cache st !! key); [|done].
  by destruct (_ >? _).
Qed.

(** The walk only ever adds calls. *)
Lemma walk_calls_extend chain key ck :
  forall le (st : state),
    exists more, calls (snd (walk now chain key ck le st)) = calls st ++ more.
Proof.
  induction chain as [|src rest IH]; intros le st.
  - exists []. cbn. by rewrite app_nil_r.
  - destruct (resolve src key (world st)) as [[r|e] w] eqn:Hres.
    + destruct r as [| |v].
      * rewrite (walk_cons_absent _ _ _ _ _ _ _ _ Hres) by auto.
        destruct (IH le (called src key w st)) as [more Hm].
        exists ((className src, key) :: more). rewrite Hm. cbn. by rewrite <- app_assoc.
      * rewrite (walk_cons_absent _ _ _ _ _ _ _ _ Hres) by auto.
        destruct (IH le (called src key w st)) as [more Hm].
        exists ((className src, key) :: more). rewrite Hm. cbn. by rewrite <- app_assoc.
      * rewrite (walk_cons_value _ _ _ _ _ _ _ _ Hres). by exists [(className src, key)].
    + rewrite (walk_cons_throw _ _ _ _ _ _ _ _ Hres).
      destruct (IH (Some e) (print (warnLine src key e) (called src key w st)))
        as [more Hm].
      exists ((className src, key) :: more). rewrite Hm. cbn. by rewrite <- app_assoc.
Qed.

Lemma walk_calls_first src rest key ck le (st : state) :
  exists more,
    calls (snd (walk now (src :: rest) key ck le st))
    = calls st ++ (className src, key) :: more.
Proof.
  destruct (resolve src key (world st)) as [[r|e] w] eqn:Hres.
  - destruct r as [| |v].
    + rewrite (walk_cons_absent _ _ _ _ _ _ _ _ Hres) by auto.
      destruct (walk_calls_extend rest key ck le (called src key w st)) as [more Hm].
      exists more. rewrite Hm. cbn. by rewrite <- app_assoc.
    + rewrite (walk_cons_absent _ _ _ _ _ _ _ _ Hres) by auto.
      destruct (walk_calls_extend rest key ck le (called src key w st)) as [more Hm].
      exists more. rewrite Hm. cbn. by rewrite <- app_assoc.
    + rewrite (walk_cons_value _ _ _ _ _ _ _ _ Hres). by exists [].
  - rewrite (walk_cons_throw _ _ _ _ _ _ _ _ Hres).
    destruct (walk_calls_extend rest key ck (Some e)
                (print (warnLine src key e) (called src key w st))) as [more Hm].
    exists more. rewrite Hm. cbn. by rewrite <- app_assoc.
Qed.

(** The continuation of [resolvePlaceholder] after the walk keeps the
    state the walk ended in. *)
Lemma resolvePlaceholder_miss_state name sourceType key dflt (st st0 : state) :
  getCachedValue now (cacheKeyOf name sourceType key) st = (Return None, st0) ->
  snd (resolvePlaceholder now name sourceType key dflt st)
  = snd (walk now (getOrderedSources (sources st0) sourceType) key
              (cacheKeyOf name sourceType key) None st0).
Proof.
  intros H. rewrite (resolvePlaceholder_miss _ _ _ _ _ _ H). unfold bind.
  destruct (walk _ _ _ _ _ _) as [[[v|le]|e] st']; [reflexivity| |reflexivity].
  by destruct dflt.
Qed.

(** *** C1 *)

(** C1: on a cache miss, when the sources [pre] at the head of the
    fallback chain all fail for the key (each throws, or returns [null]
    or [undefined]) and the next source [src] returns the value [v],
    [resolvePlaceholder] returns [v]; the top-level cache then holds [v]
    under the placeholder's cache key, stamped with the time after the
    call; the backend calls made are exactly those of [pre] and [src], in
    order, so no source of [post] is called.  A source that throws is
    skipped and the walk goes on with the next one; when every source of
    a chain fails, the walk ends holding the last error thrown. *)
Theorem C1_first_success_wins name sourceType key dflt (st st0 st1 : state)
    (pre post : list Source) (src : Source) errs v w2 :
  getCachedValue now (cacheKeyOf name sourceType key) st = (Return None, st0) ->
  getOrderedSources (sources st0) sourceType = pre ++ src :: post ->
  failedRun key pre st0 errs st1 ->
  resolve src key (world st1) = (Return (RValue v), w2) ->
  let st2 := snd (resolvePlaceholder now name sourceType key dflt st) in
  resolvePlaceholder now name sourceType key dflt st = (Return v, st2) /\
  cache st2 !! cacheKeyOf name sourceType key
    = Some {| value := v; timestamp := now w2 |} /\
  world st2 = w2 /\
  calls st2 = calls st ++ map (fun s => (className s, key)) (pre ++ [src]) /\
  (forall (s : Source) rest e w ck le (st' : state),
      resolve s key (world st') = (Throw e, w) ->
      walk now (s :: rest) key ck le st'
      = walk now rest key ck (Some e) (print (warnLine s key e) (called s key w st'))) /\
  (forall chain errs' (st' st'' : state) ck,
      failedRun key chain st' errs' st'' ->
      walk now chain key ck None st' = (Return (inr (last errs')), st'')).
Proof.
  intros Hmiss Hchain Hpre Hres st2.
  assert (resolvePlaceholder now name sourceType key dflt st
          = (Return v,
             setCache (<[cacheKeyOf name sourceType key
                         := {| value := v; timestamp := now w2 |}]> (cache st1))
                      (called src key w2 st1))) as Heq.
  { rewrite (resolvePlaceholder_miss _ _ _ _ _ _ Hmiss), Hchain. unfold bind.
    rewrite (walk_failed_prefix _ _ _ _ _ Hpre).
    by rewrite (walk_cons_value _ _ _ _ _ _ _ _ Hres). }
  subst st2. rewrite Heq. cbn [snd].
  destruct (failedRun_frame _ _ _ _ _ Hpre) as (_ & _ & _ & Hcalls).
  destruct (getCachedValue_miss _ _ _ Hmiss) as (_ & _ & _ & Hc0 & _).
  split; [reflexivity|]. split; [cbn; by rewrite lookup_insert_eq|].
  split; [reflexivity|]. split.
  { cbn. rewrite Hcalls, Hc0, map_app. cbn. by rewrite <- app_assoc. }
  split.
  - intros s rest e w ck le st' H. by apply walk_cons_throw.
  - intros chain errs' st' st'' ck H.
    rewrite (walk_failedRun _ _ _ _ _ H). unfold lastOf. by destruct (last errs').
Qed.

(** *** C2 *)

Lemma fold_push_omap (reg : gmap string Source) (keep : string -> bool)
    (names : list string) :
  forall acc : list Source,
    fold_left
      (fun sources sourceType =>
         if keep sourceType then
           match reg !! sourceType with
           | Some src => push sources src
           | None => sources
           end
         else sources)
      names acc
    = acc ++ omap (fun n => reg !! n) (List.filter keep names).
Proof.
  induction names as [|n names IH]; intros acc.
  - cbn. by rewrite app_nil_r.
  - cbn [fold_left List.filter]. rewrite IH. destruct (keep n); [|reflexivity].
    cbn [omap list_omap]. destruct (reg !! n); [|reflexivity].
    unfold push. by rewrite <- app_assoc.
Qed.

(** The loop of [getOrderedSources] gives the sources registered under
    the declared name and the other names of the precedence list. *)
Lemma getOrderedSources_omap (reg : gmap string Source) (s : string) :
  getOrderedSources reg s
  = omap (fun n => reg !! n)
      (s :: List.filter (fun n => bool_decide (n <> s)) sourcePrecedence).
Proof.
  unfold getOrderedSources.
  rewrite (fold_push_omap reg (fun n => bool_decide (n <> s))).
  cbn [omap list_omap]. by destruct (reg !! s).
Qed.

Lemma omap_registered (reg : gmap string Source) (l : list string) :
  Forall2 (fun n src => reg !! n = Some src)
    (List.filter (fun n => bool_decide (is_Some (reg !! n))) l)
    (omap (fun n => reg !! n) l).
Proof.
  induction l as [|n l IH]; [constructor|].
  cbn [List.filter omap list_omap]. destruct (reg !! n) as [src|] eqn:Hn.
  - rewrite bool_decide_true by eauto. by constructor.
  - rewrite bool_decide_false by (intros [? ?]; congruence). exact IH.
Qed.

Lemma getOrderedSources_preferred (reg : gmap string Source) (s : string) (f : Source) :
  reg !! s = Some f ->
  exists rest, getOrderedSources reg s = f :: rest.
Proof.
  intros Hf. rewrite getOrderedSources_omap. cbn [omap list_omap]. rewrite Hf.
  by eexists.
Qed.

(** C2: the sources [getOrderedSources] lists for a placeholder
    declaring [s] are, one for one and in this order, the sources
    registered under the names [s] followed by the precedence list env,
    file, vault, aws, k8s, http without [s], of which only the registered
    names are kept.  In particular, on a cache miss, when [env] and
    [file] are registered and [file] holds a value for the key, a
    placeholder declaring [file] resolves to that value with a single
    backend call, to [file], whatever [env] holds. *)
Theorem C2_declared_source_first (reg : gmap string Source) (s : string) :
  sourcePrecedence = ["env"; "file"; "vault"; "aws"; "k8s"; "http"] /\
  Forall2 (fun n src => reg !! n = Some src)
    (fallbackChain (fun n => bool_decide (is_Some (reg !! n))) s)
    (getOrderedSources reg s) /\
  (forall name key dflt (st st0 : state) (e f : Source) v w,
      sources st = reg ->
      reg !! "env" = Some e ->
      reg !! "file" = Some f ->
      getCachedValue now (cacheKeyOf name "file" key) st = (Return None, st0) ->
      resolve f key (world st) = (Return (RValue v), w) ->
      fst (resolvePlaceholder now name "file" key dflt st) = Return v /\
      calls (snd (resolvePlaceholder now name "file" key dflt st))
      = calls st ++ [(className f, key)]).
Proof.
  split; [reflexivity|].
  split; [rewrite getOrderedSources_omap; apply omap_registered|].
  intros name key dflt st st0 e f v w Hreg _ Hf Hmiss Hres.
  destruct (getCachedValue_miss _ _ _ Hmiss) as (_ & Hs0 & Hw0 & Hc0 & _).
  rewrite (resolvePlaceholder_miss _ _ _ _ _ _ Hmiss).
  destruct (getOrderedSources_preferred (sources st0) "file" f) as [rest Hrest].
  { by rewrite Hs0, Hreg. }
  rewrite Hrest. unfold bind.
  rewrite <- Hw0 in Hres.
  rewrite (walk_cons_value _ _ _ _ _ _ _ _ Hres). cbn. by rewrite Hc0.
Qed.

(** *** C3 *)

Lemma getCachedValue_entry key (st : state) (e : CacheEntry) :
  cache st !! key = Some e ->
  getCachedValue now key st
  = if now (world st) - timestamp e >? cacheTimeout st
    then (Return None, setCache (delete key (cache st)) st)
    else (Return (Some (value e)), st).
Proof. intros He. unfold getCachedValue. by rewrite He. Qed.

Lemma resolvePlaceholder_hit name sourceType key dflt (st : state) (e : CacheEntry) :
  cache st !! cacheKeyOf name sourceType key = Some e ->
  now (world st) - timestamp e <= cacheTimeout st ->
  resolvePlaceholder now name sourceType key dflt st = (Return (value e), st).
Proof.
  intros He Hle. unfold resolvePlaceholder, bind.
  rewrite (getCachedValue_entry _ _ _ He).
  destruct (Z.gtb_spec (now (world st) - timestamp e) (cacheTimeout st)); [lia|].
  reflexivity.
Qed.

(** Idempotence within the TTL: once a source has supplied [v], a later
    resolution of the same placeholder, in any state that still holds the
    entry and whose clock is at most the TTL past the insertion, returns
    [v] and makes no backend call. *)
Lemma resolve_again_within_ttl name sourceType key dflt (st : state) v t :
  cache st !! cacheKeyOf name sourceType key = Some {| value := v; timestamp := t |} ->
  now (world st) - t <= cacheTimeout st ->
  resolvePlaceholder now name sourceType key dflt st = (Return v, st).
Proof. intros He Hle. by apply (resolvePlaceholder_hit _ _ _ _ _ _ He). Qed.

(** C3, as amended: a top-level cache entry read at time [t] is served,
    with no backend call and no change of state, if and only if
    [t - insertedAtTimestamp <= ttl], so an entry whose age EQUALS the
    TTL is still served; an entry whose age has passed the TTL is not
    served: the read deletes it, and the resolution goes on to the
    fallback walk, whose first act is a call to the first source of the
    chain. *)
Theorem C3_cache_ttl name sourceType key dflt (st : state) (e : CacheEntry) :
  cache st !! cacheKeyOf name sourceType key = Some e ->
  (now (world st) - timestamp e <= cacheTimeout st ->
     resolvePlaceholder now name sourceType key dflt st = (Return (value e), st)) /\
  (cacheTimeout st < now (world st) - timestamp e ->
     getCachedValue now (cacheKeyOf name sourceType key) st
     = (Return None, setCache (delete (cacheKeyOf name sourceType key) (cache st)) st) /\
     forall src rest,
       getOrderedSources (sources st) sourceType = src :: rest ->
       exists more,
         calls (snd (resolvePlaceholder now name sourceType key dflt st))
         = calls st ++ (className src, key) :: more) /\
  (fst (getCachedValue now (cacheKeyOf name sourceType key) st) = Return (Some (value e))
   <-> now (world st) - timestamp e <= cacheTimeout st).
Proof.
  intros He. pose proof (getCachedValue_entry _ _ _ He) as Hget.
  split; [|split].
  - intros Hle. by apply resolvePlaceholder_hit.
  - intros Hgt.
    assert (Hmiss : getCachedValue now (cacheKeyOf name sourceType key) st
                    = (Return None,
                       setCache (delete (cacheKeyOf name sourceType key) (cache st)) st)).
    { rewrite Hget.
      destruct (Z.gtb_spec (now (world st) - timestamp e) (cacheTimeout st)); [done|lia]. }
    split; [exact Hmiss|]. intros src rest Hchain.
    rewrite (resolvePlaceholder_miss_state _ _ _ _ _ _ Hmiss). cbn [sources setCache].
    rewrite Hchain.
    destruct (walk_calls_first src rest key (cacheKeyOf name sourceType key) None
                (setCache (delete (cacheKeyOf name sourceType key) (cache st)) st))
      as [more Hm].
    exists more. exact Hm.
  - rewrite Hget.
    destruct (Z.gtb_spec (now (world st) - timestamp e) (cacheTimeout st)); cbn.
    + split; [discriminate|lia].
    + split; [lia|reflexivity].
Qed.

(** *** C6 *)

(** C6: on a cache miss, when every source of the fallback chain fails
    for the key (the empty chain included): with a default value,
    [resolvePlaceholder] returns that value as it is, and the top-level
    cache is what it was after the lookup, with no entry under the
    placeholder's cache key; without a default value it throws
    [Could not resolve placeholder for key '<key>' from source
    '<source>'. Last error: <message>], where the message is that of the
    last error thrown by a source, or [No sources available] when no
    source threw (or when that message is empty). *)
Theorem C6_exhausted_chain name sourceType key (st st0 st1 : state) errs :
  getCachedValue now (cacheKeyOf name sourceType key) st = (Return None, st0) ->
  failedRun key (getOrderedSources (sources st0) sourceType) st0 errs st1 ->
  (forall d, resolvePlaceholder now name sourceType key (Some d) st = (Return d, st1)) /\
  cache st1 = cache st0 /\
  cache st1 !! cacheKeyOf name sourceType key = None /\
  resolvePlaceholder now name sourceType key None st
  = (Throw (newError
              ("Could not resolve placeholder for key '" +:+ key +:+ "' from source '"
                 +:+ sourceType +:+ "'. Last error: "
                 +:+ match last errs with
                     | Some e => if Nat.eqb (len (message e)) 0
                                 then "No sources available" else message e
                     | None => "No sources available"
                     end)),
     st1).
Proof.
  intros Hmiss Hrun.
  destruct (failedRun_frame _ _ _ _ _ Hrun) as (Hc & _).
  destruct (getCachedValue_miss _ _ _ Hmiss) as (Hnone & _).
  assert (Hlast : lastOf None errs = last errs).
  { unfold lastOf. by destruct (last errs). }
  split; [|split; [exact Hc|split; [by rewrite Hc|]]].
  - intros d. rewrite (resolvePlaceholder_miss _ _ _ _ _ _ Hmiss). unfold bind.
    by rewrite (walk_failedRun _ _ _ _ _ Hrun).
  - rewrite (resolvePlaceholder_miss _ _ _ _ _ _ Hmiss). unfold bind.
    rewrite (walk_failedRun _ _ _ _ _ Hrun), Hlast. reflexivity.
Qed.

End ResolverFacts.

(** ** The text resolution engine *)

Section TextFacts.
Import JsString Regex Grammar Js ParamResolver.

Context {World : Type}.
Variable now : World -> Z.

Abbreviation state := (state World).

Lemma resolveLoop_app pre post text (st : state) :
  resolveLoop now (pre ++ post) text st
  = bind (resolveLoop now pre text) (resolveLoop now post) st.
Proof.
  revert text st. induction pre as [|m pre IH]; intros text st; [reflexivity|].
  cbn [resolveLoop app]. unfold bind.
  destruct (resolveMatch now m text st) as [[t|e] st']; [|reflexivity].
  rewrite IH. reflexivity.
Qed.

Lemma resolveMatch_throw m text (st st2 : state) e :
  defaultValue (toPlaceholder m) = None ->
  resolvePlaceholder now (name (toPlaceholder m)) (source (toPlaceholder m))
    (key (toPlaceholder m)) None st = (Throw e, st2) ->
  resolveMatch now m text st
  = (Throw (newError (requiredMessage m (message e))),
     print ("Failed to resolve placeholder " +:+ matched m +:+ ": " +:+ message e) st2).
Proof.
  intros Hd Hres. unfold resolveMatch, tryCatch, bind at 1.
  rewrite Hd, Hres. reflexivity.
Qed.

(** Whatever the loop throws is the error of one of its placeholders. *)
Lemma resolveLoop_throw ms text (st st' : state) e :
  resolveLoop now ms text st = (Throw e, st') ->
  exists m cause, In m ms /\ e = newError (requiredMessage m cause).
Proof.
  revert text st. induction ms as [|m ms IH]; intros text st; [discriminate|].
  cbn [resolveLoop]. unfold bind at 1.
  destruct (resolveMatch now m text st) as [[t|e0] st0] eqn:Hm.
  - intros H. destruct (IH _ _ H) as (m' & cause & Hin & ->).
    exists m', cause. split; [by right|reflexivity].
  - intros H. inversion H; subst. exists m.
    unfold resolveMatch, tryCatch in Hm.
    destruct (bind _ _ st) as [[t|e1] st1]; [discriminate|].
    unfold bind, log in Hm.
    destruct (defaultValue (toPlaceholder m)); [discriminate|].
    inversion Hm; subst. exists (message e1). split; [by left|reflexivity].
Qed.

Lemma resolveText_string s (st : state) :
  resolveText now (VString s) st
  = bind (resolveLoop now (matchAll placeholderRegex s) s)
         (fun resolvedText => ret (VString resolvedText)) st.
Proof. destruct s; reflexivity. Qed.

(** C5: when a placeholder of the document without default value fails
    to resolve at the point the loop reaches it, [resolveText] throws:
    the call ends with an error (that of this placeholder or of an
    earlier one) and returns no document at all, so no partly
    substituted text reaches the caller. *)
Theorem C5_all_or_nothing (s : string) (st : state) pre m post :
  matchAll placeholderRegex s = pre ++ m :: post ->
  defaultValue (toPlaceholder m) = None ->
  (forall text1 st1,
      resolveLoop now pre s st = (Return text1, st1) ->
      exists e st2,
        resolvePlaceholder now (name (toPlaceholder m)) (source (toPlaceholder m))
          (key (toPlaceholder m)) None st1 = (Throw e, st2)) ->
  exists m' cause st',
    In m' (pre ++ [m]) /\
    resolveText now (VString s) st = (Throw (newError (requiredMessage m' cause)), st').
Proof.
  intros Hms Hd Hfail. rewrite resolveText_string, Hms.
  unfold bind at 1. rewrite resolveLoop_app. unfold bind at 1.
  destruct (resolveLoop now pre s st) as [[text1 | e1] st1] eqn:Hpre.
  - destruct (Hfail _ _ eq_refl) as (e & st2 & Hres).
    cbn [resolveLoop]. unfold bind at 1.
    rewrite (resolveMatch_throw _ _ _ _ _ Hd Hres).
    exists m, (message e). eexists. split; [|reflexivity].
    apply in_or_app. right. by left.
  - destruct (resolveLoop_throw _ _ _ _ _ Hpre) as (m' & cause & Hin & ->).
    exists m', cause, st1. split; [|reflexivity].
    apply in_or_app. by left.
Qed.

(** C10: [resolveText] hands back a [null], [undefined], empty-string or
    non-string argument as it is and leaves the whole state alone: the
    cache is not consulted and no source is called. *)
Theorem C10_non_text_unchanged (text : jsval) (st : state) :
  text = VNull \/ text = VUndefined \/ text = VString "" \/ isString text = false ->
  resolveText now text st = (Return text, st).
Proof.
  intros [-> | [-> | [-> | H]]]; try reflexivity.
  destruct text as [| |b|n|s|i]; try discriminate H; try reflexivity.
  - unfold resolveText. cbn. by destruct b.
  - unfold resolveText. cbn. by destruct (n =? 0).
Qed.

(** A value without [$] is substituted character for character. *)
Lemma getSubstitution_plain caps matched before after (t : string) :
  contains "$" t = false -> getSubstitution caps matched before after t = t.
Proof.
  induction t as [|a t IH]; [reflexivity|].
  cbn [contains getSubstitution].
  destruct (ascii_dec a "$"); [discriminate|]. intros H. by rewrite IH.
Qed.

(** With a value without [$] the first occurrence of the placeholder is
    replaced by the value as it is. *)
Lemma replace_plain (text pat v before after : string) :
  splitFirst pat text = Some (before, after) ->
  contains "$" v = false ->
  replace text pat v = before +:+ v +:+ after.
Proof.
  intros Hs Hv. unfold replace. rewrite Hs. by rewrite getSubstitution_plain.
Qed.

End TextFacts.

(** ** The batch driver *)

Section BatchFacts.
Import JsString Js ParamResolver Preprocessor.

Context {World : Type}.
Variable now : World -> Z.
Variables (join relative : string -> string -> string) (dirname extname : string -> string).
Variable readFile : string -> World -> outcome string * World.
Variable writeFile : string -> string -> World -> outcome unit * World.
Variable fsCopyFile : string -> string -> World -> outcome unit * World.
Variable mkdir : string -> World -> outcome unit * World.

Abbreviation state := (state World).
Abbreviation processSpecFile' :=
  (processSpecFile now dirname readFile writeFile fsCopyFile mkdir).
Abbreviation processDirectoryRecursive' :=
  (processDirectoryRecursive now join relative dirname extname
     readFile writeFile fsCopyFile mkdir).




End BatchFacts.

(** ** The masking filter *)

Section MaskFacts.
Import JsString Regex Js ParamResolver Plugin.

Lemma runLength_le cl (s : string) : (runLength cl s <= len s)%nat.
Proof.
  induction s as [|a s IH]; [reflexivity|].
  cbn [runLength]. destruct (classMatches cl a); unfold len in *; simpl; lia.
Qed.

Lemma len_drop (n : nat) (s : string) : len (drop n s) = (len s - n)%nat.
Proof.
  revert n. induction s as [|a s IH]; intros [|n]; try reflexivity.
  cbn [drop]. rewrite IH. reflexivity.
Qed.

Lemma len_take (n : nat) (s : string) : (n <= len s)%nat -> len (take n s) = n.
Proof.
  revert n. induction s as [|a s IH]; intros [|n] H; try reflexivity.
  - unfold len in H. simpl in H. lia.
  - cbn [take]. unfold len in *. simpl in *. rewrite IH; lia.
Qed.

(** A greedy repetition whose continuation never fails takes the whole
    run, or fails when the run is too short. *)
Lemma repClass_total cl (k : string -> option (string * captures)) :
  (forall x, k x <> None) ->
  forall s min,
    repClass cl min s k
    = if Nat.leb min (runLength cl s) then k (drop (runLength cl s) s) else None.
Proof.
  intros Hk. induction s as [|a s IH]; intros min.
  - cbn. by destruct min.
  - cbn [repClass runLength]. destruct (classMatches cl a) eqn:Ha.
    + rewrite IH. cbn [drop].
      destruct (Nat.leb_spec (Nat.pred min) (runLength cl s)) as [H|H].
      * destruct (k (drop (runLength cl s) s)) eqn:Ek; [|by apply Hk in Ek].
        destruct (Nat.leb_spec min (S (runLength cl s))); [reflexivity|lia].
      * destruct min as [|min]; [simpl in H; lia|].
        destruct (Nat.leb_spec (S min) (S (runLength cl s))); [simpl in H; lia|reflexivity].
    + by destruct min.
Qed.

Lemma matchAt_sensitive (s : string) :
  match matchAt sensitiveRegex s with
  | Some m => (20 <= runLength sensitiveClass s)%nat
              /\ len (matched m) = runLength sensitiveClass s
  | None => (runLength sensitiveClass s < 20)%nat
  end.
Proof.
  unfold matchAt, sensitiveRegex. cbn [rmatch].
  rewrite repClass_total by (intros x; discriminate).
  destruct (Nat.leb_spec 20 (runLength sensitiveClass s)) as [H|H]; [|exact H].
  split; [exact H|]. cbn [matched].
  pose proof (runLength_le sensitiveClass s).
  rewrite len_drop, len_take; lia.
Qed.

Lemma hasRun_mask cl n (o : string) :
  classMatches cl "*" = false -> (1 <= n)%nat ->
  hasRun cl n ("****" +:+ o) = hasRun cl n o.
Proof.
  intros Hstar Hn.
  change ("****" +:+ o) with (String "*" (String "*" (String "*" (String "*" o)))).
  cbn [hasRun runLength]. rewrite Hstar.
  destruct (Nat.leb_spec n 0); [lia|]. reflexivity.
Qed.

(** What [replaceFrom] gives with the mask as template: no run of 20
    class characters, whatever part of a match is still to be skipped. *)
Lemma replaceFrom_mask_no_run (s : string) :
  forall skip before,
    let out := replaceFrom sensitiveRegex 1 "****" skip before s in
    hasRun sensitiveClass 20 out = false /\
    (skip = O -> (runLength sensitiveClass s < 20)%nat ->
     (runLength sensitiveClass out <= runLength sensitiveClass s)%nat).
Proof.
  induction s as [|a s IH]; intros skip before out; subst out.
  - destruct skip; split; try reflexivity; intros; reflexivity.
  - cbn [replaceFrom]. destruct skip as [|skip].
    + pose proof (matchAt_sensitive (String a s)) as Hm.
      destruct (matchAt sensitiveRegex (String a s)) as [m|].
      * destruct Hm as [H20 Hlen].
        rewrite getSubstitution_plain by reflexivity.
        destruct (len (matched m)) as [|l] eqn:El; [lia|].
        rewrite hasRun_mask by (reflexivity || lia).
        split; [apply IH|]. intros _ Hlt. lia.
      * destruct (IH O (before +:+ String a "")) as [Hno Hrun].
        cbn [runLength] in Hm |- *. cbn [hasRun runLength].
        destruct (classMatches sensitiveClass a).
        -- assert (runLength sensitiveClass s < 20)%nat as Hs by lia.
           specialize (Hrun eq_refl Hs). split.
           ++ rewrite Hno, orb_false_r. apply Nat.leb_gt. lia.
           ++ intros _ _. lia.
        -- split; [by rewrite Hno|]. intros _ _. lia.
    + split; [apply IH|]. intros H. discriminate H.
Qed.

(** The masked text holds no run of 20 or more characters of
    [[A-Za-z0-9+/]], so no 25-character alphanumeric token. *)
Lemma maskSensitiveInfo_no_run (message : string) :
  hasRun sensitiveClass 20 (maskSensitiveInfo message) = false.
Proof. apply (replaceFrom_mask_no_run message O ""). Qed.

Lemma reply_text_no_run (o : string) :
  hasRun sensitiveClass 20 ("Parameter resolution failed: " +:+ o)
  = hasRun sensitiveClass 20 o.
Proof.
  repeat first
    [ progress change (String.append (String ?a ?s) ?t) with (String a (String.append s t))
    | progress change (String.append EmptyString ?t) with t ].
  cbn [hasRun]. cbn. reflexivity.
Qed.

(** The reply of [handleStepExecutionStarting] is masked: its error
    message never holds a run of 20 class characters. *)
Lemma handleStepExecutionStarting_reply_masked {World : Type} (now : World -> Z)
    (req : request) (st st' : state World) (reply : executionResult) :
  handleStepExecutionStarting now req st = (Return reply, st') ->
  match errorMessage reply with
  | Some msg => hasRun sensitiveClass 20 msg = false
  | None => True
  end.
Proof.
  unfold handleStepExecutionStarting, tryCatch.
  destruct (bind _ _ st) as [[r|e] st1] eqn:E.
  - intros H. inversion H; subst. unfold bind at 1 in E.
    destruct (_ st) as [[[]|e] st2] in E; inversion E; subst. exact I.
  - unfold bind, log, ret. intros H. inversion H; subst. cbn [errorMessage].
    rewrite reply_text_no_run. apply maskSensitiveInfo_no_run.
Qed.

End MaskFacts.

(** ** The properties on concrete runs *)

Section Scenarios.
Import JsString Regex Grammar Js ParamResolver Plugin Preprocessor Demo Scenario.

(** The two scenarios of the specification. *)
Example hello_test_value :
  fst (resolveText now (VString "Hello <user:env#TEST_VAR>!") testState)
  = Return (VString "Hello test_value!").
Proof. vm_compute. reflexivity. Qed.

Example missing_falls_back_to_default :
  fst (resolveText now (VString "<x:env#MISSING|fallback_value>") testState)
  = Return (VString "fallback_value").
Proof. vm_compute. reflexivity. Qed.

(** The vault is sealed, the environment has the key. *)
Lemma C1_first_success_wins_witness :
  let run := resolvePlaceholder now "t" "vault" "K" None fallbackState in
  run = (Return "from-env", snd run) /\
  cache (snd run) !! "t:vault:K" = Some {| value := "from-env"; timestamp := 5 |} /\
  calls (snd run) = [("VaultSource", "K"); ("EnvSource", "K")].
Proof.
  pose proof (C1_first_success_wins now "t" "vault" "K" None
                fallbackState fallbackState
                (print (warnLine sealedVault "K" (newError "Vault is sealed"))
                   (called sealedVault "K" (world fallbackState) fallbackState))
                [sealedVault] [] envSource [newError "Vault is sealed"]
                "from-env" (world fallbackState)) as H.
  destruct H as (H1 & H2 & _ & H4 & _).
  - vm_compute. reflexivity.
  - vm_compute. reflexivity.
  - eapply failed_throw; [reflexivity | apply failed_nil].
  - vm_compute. reflexivity.
  - split; [exact H1 | split; [exact H2 | exact H4]].
Defined.

(** [env] and [file] both hold [K]; the placeholder declares [file]. *)
Lemma C2_declared_source_first_witness :
  fallbackChain (fun n => bool_decide (is_Some (sources bothState !! n))) "file"
  = ["file"; "env"] /\
  getOrderedSources (sources bothState) "file" = [fileTable; envSource] /\
  fst (resolvePlaceholder now "t" "file" "K" None bothState) = Return "from-file" /\
  calls (snd (resolvePlaceholder now "t" "file" "K" None bothState))
  = [("FileSource", "K")].
Proof.
  destruct (C2_declared_source_first now (sources bothState) "file")
    as (_ & _ & Hfile).
  split; [vm_compute; reflexivity|]. split; [vm_compute; reflexivity|].
  apply (Hfile "t" "K" None bothState bothState envSource fileTable
               "from-file" (world bothState));
    vm_compute; reflexivity.
Defined.

(** An entry whose age equals the TTL. *)
Lemma C3_cache_ttl_witness :
  resolvePlaceholder now "t" "env" "K" None agedState = (Return "stale", agedState).
Proof.
  destruct (C3_cache_ttl now "t" "env" "K" None agedState
              {| value := "stale"; timestamp := 0 |}) as (Hserved & _).
  - vm_compute. reflexivity.
  - apply Hserved. vm_compute. discriminate.
Defined.

(** C3 as stated fails: the entry of [agedState] has reached the TTL
    ([t - insertedAtTimestamp = ttl], so not [< ttl]), yet it is served,
    without a backend call, although [env] holds a fresh value. *)
Lemma C3_served_at_ttl_counterexample :
  cache agedState !! "t:env:K" = Some {| value := "stale"; timestamp := 0 |} /\
  now (world agedState) - 0 = cacheTimeout agedState /\
  ~ (now (world agedState) - 0 < cacheTimeout agedState) /\
  fst (getCachedValue now "t:env:K" agedState) = Return (Some "stale") /\
  fst (resolvePlaceholder now "t" "env" "K" None agedState) = Return "stale" /\
  calls (snd (resolvePlaceholder now "t" "env" "K" None agedState)) = [] /\
  resolve envSource "K" (world agedState) = (Return (RValue "fresh"), world agedState).
Proof.
  repeat split; try (vm_compute; reflexivity).
  vm_compute. discriminate.
Qed.

(** The second placeholder of the document has no value and no default. *)
Lemma C5_all_or_nothing_witness :
  exists m' cause st',
    resolveText now (VString "<a:env#TEST_VAR> and <b:env#NO_SUCH_VAR>") testState
    = (Throw (newError (requiredMessage m' cause)), st').
Proof.
  pose (doc := "<a:env#TEST_VAR> and <b:env#NO_SUCH_VAR>").
  pose (ms := matchAll placeholderRegex doc).
  destruct (C5_all_or_nothing now doc testState
              (firstn 1 ms) (nth 1 ms {| matched := ""; groups := ∅ |}) (skipn 2 ms))
    as (m' & cause & st' & _ & H).
  - vm_compute. reflexivity.
  - vm_compute. reflexivity.
  - intros text1 st1 Hpre. vm_compute in Hpre. inversion Hpre; subst.
    eexists. eexists. vm_compute. reflexivity.
  - exists m', cause, st'. exact H.
Defined.

(** The only registered source does not have the key. *)
Lemma C6_exhausted_chain_witness :
  resolvePlaceholder now "x" "env" "MISSING" (Some "fallback_value") testState
  = (Return "fallback_value",
     print (warnLine envSource "MISSING"
              (newError "EnvSource failed to resolve key 'MISSING': Environment variable 'MISSING' not found"))
           (called envSource "MISSING" (world testState) testState)) /\
  fst (resolvePlaceholder now "x" "env" "MISSING" None testState)
  = Throw (newError "Could not resolve placeholder for key 'MISSING' from source 'env'. Last error: EnvSource failed to resolve key 'MISSING': Environment variable 'MISSING' not found").
Proof.
  destruct (C6_exhausted_chain now "x" "env" "MISSING" testState testState
              (print (warnLine envSource "MISSING"
                 (newError "EnvSource failed to resolve key 'MISSING': Environment variable 'MISSING' not found"))
                 (called envSource "MISSING" (world testState) testState))
              [newError "EnvSource failed to resolve key 'MISSING': Environment variable 'MISSING' not found"])
    as (Hd & _ & _ & Hn).
  - vm_compute. reflexivity.
  - replace (getOrderedSources (sources testState) "env") with [envSource]
      by (vm_compute; reflexivity).
    eapply failed_throw; [vm_compute; reflexivity | apply failed_nil].
  - split; [apply Hd | rewrite Hn; reflexivity].
Defined.

Lemma C10_non_text_unchanged_witness :
  resolveText now (VNumber 42) testState = (Return (VNumber 42), testState).
Proof. apply (C10_non_text_unchanged now (VNumber 42) testState). auto. Defined.

(** *** C7: what reaches the console is not masked *)

Example mask_replaces_long_runs :
  maskSensitiveInfo ("permission denied for token " +:+ token)
  = "permission denied for token ****".
Proof. vm_compute. reflexivity. Qed.

(** C7 (the code departs from it): a step whose vault placeholder fails
    with an error text that embeds a 25-character token.  The reply to
    the host is masked, but the three console lines of the run, and the
    error [resolveText] throws to its caller, carry the token as it is. *)
Lemma C7_console_not_masked :
  let run := handleStepExecutionStarting now leakyStep leakyState in
  Nat.eqb (len token) 25 = true /\
  fst run
  = Return {| failed := true;
              errorMessage := Some "Parameter resolution failed: Failed to resolve required placeholder <t:vault#secret/data/app>: Could not resolve placeholder for key 'secret/data/app' from source 'vault'. Last error: permission denied for token ****" |} /\
  console (snd run)
  = ["Source VaultSource failed for key secret/data/app: permission denied for token ABCDEFGHIJKLMNOPQRSTUVWXY";
     "Failed to resolve placeholder <t:vault#secret/data/app>: Could not resolve placeholder for key 'secret/data/app' from source 'vault'. Last error: permission denied for token ABCDEFGHIJKLMNOPQRSTUVWXY";
     "Error resolving step parameters: Failed to resolve required placeholder <t:vault#secret/data/app>: Could not resolve placeholder for key 'secret/data/app' from source 'vault'. Last error: permission denied for token ABCDEFGHIJKLMNOPQRSTUVWXY"] /\
  forallb (occursIn token) (console (snd run)) = true /\
  fst (resolveText now (VString "login with <t:vault#secret/data/app>") leakyState)
  = Throw (newError "Failed to resolve required placeholder <t:vault#secret/data/app>: Could not resolve placeholder for key 'secret/data/app' from source 'vault'. Last error: permission denied for token ABCDEFGHIJKLMNOPQRSTUVWXY").
Proof. repeat split; vm_compute; reflexivity. Qed.

(** *** C8: [$] sequences of a value are expanded *)

(** C8 (the code departs from it): the resolved value [pa$$word] is
    substituted as [pa$word], and the value [a$&b] as [a], the
    placeholder itself, [b]. *)
Lemma C8_dollar_sequences_expanded :
  resolve envSource "PW" (world dollarState) = (Return (RValue "pa$$word"), world dollarState) /\
  fst (resolveText now (VString "password: <pw:env#PW>") dollarState)
  = Return (VString "password: pa$word") /\
  fst (resolveText now (VString "<x:env#AMP>") dollarState)
  = Return (VString "a<x:env#AMP>b").
Proof. repeat split; vm_compute; reflexivity. Qed.

(** *** C9 *)



(** With a writable output directory the same batch runs to its end. *)
Example batch_runs_to_end :
  let run := processSpecs (batchState []) in
  fst run = Return tt /\
  files (world (snd run)) !! "out/a.spec" = Some "* Login as <user:env#NO_SUCH_VAR>" /\
  files (world (snd run)) !! "out/b.spec" = Some "* Open home".
Proof. repeat split; vm_compute; reflexivity. Qed.

End Scenarios.

(** * Further properties *)

(** ** [split] and [join] *)

(** Literal prefixes of an append, pushed inwards. *)
Ltac norm_str :=
  repeat first
    [ progress change (String.append (String ?a ?s) ?t) with (String a (String.append s t))
    | progress change (String.append EmptyString ?t) with t ].

Section SplitFacts.
Import JsString JsSplit.

Lemma split_cons_sep (c : ascii) (s : string) :
  split c (String c s) = EmptyString :: split c s.
Proof.
  unfold split. cbn [splitParts]. destruct (splitParts c s) as [p ps].
  destruct (ascii_dec c c); [reflexivity|congruence].
Qed.

Lemma split_cons_other (c a : ascii) (s : string) :
  a <> c ->
  split c (String a s)
  = match split c s with
    | p :: ps => String a p :: ps
    | [] => []
    end.
Proof.
  intros Hne. unfold split. cbn [splitParts]. destruct (splitParts c s) as [p ps].
  destruct (ascii_dec a c); [congruence|reflexivity].
Qed.

Lemma split_nonempty (c : ascii) (s : string) : exists p ps, split c s = p :: ps.
Proof. unfold split. destruct (splitParts c s) as [p ps]. eauto. Qed.

(** A text without the separator is one part. *)
Lemma split_none (c : ascii) (s : string) :
  contains c s = false -> split c s = [s].
Proof.
  induction s as [|a s IH]; [reflexivity|].
  cbn [contains]. destruct (ascii_dec a c) as [|Hne]; [discriminate|]. intros H.
  rewrite (split_cons_other _ _ _ Hne), (IH H). reflexivity.
Qed.

(** The first part ends at the first separator. *)
Lemma split_app (c : ascii) (a rest : string) :
  contains c a = false ->
  split c (a +:+ String c rest) = a :: split c rest.
Proof.
  induction a as [|x a IH]; intros H.
  - apply split_cons_sep.
  - cbn [contains] in H. destruct (ascii_dec x c) as [|Hne]; [discriminate|].
    rewrite str_app_cons, (split_cons_other _ _ _ Hne), (IH H). reflexivity.
Qed.

(** No part holds the separator. *)
Lemma split_parts_clean (c : ascii) (s : string) :
  Forall (fun p => contains c p = false) (split c s).
Proof.
  induction s as [|a s IH].
  - repeat constructor.
  - destruct (ascii_dec a c) as [->|Hne].
    + rewrite split_cons_sep. by constructor.
    + rewrite (split_cons_other _ _ _ Hne).
      destruct (split c s) as [|p ps]; [constructor|].
      inversion IH; subst. constructor; [|assumption].
      cbn [contains]. by destruct (ascii_dec a c).
Qed.

(** Joining the parts of a split with the separator gives the text
    back. *)
Lemma join_split (c : ascii) (s : string) :
  joinWith (String c EmptyString) (split c s) = s.
Proof.
  induction s as [|a s IH]; [reflexivity|].
  destruct (ascii_dec a c) as [->|Hne].
  - rewrite split_cons_sep. destruct (split_nonempty c s) as (p & ps & E).
    rewrite E in *. cbn [joinWith]. cbn [joinWith] in IH. by rewrite IH.
  - rewrite (split_cons_other _ _ _ Hne).
    destruct (split_nonempty c s) as (p & ps & E). rewrite E in *.
    cbn [joinWith] in *. destruct ps; rewrite <- IH; reflexivity.
Qed.

End SplitFacts.

(** ** The key grammars of the adapters *)

Section KeyFacts.
Import JsString JsSplit Js.

Lemma orNull_nonempty (s : string) : s <> "" -> orNull (Some s) = Some s.
Proof. destruct s; [congruence|reflexivity]. Qed.

(** X1: [VaultSource.parseKey] reads the field up to the next colon:
    in [path:field:rest], with [path] and [field] free of colons and
    [field] not empty, the secret path is [path], the field is [field],
    and [rest] is dropped. *)
Theorem X1_vault_key_truncated (path f rest : string) :
  contains ":" path = false -> contains ":" f = false -> f <> "" ->
  VaultKey.parseKey (path +:+ ":" +:+ f +:+ ":" +:+ rest)
  = {| VaultKey.secretPath := path; VaultKey.field := Some f |}.
Proof.
  intros Hp Hf Hne. unfold VaultKey.parseKey.
  change (path +:+ ":" +:+ f +:+ ":" +:+ rest)
    with (path +:+ String ":" (f +:+ String ":" rest)).
  rewrite (split_app _ _ _ Hp), (split_app _ _ _ Hf).
  cbn [at_ nth_error default]. by rewrite orNull_nonempty.
Qed.

Lemma X1_vault_key_truncated_witness :
  VaultKey.parseKey "secret/app:db:password"
  = {| VaultKey.secretPath := "secret/app"; VaultKey.field := Some "db" |}.
Proof.
  apply (X1_vault_key_truncated "secret/app" "db" "password");
    (reflexivity || discriminate).
Defined.

(** X2: [FileSource.parseKey] does the same at [#]: in
    [file#path#rest] the file name is [file], the JSON path is [path],
    and [rest] is dropped; with nothing after the file name, or an empty
    path, there is no JSON path. *)
Theorem X2_file_key_truncated (file path rest : string) :
  contains "#" file = false -> contains "#" path = false -> path <> "" ->
  FileKey.parseKey (file +:+ "#" +:+ path +:+ "#" +:+ rest)
  = {| FileKey.filename := file; FileKey.jsonPath := Some path |}
  /\ FileKey.parseKey file = {| FileKey.filename := file; FileKey.jsonPath := None |}
  /\ FileKey.parseKey (file +:+ "#")
     = {| FileKey.filename := file; FileKey.jsonPath := None |}.
Proof.
  intros Hf Hp Hne. unfold FileKey.parseKey. repeat split.
  - change (file +:+ "#" +:+ path +:+ "#" +:+ rest)
      with (file +:+ String "#" (path +:+ String "#" rest)).
    rewrite (split_app _ _ _ Hf), (split_app _ _ _ Hp).
    cbn [at_ nth_error default]. by rewrite orNull_nonempty.
  - by rewrite (split_none _ _ Hf).
  - change (file +:+ "#") with (file +:+ String "#" "").
    by rewrite (split_app _ _ _ Hf).
Qed.

Lemma X2_file_key_truncated_witness :
  FileKey.parseKey "config.json#database#host"
  = {| FileKey.filename := "config.json"; FileKey.jsonPath := Some "database" |}.
Proof.
  apply (X2_file_key_truncated "config.json" "database" "host");
    (reflexivity || discriminate).
Defined.

(** The text of a resource name, with its namespace when there is one. *)
Lemma k8s_split_name (ns nm : string) :
  contains "/" ns = false -> contains "/" nm = false ->
  split "/" (ns +:+ "/" +:+ nm) = [ns; nm].
Proof.
  intros Hns Hnm. change (ns +:+ "/" +:+ nm) with (ns +:+ String "/" nm).
  by rewrite (split_app _ _ _ Hns), (split_none _ _ Hnm).
Qed.

Lemma contains_app (c : ascii) (a b : string) :
  contains c (a +:+ b) = contains c a || contains c b.
Proof.
  induction a as [|x a IH]; [reflexivity|].
  rewrite str_app_cons. cbn [contains]. by destruct (ascii_dec x c).
Qed.

(** X3: [K8sSource.parseKey] keeps a field whole, colons included: the
    key [type:name:field] gives back [type], [name] and [field] with no
    namespace, and [type:namespace/name:field] gives the namespace as
    well, for colon-free [type], [namespace] and [name] without [/]. *)
Theorem X3_k8s_key_round_trip (type name f : string) (ns : option string) :
  contains ":" type = false ->
  contains ":" name = false -> contains "/" name = false ->
  match ns with
  | Some n => contains ":" n = false /\ contains "/" n = false
  | None => True
  end ->
  K8sKey.parseKey
    (type +:+ ":"
       +:+ match ns with Some n => n +:+ "/" +:+ name | None => name end
       +:+ ":" +:+ f)
  = Return {| K8sKey.type := type; K8sKey.name := name;
              K8sKey.field := Some f; K8sKey.namespace := ns |}.
Proof.
  intros Ht Hn Hs Hns. unfold K8sKey.parseKey.
  set (nameText := match ns with Some n => n +:+ "/" +:+ name | None => name end).
  assert (contains ":" nameText = false) as Hnt.
  { subst nameText. destruct ns as [n|]; [|exact Hn].
    destruct Hns as [Hc _]. rewrite !contains_app, Hc, Hn. reflexivity. }
  change (type +:+ ":" +:+ nameText +:+ ":" +:+ f)
    with (type +:+ String ":" (nameText +:+ String ":" f)).
  rewrite (split_app _ _ _ Ht), (split_app _ _ _ Hnt).
  destruct (split_nonempty ":" f) as (p & ps & E).
  assert (joinWith ":" (split ":" f) = f) as Hj by apply join_split.
  rewrite E in *. cbn [length Nat.ltb Nat.leb at_ nth_error default from_option id skipn].
  rewrite Hj. subst nameText. destruct ns as [n|].
  - destruct Hns as [_ Hslash].
    replace (contains "/" (n +:+ "/" +:+ name)) with true.
    2:{ symmetry. rewrite !contains_app. cbn. by rewrite orb_true_r. }
    rewrite (k8s_split_name _ _ Hslash Hs). reflexivity.
  - by rewrite Hs.
Qed.

Lemma X3_k8s_key_round_trip_witness :
  K8sKey.parseKey "secret:prod/db-credentials:tls:key"
  = Return {| K8sKey.type := "secret"; K8sKey.name := "db-credentials";
              K8sKey.field := Some "tls:key"; K8sKey.namespace := Some "prod" |}.
Proof.
  apply (X3_k8s_key_round_trip "secret" "db-credentials" "tls:key" (Some "prod"));
    try reflexivity. split; reflexivity.
Defined.

(** A key with a colon splits into two parts or more. *)
Lemma split_two (key : string) :
  contains ":" key = true -> (2 <= length (split ":" key))%nat.
Proof.
  intros Hc. induction key as [|a key IH]; [discriminate|].
  cbn [contains] in Hc. destruct (ascii_dec a ":") as [->|Hne].
  - rewrite split_cons_sep. destruct (split_nonempty ":" key) as (p & ps & ->).
    simpl. lia.
  - rewrite (split_cons_other _ _ _ Hne).
    specialize (IH Hc). destruct (split ":" key) as [|p ps]; simpl in *; lia.
Qed.

(** X4: [K8sSource.parseKey] throws exactly for the keys without a
    colon, and then the error [Invalid key format. Expected 'type:name'
    or 'type:name:field', got: <key>]; every key with a colon is
    parsed. *)
Theorem X4_k8s_key_rejected (key : string) :
  (K8sKey.parseKey key
   = Throw (newError
              ("Invalid key format. Expected 'type:name' or 'type:name:field', got: "
                 +:+ key))
   <-> contains ":" key = false) /\
  ((exists p, K8sKey.parseKey key = Return p) <-> contains ":" key = true).
Proof.
  unfold K8sKey.parseKey. destruct (contains ":" key) eqn:Hc.
  - pose proof (split_two key Hc) as Hlen.
    destruct (Nat.ltb_spec (length (split ":" key)) 2); [lia|].
    split; split.
    + by destruct (contains "/" _).
    + discriminate.
    + reflexivity.
    + intros _. destruct (contains "/" _); eauto.
  - rewrite (split_none _ _ Hc). cbn [length Nat.ltb Nat.leb].
    split; split.
    + reflexivity.
    + reflexivity.
    + intros [p Hp]. discriminate Hp.
    + discriminate.
Qed.

(** A text with a colon is never 36 characters of the version class. *)
Lemma colon_not_version_id (versionPart : string) :
  contains ":" versionPart = true -> AwsKey.looksLikeVersionId versionPart = false.
Proof.
  intros Hc. unfold AwsKey.looksLikeVersionId. apply andb_false_iff. right.
  induction versionPart as [|a v IH]; [discriminate|].
  cbn [contains] in Hc. cbn [Regex.allIn]. destruct (ascii_dec a ":") as [->|_].
  - reflexivity.
  - rewrite (IH Hc). apply andb_false_r.
Qed.

(** X5: in [AwsSecretsSource.parseKey] a version followed by a field is
    never read as a version id: for [name@version:field] the version
    goes to [versionStage] and [versionId] stays [null], whatever the
    version looks like (a UUID included), because the UUID test is made
    on the text that still holds the field.  Without a field, a version
    of 36 characters of [[a-fA-F0-9-]] is a version id. *)
Theorem X5_aws_version_with_field (name version f : string) :
  contains "@" name = false ->
  contains "@" version = false -> contains ":" version = false ->
  contains "@" f = false -> contains ":" f = false ->
  AwsKey.parseKey (name +:+ "@" +:+ version +:+ ":" +:+ f)
  = {| AwsKey.secretName := name; AwsKey.field := Some f;
       AwsKey.versionId := None; AwsKey.versionStage := Some version |}
  /\ (AwsKey.looksLikeVersionId version = true ->
      AwsKey.parseKey (name +:+ "@" +:+ version)
      = {| AwsKey.secretName := name; AwsKey.field := None;
           AwsKey.versionId := Some version; AwsKey.versionStage := None |}).
Proof.
  intros Hn Hv Hvc Hf Hfc. split.
  - unfold AwsKey.parseKey.
    assert (contains "@" (version +:+ ":" +:+ f) = false) as Hvp.
    { rewrite !contains_app, Hv, Hf. reflexivity. }
    change (name +:+ "@" +:+ version +:+ ":" +:+ f)
      with (name +:+ String "@" (version +:+ ":" +:+ f)).
    rewrite (split_app _ _ _ Hn), (split_none _ _ Hvp).
    cbn [length Nat.ltb Nat.leb at_ nth_error default from_option id].
    assert (contains ":" (version +:+ ":" +:+ f) = true) as Hcolon.
    { rewrite !contains_app. cbn. by rewrite orb_true_r. }
    rewrite Hcolon, (colon_not_version_id _ Hcolon).
    change (version +:+ ":" +:+ f) with (version +:+ String ":" f).
    rewrite (split_app _ _ _ Hvc), (split_none _ _ Hfc). reflexivity.
  - intros Hid. unfold AwsKey.parseKey.
    change (name +:+ "@" +:+ version) with (name +:+ String "@" version).
    rewrite (split_app _ _ _ Hn), (split_none _ _ Hv).
    cbn [length Nat.ltb Nat.leb at_ nth_error default from_option id].
    rewrite Hvc, Hid, (split_none _ _ Hvc). reflexivity.
Qed.

Lemma X5_aws_version_with_field_witness :
  AwsKey.parseKey "db/creds@123e4567-e89b-12d3-a456-426614174000:password"
  = {| AwsKey.secretName := "db/creds"; AwsKey.field := Some "password";
       AwsKey.versionId := None;
       AwsKey.versionStage := Some "123e4567-e89b-12d3-a456-426614174000" |}
  /\ AwsKey.parseKey "db/creds@123e4567-e89b-12d3-a456-426614174000"
     = {| AwsKey.secretName := "db/creds"; AwsKey.field := None;
          AwsKey.versionId := Some "123e4567-e89b-12d3-a456-426614174000";
          AwsKey.versionStage := None |}.
Proof.
  destruct (X5_aws_version_with_field "db/creds"
              "123e4567-e89b-12d3-a456-426614174000" "password") as [H1 H2];
    try reflexivity.
  split; [exact H1 | apply H2; reflexivity].
Defined.

(** X6: without a version, [AwsSecretsSource.parseKey] splits at the
    first colon only: [name:field] gives the secret [name] and the whole
    [field], colons included. *)
Theorem X6_aws_field_kept_whole (name f : string) :
  contains "@" name = false -> contains ":" name = false ->
  contains "@" f = false ->
  AwsKey.parseKey (name +:+ ":" +:+ f)
  = {| AwsKey.secretName := name; AwsKey.field := Some f;
       AwsKey.versionId := None; AwsKey.versionStage := None |}.
Proof.
  intros Hn Hc Hf. unfold AwsKey.parseKey.
  assert (contains "@" (name +:+ ":" +:+ f) = false) as Hk.
  { rewrite !contains_app, Hn, Hf. reflexivity. }
  rewrite (split_none _ _ Hk). cbn [length Nat.ltb Nat.leb].
  change (name +:+ ":" +:+ f) with (name +:+ String ":" f).
  rewrite (split_app _ _ _ Hc).
  destruct (split_nonempty ":" f) as (p & ps & E).
  pose proof (join_split ":" f) as Hj. rewrite E in *.
  cbn [length Nat.ltb Nat.leb at_ nth_error default from_option id skipn].
  by rewrite Hj.
Qed.

Lemma X6_aws_field_kept_whole_witness :
  AwsKey.parseKey "db/creds:tls:key"
  = {| AwsKey.secretName := "db/creds"; AwsKey.field := Some "tls:key";
       AwsKey.versionId := None; AwsKey.versionStage := None |}.
Proof. apply (X6_aws_field_kept_whole "db/creds" "tls:key"); reflexivity. Defined.

(** X7: for the methods with a body ([POST], [PUT], [PATCH]),
    [HttpSource.parseKey] cuts the URL at its first colon: the parsed
    URL never holds a colon, so [POST:https://host/path:body] is sent
    to the URL [https]. *)
Theorem X7_http_body_url_no_colon {Json : Type} (jsonParse : string -> option Json)
    (key : string) :
  let p := HttpKey.parseKey jsonParse key in
  HttpKey.method p <> "GET" -> HttpKey.method p <> "DELETE" ->
  contains ":" (HttpKey.url p) = false.
Proof.
  intros p. subst p. unfold HttpKey.parseKey.
  set (method := default "GET" (HttpKey.methodPrefix key)).
  set (key1 := match HttpKey.methodPrefix key with
               | Some m => drop (len (m +:+ ":")) key
               | None => key
               end).
  set (parts := split "#" key1).
  set (key2 := if Nat.ltb 1 (length parts)
               then default "" (at_ parts 0) else key1).
  destruct (String.eqb_spec method "GET") as [Hg|Hg].
  { cbn [negb andb HttpKey.method]. intros H. by destruct H. }
  destruct (String.eqb_spec method "DELETE") as [Hd|Hd].
  { cbn [negb andb HttpKey.method]. intros _ H. by destruct H. }
  cbn [negb andb]. intros _ _.
  pose proof (split_parts_clean ":" key2) as Hclean.
  destruct (split_nonempty ":" key2) as (u & us & E). rewrite E in *.
  inversion Hclean; subst.
  destruct us as [|b bs]; cbn [length Nat.ltb Nat.leb HttpKey.url].
  - assert (contains ":" key2 = false) as Hk.
    { destruct (contains ":" key2) eqn:Hc; [|reflexivity]. exfalso.
      clear -E Hc. revert u E. induction key2 as [|a k IH]; intros u E; [discriminate|].
      cbn [contains] in Hc. destruct (ascii_dec a ":") as [->|Hne].
      - rewrite split_cons_sep in E.
        destruct (split_nonempty ":" k) as (p & ps & Ek). rewrite Ek in E.
        discriminate E.
      - rewrite (split_cons_other _ _ _ Hne) in E.
        destruct (split ":" k) as [|p [|q qs]] eqn:Ek; try discriminate E.
        by apply (IH Hc p). }
    exact Hk.
  - cbn. assumption.
Qed.

Lemma X7_http_body_url_no_colon_witness :
  HttpKey.url (HttpKey.parseKey (fun _ : string => @None unit)
                 "POST:https://api.example.com/login:user=admin") = "https"
  /\ contains ":" (HttpKey.url (HttpKey.parseKey (fun _ : string => @None unit)
                      "POST:https://api.example.com/login:user=admin")) = false.
Proof.
  split; [vm_compute; reflexivity|].
  apply (X7_http_body_url_no_colon (fun _ : string => @None unit)
           "POST:https://api.example.com/login:user=admin");
    vm_compute; discriminate.
Defined.

End KeyFacts.

(** ** EnvSource *)

Section EnvFacts.
Import JsString JsSplit Js EnvSource EnvSourceUtil.

Lemma startsWith_split (p s : string) :
  startsWith p s = true -> p +:+ drop (len p) s = s.
Proof.
  revert s. induction p as [|a p IH]; intros s H; [reflexivity|].
  destruct s as [|b s]; [discriminate|]. cbn [startsWith] in H.
  destruct (ascii_dec a b) as [->|]; [|discriminate].
  rewrite str_app_cons. cbn [len String.length drop]. f_equal. by apply IH.
Qed.

Lemma startsWith_app (p s : string) : startsWith p (p +:+ s) = true.
Proof.
  induction p as [|a p IH]; [reflexivity|].
  rewrite str_app_cons. cbn [startsWith]. by destruct (ascii_dec a a).
Qed.


(** X9: with no case transformation, what [listAvailable()] lists is
    what [resolve] finds: each entry names a variable of the
    environment that starts with the prefix, resolving the entry's
    [key] returns that variable's value, and [hasValue] tells whether
    the value is not empty; and every variable that starts with the
    prefix is listed. *)
Theorem X9_env_list_resolves (cfg : config) (processEnv : gmap string string) :
  transformCase cfg <> "upper" -> transformCase cfg <> "lower" ->
  (forall item, In item (listAvailable cfg processEnv) ->
     exists v,
       processEnv !! originalKey item = Some v /\
       originalKey item = prefix cfg +:+ key item /\
       resolve cfg processEnv (key item) = Return (RValue v) /\
       hasValue item = negb (Nat.eqb (len v) 0)) /\
  (forall k v, processEnv !! k = Some v -> startsWith (prefix cfg) k = true ->
     exists item, In item (listAvailable cfg processEnv) /\ originalKey item = k).
Proof.
  intros Hu Hl. unfold listAvailable. split.
  - intros item Hin. apply list_elem_of_In, list_elem_of_omap in Hin.
    destruct Hin as ([k v] & Hkv & Hitem). apply elem_of_map_to_list in Hkv.
    assert (Hkey : forall key', envKeyOf cfg key'
                   = if Nat.eqb (len (prefix cfg)) 0 then key' else prefix cfg +:+ key').
    { intros key'. unfold envKeyOf.
      destruct (decide (transformCase cfg = "upper")); [contradiction|].
      destruct (decide (transformCase cfg = "lower")); [contradiction|]. reflexivity. }
    destruct (Nat.eqb (len (prefix cfg)) 0) eqn:Hp.
    + cbn in Hitem. inversion Hitem; subst. cbn [key originalKey hasValue].
      pose proof Hp as Hp'. apply Nat.eqb_eq, len_zero in Hp'.
      exists v. repeat split; try assumption.
      * by rewrite Hp'.
      * unfold resolve. rewrite Hkey, ?Hp, Hkv. reflexivity.
    + cbn [orb] in Hitem. destruct (startsWith (prefix cfg) k) eqn:Hs; [|discriminate].
      inversion Hitem; subst. cbn [key originalKey hasValue].
      exists v. repeat split; try assumption.
      * symmetry. by apply startsWith_split.
      * unfold resolve. rewrite Hkey, ?Hp, (startsWith_split _ _ Hs), Hkv. reflexivity.
  - intros k v Hkv Hs.
    exists {| key := if Nat.eqb (len (prefix cfg)) 0 then k else drop (len (prefix cfg)) k;
              originalKey := k; hasValue := negb (Nat.eqb (len v) 0) |}.
    split; [|reflexivity]. apply list_elem_of_In, list_elem_of_omap.
    exists (k, v). split; [by apply elem_of_map_to_list|].
    cbn. rewrite Hs, orb_true_r. reflexivity.
Qed.

Lemma X9_env_list_resolves_witness :
  (forall item,
      In item (listAvailable {| prefix := "APP_"; transformCase := "none" |}
                 (list_to_map [("APP_USER", "admin"); ("HOME", "/root")])) ->
      exists v,
        (list_to_map [("APP_USER", "admin"); ("HOME", "/root")] : gmap string string)
          !! originalKey item = Some v /\
        originalKey item = "APP_" +:+ key item /\
        resolve {| prefix := "APP_"; transformCase := "none" |}
          (list_to_map [("APP_USER", "admin"); ("HOME", "/root")]) (key item)
        = Return (RValue v) /\
        hasValue item = negb (Nat.eqb (len v) 0)) /\
  (forall k v,
      (list_to_map [("APP_USER", "admin"); ("HOME", "/root")] : gmap string string)
        !! k = Some v ->
      startsWith "APP_" k = true ->
      exists item,
        In item (listAvailable {| prefix := "APP_"; transformCase := "none" |}
                   (list_to_map [("APP_USER", "admin"); ("HOME", "/root")])) /\
        originalKey item = k).
Proof.
  apply (X9_env_list_resolves {| prefix := "APP_"; transformCase := "none" |}
           (list_to_map [("APP_USER", "admin"); ("HOME", "/root")]));
    cbn; discriminate.
Defined.

End EnvFacts.

(** ** More on the text resolution engine *)

Section TextMore.
Import JsString Regex Grammar Js ParamResolver Document.

Context {World : Type}.
Variable now : World -> Z.

(** A match of the placeholder pattern starts at a [<]. *)
Lemma matchAt_placeholder_head (a : ascii) (s : string) :
  a <> "<"%char -> matchAt placeholderRegex (String a s) = None.
Proof.
  intros Hne. unfold matchAt, placeholderRegex. cbn [rmatch].
  destruct (ascii_dec "<" a) as [E|_]; [by subst|reflexivity].
Qed.

Lemma scan_no_placeholder (s : string) :
  contains "<" s = false -> forall skip, scan placeholderRegex skip s = [].
Proof.
  induction s as [|a s IH]; intros H skip.
  - destruct skip; reflexivity.
  - cbn [contains] in H. destruct (ascii_dec a "<") as [|Hne]; [discriminate|].
    cbn [scan]. destruct skip as [|n]; [|by apply IH].
    rewrite (matchAt_placeholder_head _ _ Hne). by apply IH.
Qed.

(** X10: a text without [<] holds no placeholder: [resolveText] returns
    it as it is and leaves the state alone (no cache access, no backend
    call, nothing on the console). *)
Theorem X10_plain_text_unchanged (s : string) (st : state World) :
  contains "<" s = false ->
  resolveText now (VString s) st = (Return (VString s), st).
Proof.
  intros H. rewrite resolveText_string. unfold matchAll.
  rewrite (scan_no_placeholder _ H). reflexivity.
Qed.

(** The walk over the sources never throws. *)
Lemma walk_returns chain key ck :
  forall le (st : state World),
    exists r st', walk now chain key ck le st = (Return r, st').
Proof.
  induction chain as [|src rest IH]; intros le st; [by eexists _, _|].
  destruct (resolve src key (world st)) as [[r|e] w] eqn:Hres.
  - destruct r as [| |v].
    + rewrite (walk_cons_absent _ _ _ _ _ _ _ _ _ Hres) by auto. apply IH.
    + rewrite (walk_cons_absent _ _ _ _ _ _ _ _ _ Hres) by auto. apply IH.
    + rewrite (walk_cons_value _ _ _ _ _ _ _ _ _ Hres). by eexists _, _.
  - rewrite (walk_cons_throw _ _ _ _ _ _ _ _ _ Hres). apply IH.
Qed.

(** With a default value [resolvePlaceholder] always returns. *)
Lemma resolvePlaceholder_default_returns name sourceType key d (st : state World) :
  exists v st', resolvePlaceholder now name sourceType key (Some d) st = (Return v, st').
Proof.
  unfold resolvePlaceholder. unfold bind at 1.
  destruct (getCachedValue now _ st) as [[[v|]|e] st0] eqn:Hc.
  - by eexists _, _.
  - unfold bind at 1. unfold registered. unfold bind at 1.
    destruct (walk_returns (getOrderedSources (sources st0) sourceType) key
                (cacheKeyOf name sourceType key) None st0) as (r & st' & Hw).
    rewrite Hw. destruct r; by eexists _, _.
  - unfold getCachedValue in Hc. destruct (cache st !! _); [|discriminate].
    destruct (_ >? _); discriminate.
Qed.

Lemma resolveLoop_defaults_return (ms : list rmatch_result) :
  Forall (fun m => is_Some (defaultValue (toPlaceholder m))) ms ->
  forall text (st : state World),
    exists t st', resolveLoop now ms text st = (Return t, st').
Proof.
  induction 1 as [|m ms [d Hd] _ IH]; intros text st; [by eexists _, _|].
  cbn [resolveLoop]. unfold bind at 1. unfold resolveMatch, tryCatch. unfold bind at 1.
  rewrite Hd.
  destruct (resolvePlaceholder_default_returns
              (name (toPlaceholder m)) (source (toPlaceholder m))
              (key (toPlaceholder m)) d st) as (v & st1 & Hv).
  rewrite Hv. apply IH.
Qed.

(** X11: a document in which every placeholder carries a default value
    always resolves: [resolveText] returns a text and never throws,
    whatever the sources do. *)
Theorem X11_defaults_never_throw (s : string) (st : state World) :
  Forall (fun m => is_Some (defaultValue (toPlaceholder m)))
    (matchAll placeholderRegex s) ->
  exists t st', resolveText now (VString s) st = (Return (VString t), st').
Proof.
  intros H. rewrite resolveText_string.
  destruct (resolveLoop_defaults_return _ H s st) as (t & st' & Hl).
  unfold bind. rewrite Hl. by eexists _, _.
Qed.

(** Two texts that agree up to the first separator. *)
Lemma app_sep_inj (c : ascii) (a a' r r' : string) :
  contains c a = false -> contains c a' = false ->
  a +:+ String c r = a' +:+ String c r' -> a = a' /\ r = r'.
Proof.
  revert a'. induction a as [|x a IH]; intros [|x' a'] Ha Ha' E.
  - inversion E. by split.
  - rewrite str_app_cons in E. change ("" +:+ String c r) with (String c r) in E.
    inversion E; subst. cbn [contains] in Ha'.
    destruct (ascii_dec x' x'); [discriminate|congruence].
  - rewrite str_app_cons in E. change ("" +:+ String c r') with (String c r') in E.
    inversion E; subst. cbn [contains] in Ha.
    destruct (ascii_dec c c); [discriminate|congruence].
  - rewrite !str_app_cons in E. inversion E; subst.
    cbn [contains] in Ha, Ha'.
    destruct (ascii_dec x' c); [discriminate|].
    destruct (IH a' Ha Ha' H1) as [-> ->]. by split.
Qed.

(** X12: the cache key [name:source:key] identifies the placeholder when
    name and source hold no colon (as the six registered source names
    do): equal cache keys then mean equal name, source and key.  A
    source text with a colon breaks this: [(name, s:x, key)] and
    [(name, s, x:key)] share one cache key. *)
Theorem X12_cache_key_injective (name source key name' source' key' : string) :
  contains ":" name = false -> contains ":" source = false ->
  contains ":" name' = false -> contains ":" source' = false ->
  (cacheKeyOf name source key = cacheKeyOf name' source' key'
   <-> name = name' /\ source = source' /\ key = key') /\
  (forall x, cacheKeyOf name (source +:+ ":" +:+ x) key
             = cacheKeyOf name source (x +:+ ":" +:+ key)) /\
  (forall x dflt (st : state World) e,
      cache st !! cacheKeyOf name (source +:+ ":" +:+ x) key = Some e ->
      now (world st) - timestamp e <= cacheTimeout st ->
      resolvePlaceholder now name source (x +:+ ":" +:+ key) dflt st
      = (Return (value e), st)).
Proof.
  intros Hn Hs Hn' Hs'.
  assert (Hshare : forall x, cacheKeyOf name (source +:+ ":" +:+ x) key
                             = cacheKeyOf name source (x +:+ ":" +:+ key)).
  { intros x. unfold cacheKeyOf. f_equal. f_equal. rewrite !app_assoc_str. reflexivity. }
  split; [|split; [exact Hshare|]].
  2:{ intros x dflt st e He Hle. apply resolvePlaceholder_hit; [|exact Hle].
      by rewrite <- Hshare. }
  split.
  - unfold cacheKeyOf. intros E.
      change (name +:+ ":" +:+ source +:+ ":" +:+ key)
        with (name +:+ String ":" (source +:+ String ":" key)) in E.
      change (name' +:+ ":" +:+ source' +:+ ":" +:+ key')
        with (name' +:+ String ":" (source' +:+ String ":" key')) in E.
      destruct (app_sep_inj _ _ _ _ _ Hn Hn' E) as [-> E'].
      destruct (app_sep_inj _ _ _ _ _ Hs Hs' E') as [-> ->]. by repeat split.
  - intros (-> & -> & ->). reflexivity.
Qed.

(** *** A document with one placeholder *)

Lemma rmatch_tail_then (d : option string) (post : string) (c : captures) (k : cont) res :
  match d with Some ds => ds <> "" /\ contains ">" ds = false | None => True end ->
  k post (withDefault d c) = Some res ->
  rmatch tailRegex (tailText d +:+ post) c k = Some res.
Proof.
  intros Hd Hk. unfold tailRegex. destruct d as [ds|]; cbn [tailText withDefault] in *.
  - destruct Hd as [Hne Hgt].
    replace (("|" +:+ ds +:+ ">") +:+ post) with (String "|" (ds +:+ String ">" post))
      by (norm_str; by rewrite app_assoc_str).
    cbn [rmatch]. destruct (ascii_dec "|" "|") as [_|]; [|congruence].
    erewrite (repClass_run _ ds (String ">" post));
      [ reflexivity | by apply allIn_1 | apply stopsAt_cons; by left
      | by apply nonempty_len | ].
    cbn beta.
    replace (len (String ">" post) =? len (String "|" (ds +:+ String ">" post)))%nat
      with false.
    2:{ symmetry. apply Nat.eqb_neq. pose proof (len_app ds (String ">" post)) as Hl.
        change (len (String "|" (ds +:+ String ">" post)))
          with (S (len (ds +:+ String ">" post))).
        rewrite Hl. lia. }
    destruct (ascii_dec ">" ">") as [_|]; [|congruence].
    rewrite (take_consumed_eq ds (String ">" post)) by reflexivity. exact Hk.
  - norm_str. cbn [rmatch].
    destruct (ascii_dec "|" ">") as [E|_]; [discriminate E|].
    destruct (ascii_dec ">" ">") as [_|]; [|congruence]. exact Hk.
Qed.

Lemma stopsAt_tail_then (d : option string) (post : string) :
  stopsAt (noneOf ["|"; ">"]%char) (tailText d +:+ post) = true.
Proof.
  destruct d; cbn [tailText]; norm_str.
  - apply stopsAt_cons. by left.
  - apply stopsAt_cons. right. by left.
Qed.

Lemma placeholderText_then name source key d post :
  placeholderText name source key d +:+ post
  = String "<" (name +:+ String ":" (source +:+ String "#"
                  (key +:+ (tailText d +:+ post)))).
Proof.
  unfold placeholderText.
  repeat (progress (rewrite ?app_assoc_str; norm_str)). reflexivity.
Qed.

(** The anchored match of a placeholder followed by any text. *)
Lemma matchAt_placeholder_then name source key (d : option string) (post : string) :
  validParts name source key ->
  match d with Some ds => ds <> "" /\ contains ">" ds = false | None => True end ->
  matchAt placeholderRegex (placeholderText name source key d +:+ post)
  = Some {| matched := placeholderText name source key d;
            groups := withDefault d
                        (<[3%nat := key]> (<[2%nat := source]> (<[1%nat := name]> ∅))) |}.
Proof.
  intros (Hn & Hn' & Hs & Hs' & Hk & Hk1 & Hk2) Hd.
  unfold matchAt.
  rewrite placeholderText_then.
  unfold placeholderRegex. fold tailRegex. cbn [rmatch].
  destruct (ascii_dec "<" "<") as [_|]; [|congruence].
  erewrite (repClass_run _ name (String ":" _));
    [ | by apply allIn_1 | apply stopsAt_cons; by left | by apply nonempty_len | ].
  2:{ cbn [rmatch].
      destruct (ascii_dec ":" ":") as [_|]; [|congruence].
      erewrite (repClass_run _ source (String "#" _));
        [ | by apply allIn_1 | apply stopsAt_cons; by left | by apply nonempty_len | ].
      2:{ cbn [rmatch].
          destruct (ascii_dec "#" "#") as [_|]; [|congruence].
          erewrite (repClass_run _ key (tailText d +:+ post));
            [ | by apply allIn_2 | apply stopsAt_tail_then | by apply nonempty_len | ].
          2:{ apply rmatch_tail_then; [exact Hd|reflexivity]. }
          reflexivity. }
      reflexivity. }
  cbn beta iota.
  rewrite <- (placeholderText_then name source key d post).
  rewrite (take_consumed_eq (placeholderText name source key d) post) by reflexivity.
  rewrite (take_consumed_eq key (tailText d +:+ post)) by reflexivity.
  rewrite (take_consumed_eq source (String "#" (key +:+ (tailText d +:+ post))))
    by reflexivity.
  rewrite (take_consumed_eq name
             (String ":" (source +:+ String "#" (key +:+ (tailText d +:+ post)))))
    by reflexivity.
  reflexivity.
Qed.

Lemma placeholderText_create name source key (d : defaultArg) :
  createPlaceholder name source key d
  = placeholderText name source key (parsedDefault d).
Proof. apply createPlaceholder_tail. Qed.

Lemma scan_skip (r : regex) (u rest : string) :
  scan r (len u) (u +:+ rest) = scan r O rest.
Proof. induction u as [|a u IH]; [reflexivity|]. rewrite str_app_cons. exact IH. Qed.

Lemma scan_before (pre rest : string) :
  contains "<" pre = false ->
  scan placeholderRegex O (pre +:+ rest) = scan placeholderRegex O rest.
Proof.
  induction pre as [|a pre IH]; intros H; [reflexivity|].
  cbn [contains] in H. destruct (ascii_dec a "<") as [|Hne]; [discriminate|].
  rewrite str_app_cons. cbn [scan].
  rewrite (matchAt_placeholder_head _ _ Hne). by apply IH.
Qed.

(** The only match in a document with one placeholder and no other
    [<]. *)
Lemma matchAll_single name source key (d : option string) (pre post : string) :
  validParts name source key ->
  match d with Some ds => ds <> "" /\ contains ">" ds = false | None => True end ->
  contains "<" pre = false -> contains "<" post = false ->
  matchAll placeholderRegex (pre +:+ placeholderText name source key d +:+ post)
  = [ {| matched := placeholderText name source key d;
         groups := withDefault d
                     (<[3%nat := key]> (<[2%nat := source]> (<[1%nat := name]> ∅))) |} ].
Proof.
  intros Hv Hd Hpre Hpost. unfold matchAll. rewrite (scan_before _ _ Hpre).
  pose proof (matchAt_placeholder_then name source key d post Hv Hd) as Hm.
  rewrite placeholderText_then in *. cbn [scan]. rewrite Hm. cbn [matched].
  f_equal.
  replace (Nat.pred (len (placeholderText name source key d)))
    with (len (name +:+ String ":" (source +:+ String "#" (key +:+ tailText d)))).
  2:{ unfold placeholderText. norm_str. reflexivity. }
  replace (name +:+ String ":" (source +:+ String "#" (key +:+ (tailText d +:+ post))))
    with ((name +:+ String ":" (source +:+ String "#" (key +:+ tailText d))) +:+ post).
  2:{ repeat (progress (rewrite ?app_assoc_str; norm_str)). reflexivity. }
  rewrite scan_skip. by apply scan_no_placeholder.
Qed.

Lemma splitFirst_at (c : ascii) (pat' pre post : string) :
  contains c pre = false ->
  splitFirst (String c pat') (pre +:+ String c pat' +:+ post) = Some (pre, post).
Proof.
  intros H. induction pre as [|a pre IH].
  - change ("" +:+ String c pat' +:+ post) with (String c pat' +:+ post).
    destruct (String c pat' +:+ post) eqn:E; [discriminate E|].
    rewrite <- E. cbn [splitFirst].
    assert (startsWith (String c pat') (String c pat' +:+ post) = true) as Hs.
    { clear. generalize (String c pat'). intros p.
      induction p as [|x p IH]; [reflexivity|].
      rewrite str_app_cons. cbn [startsWith]. by destruct (ascii_dec x x). }
    rewrite E in *. cbn [splitFirst]. rewrite Hs. rewrite <- E. by rewrite drop_app.
  - cbn [contains] in H. destruct (ascii_dec a c) as [|Hne]; [discriminate|].
    rewrite str_app_cons. cbn [splitFirst startsWith].
    destruct (ascii_dec c a) as [E|_]; [by subst|].
    by rewrite (IH H).
Qed.

(** X13: a document with one placeholder and no other [<]: when the
    placeholder resolves to a value without [$], [resolveText] returns
    the document with the placeholder replaced by that value, in the
    state the resolution of the placeholder leaves. *)
Theorem X13_single_placeholder_resolved name source key (d : defaultArg)
    (pre post v : string) (st st' : state World) :
  validParts name source key -> validDefault true d ->
  contains "<" pre = false -> contains "<" post = false ->
  resolvePlaceholder now name source key (parsedDefault d) st = (Return v, st') ->
  contains "$" v = false ->
  resolveText now (VString (pre +:+ createPlaceholder name source key d +:+ post)) st
  = (Return (VString (pre +:+ v +:+ post)), st').
Proof.
  intros Hv Hd Hpre Hpost Hres Hval.
  assert (Hd' : match parsedDefault d with
                | Some ds => ds <> "" /\ contains ">" ds = false
                | None => True
                end) by (destruct d; simpl in *; intuition).
  rewrite resolveText_string, placeholderText_create.
  rewrite (matchAll_single _ _ _ _ _ _ Hv Hd' Hpre Hpost).
  cbn [resolveLoop]. unfold bind at 1 2.
  unfold resolveMatch, tryCatch, bind at 1.
  assert (Hp : toPlaceholder
                 {| matched := placeholderText name source key (parsedDefault d);
                    groups := withDefault (parsedDefault d)
                                (<[3%nat := key]> (<[2%nat := source]>
                                   (<[1%nat := name]> ∅))) |}
               = {| Grammar.name := name; Grammar.source := source; Grammar.key := key;
                    defaultValue := parsedDefault d |}).
  { unfold toPlaceholder, groupOr, group. cbn [groups].
    destruct d as [| |ds]; cbn [parsedDefault withDefault]; by simplify_map_eq. }
  rewrite Hp. cbn [Grammar.name Grammar.source Grammar.key defaultValue matched].
  rewrite Hres. unfold ret. f_equal. f_equal.
  unfold replace.
  assert (Hsplit : splitFirst (placeholderText name source key (parsedDefault d))
                     (pre +:+ placeholderText name source key (parsedDefault d) +:+ post)
                   = Some (pre, post)).
  { unfold placeholderText at 1 2. norm_str.
    apply (splitFirst_at "<" _ pre post Hpre). }
  rewrite Hsplit. by rewrite getSubstitution_plain.
Qed.

End TextMore.

(** ** Scenarios of the text engine *)

Section TextScenarios.
Import JsString Regex Grammar Js ParamResolver Demo Scenario.

Lemma X10_plain_text_unchanged_witness :
  resolveText now (VString "* Open the home page") testState
  = (Return (VString "* Open the home page"), testState).
Proof. apply (X10_plain_text_unchanged now "* Open the home page" testState). reflexivity. Defined.

Lemma X11_defaults_never_throw_witness :
  exists t st',
    resolveText now (VString "* Open <page:env#PAGE|home> as <u:vault#app:user|guest>")
      testState
    = (Return (VString t), st').
Proof.
  apply (X11_defaults_never_throw now
           "* Open <page:env#PAGE|home> as <u:vault#app:user|guest>" testState).
  vm_compute. repeat constructor; eexists; reflexivity.
Defined.

Lemma X12_cache_key_injective_witness :
  (cacheKeyOf "t" "env" "K" = cacheKeyOf "u" "file" "K:x"
   <-> "t" = "u" /\ "env" = "file" /\ "K" = "K:x") /\
  (forall x, cacheKeyOf "t" ("env" +:+ ":" +:+ x) "K"
             = cacheKeyOf "t" "env" (x +:+ ":" +:+ "K")) /\
  (forall x dflt (st : state demoWorld) e,
      cache st !! cacheKeyOf "t" ("env" +:+ ":" +:+ x) "K" = Some e ->
      now (world st) - timestamp e <= cacheTimeout st ->
      resolvePlaceholder now "t" "env" (x +:+ ":" +:+ "K") dflt st
      = (Return (value e), st)).
Proof.
  apply (X12_cache_key_injective now "t" "env" "K" "u" "file" "K:x"); reflexivity.
Defined.

Lemma X13_single_placeholder_resolved_witness :
  resolveText now (VString "* Login as <user:env#TEST_VAR> now") testState
  = (Return (VString "* Login as test_value now"),
     snd (resolvePlaceholder now "user" "env" "TEST_VAR" None testState)).
Proof.
  apply (X13_single_placeholder_resolved now "user" "env" "TEST_VAR" DUndefined
           "* Login as " " now" "test_value" testState).
  - repeat split; (discriminate || reflexivity).
  - exact I.
  - reflexivity.
  - reflexivity.
  - vm_compute. reflexivity.
  - reflexivity.
Defined.

End TextScenarios.

(** ** The shape of a match *)

Section MatchShape.
Import JsString Regex Grammar Document.

Lemma repClass_sound cl (s : string) : forall min k res,
  repClass cl min s k = Some res ->
  exists u s', s = u +:+ s' /\ allIn cl u = true /\ (min <= len u)%nat
               /\ k s' = Some res.
Proof.
  induction s as [|a s IH]; intros min k res H.
  - cbn [repClass] in H. destruct min; [|discriminate].
    exists "", "". by repeat split.
  - cbn [repClass] in H.
    assert (Hstop : match min with O => k (String a s) | S _ => None end = Some res ->
                    exists u s', String a s = u +:+ s' /\ allIn cl u = true
                                 /\ (min <= len u)%nat /\ k s' = Some res).
    { destruct min; [|discriminate]. intros Hk.
      exists "", (String a s). by repeat split. }
    destruct (classMatches cl a) eqn:Ha; [|by apply Hstop].
    destruct (repClass cl (Nat.pred min) s k) eqn:E; [|by apply Hstop].
    injection H as <-. apply IH in E as (u & s' & -> & Hu & Hm & Hk).
    exists (String a u), s'. split; [reflexivity|]. split; [cbn; by rewrite Ha|].
    split; [unfold len in *; cbn; lia|done].
Qed.

Lemma allIn_contains (cs : list ascii) (c : ascii) (u : string) :
  allIn (noneOf cs) u = true -> In c cs -> contains c u = false.
Proof.
  intros H Hin. induction u as [|a u IH]; [reflexivity|].
  cbn [allIn] in H. apply andb_true_iff in H as [Ha Hu].
  cbn [contains]. destruct (ascii_dec a c) as [->|_]; [|by apply IH].
  apply noneOf_matches in Ha. contradiction.
Qed.

Lemma len_nonempty (u : string) : (1 <= len u)%nat -> u <> "".
Proof. destruct u; [unfold len; simpl; lia|discriminate]. Qed.

(** What the optional default and the closing [>] consume. *)
Lemma rmatch_tail_sound (s s' : string) (c c' : captures) :
  rmatch tailRegex s c (fun s' c => Some (s', c)) = Some (s', c') ->
  exists d, s = tailText d +:+ s' /\ c' = withDefault d c /\
            match d with
            | Some ds => ds <> "" /\ contains ">" ds = false
            | None => True
            end.
Proof.
  unfold tailRegex. cbn [rmatch]. intros H.
  match type of H with
  | match ?x with _ => _ end = _ => destruct x as [res|] eqn:E
  end.
  - injection H as ->. destruct s as [|a s]; [discriminate|].
    destruct (ascii_dec "|" a) as [<-|]; [|discriminate].
    apply repClass_sound in E as (ds & s2 & -> & Hds & Hlen & E).
    destruct (Nat.eqb _ _); [discriminate|].
    destruct s2 as [|b s2]; [discriminate|].
    destruct (ascii_dec ">" b) as [<-|]; [|discriminate].
    injection E as E1 E2. subst s' c'. exists (Some ds). split; [|split].
    + cbn [tailText]. norm_str. rewrite app_assoc_str. by norm_str.
    + cbn [withDefault]. f_equal.
      apply (take_consumed_eq ds (String ">" s2)). reflexivity.
    + split; [by apply len_nonempty|]. apply (allIn_contains _ _ _ Hds). by left.
  - destruct s as [|b s]; [discriminate|].
    destruct (ascii_dec ">" b) as [<-|]; [|discriminate].
    injection H as E1 E2. subst s' c'. by exists None.
Qed.

Lemma rmatch_placeholder_sound (s s' : string) (c : captures) :
  rmatch placeholderRegex s ∅ (fun s' c => Some (s', c)) = Some (s', c) ->
  exists name source key d,
    s = placeholderText name source key d +:+ s' /\
    c = withDefault d (<[3%nat := key]> (<[2%nat := source]> (<[1%nat := name]> ∅))) /\
    validParts name source key /\
    match d with
    | Some ds => ds <> "" /\ contains ">" ds = false
    | None => True
    end.
Proof.
  unfold placeholderRegex. fold tailRegex. cbn [rmatch]. intros H.
  destruct s as [|a s]; [discriminate|].
  destruct (ascii_dec "<" a) as [<-|]; [|discriminate].
  apply repClass_sound in H as (name & s1 & -> & Hname & Hn & H).
  destruct s1 as [|a s1]; [discriminate|].
  destruct (ascii_dec ":" a) as [<-|]; [|discriminate].
  apply repClass_sound in H as (source & s2 & -> & Hsource & Hs & H).
  destruct s2 as [|a s2]; [discriminate|].
  destruct (ascii_dec "#" a) as [<-|]; [|discriminate].
  apply repClass_sound in H as (key & s3 & -> & Hkey & Hk & H).
  apply rmatch_tail_sound in H as (d & -> & -> & Hd).
  exists name, source, key, d. split; [|split; [|split]].
  - unfold placeholderText. repeat (progress (rewrite ?app_assoc_str; norm_str)).
    reflexivity.
  - rewrite (take_consumed_eq key (tailText d +:+ s')) by reflexivity.
    rewrite (take_consumed_eq source (String "#" (key +:+ (tailText d +:+ s'))))
      by reflexivity.
    rewrite (take_consumed_eq name
               (String ":" (source +:+ String "#" (key +:+ (tailText d +:+ s')))))
      by reflexivity.
    reflexivity.
  - unfold validParts. repeat split; try by apply len_nonempty.
    + apply (allIn_contains _ _ _ Hname). by left.
    + apply (allIn_contains _ _ _ Hsource). by left.
    + apply (allIn_contains _ _ _ Hkey). by left.
    + apply (allIn_contains _ _ _ Hkey). right. by left.
  - exact Hd.
Qed.

(** A match of the placeholder pattern is a placeholder in its
    serialized form, with parts that obey the grammar. *)
Lemma matchAt_placeholder_sound (s : string) (m : rmatch_result) :
  matchAt placeholderRegex s = Some m ->
  exists name source key d rest,
    s = placeholderText name source key d +:+ rest /\
    m = {| matched := placeholderText name source key d;
           groups := withDefault d
                       (<[3%nat := key]> (<[2%nat := source]> (<[1%nat := name]> ∅))) |} /\
    validParts name source key /\
    match d with
    | Some ds => ds <> "" /\ contains ">" ds = false
    | None => True
    end.
Proof.
  unfold matchAt. intros H.
  destruct (rmatch placeholderRegex s ∅ _) as [[s' c]|] eqn:E; [|discriminate].
  injection H as <-.
  apply rmatch_placeholder_sound in E as (name & source & key & d & -> & -> & Hv & Hd).
  exists name, source, key, d, s'. split; [reflexivity|]. split; [|by split].
  f_equal. by apply take_consumed_eq.
Qed.

Lemma exec_sound (r : regex) (s : string) (m : rmatch_result) :
  exec r s = Some m -> exists pre rest, s = pre +:+ rest /\ matchAt r rest = Some m.
Proof.
  induction s as [|a s IH]; intros H.
  - cbn [exec] in H. exists "", "". split; [reflexivity|].
    by destruct (matchAt r "").
  - cbn [exec] in H. destruct (matchAt r (String a s)) eqn:E.
    + injection H as ->. by exists "", (String a s).
    + apply IH in H as (pre & rest & -> & Hm). by exists (String a pre), rest.
Qed.

Lemma toPlaceholder_groups name source key (d : option string) (t : string) :
  toPlaceholder
    {| matched := t;
       groups := withDefault d
                   (<[3%nat := key]> (<[2%nat := source]> (<[1%nat := name]> ∅))) |}
  = {| Grammar.name := name; Grammar.source := source; Grammar.key := key;
       defaultValue := d |}.
Proof.
  unfold toPlaceholder, groupOr, group. cbn [groups].
  destruct d; cbn [withDefault]; by simplify_map_eq.
Qed.

Lemma placeholderText_asArgument name source key (d : option string) :
  createPlaceholder name source key (asArgument d) = placeholderText name source key d.
Proof. rewrite createPlaceholder_tail. by destruct d. Qed.

(** X14: what [parsePlaceholder] accepts.  When it returns a record,
    the text holds a placeholder in serialized form, which is
    [createPlaceholder] of the record's fields (text around it is
    ignored); the fields obey the grammar: name, source and key are not
    empty, the name has no [:], the source no [#], the key no [|] and no
    [>], and a default is not empty and has no [>]; and parsing that
    serialized form gives the same record again. *)
Theorem X14_parsed_placeholder_canonical (t : string) (p : placeholder) :
  parsePlaceholder t = inr p ->
  validParts (name p) (source p) (key p) /\
  validDefault true (asArgument (defaultValue p)) /\
  (exists pre post,
      t = pre +:+ createPlaceholder (name p) (source p) (key p)
                    (asArgument (defaultValue p)) +:+ post) /\
  parsePlaceholder
    (createPlaceholder (name p) (source p) (key p) (asArgument (defaultValue p)))
  = inr p.
Proof.
  unfold parsePlaceholder at 1. intros H.
  destruct (exec placeholderRegex t) as [m|] eqn:E; [|discriminate].
  injection H as <-.
  apply exec_sound in E as (pre & rest & -> & E).
  apply matchAt_placeholder_sound in E
    as (name & source & key & d & post & -> & -> & Hv & Hd).
  rewrite toPlaceholder_groups.
  cbn [Grammar.name Grammar.source Grammar.key defaultValue].
  rewrite placeholderText_asArgument.
  split; [exact Hv|]. split; [|split].
  - destruct d as [ds|]; cbn [asArgument validDefault]; [|exact I].
    destruct Hd. by split.
  - by exists pre, post.
  - unfold parsePlaceholder.
    pose proof (matchAt_serialized name source key d Hv Hd) as Hm.
    fold (placeholderText name source key d) in Hm.
    rewrite (exec_matchAt _ _ _ Hm). by rewrite toPlaceholder_groups.
Qed.

End MatchShape.

Section MatchScenarios.
Import JsString Regex Grammar Document.

Lemma X14_parsed_placeholder_canonical_witness :
  validParts "user" "env" "NAME" /\
  validDefault true (DString "guest") /\
  (exists pre post,
      "see <user:env#NAME|guest> here"
      = pre +:+ createPlaceholder "user" "env" "NAME" (DString "guest") +:+ post) /\
  parsePlaceholder (createPlaceholder "user" "env" "NAME" (DString "guest"))
  = inr {| name := "user"; source := "env"; key := "NAME";
           defaultValue := Some "guest" |}.
Proof.
  apply (X14_parsed_placeholder_canonical "see <user:env#NAME|guest> here"
           {| name := "user"; source := "env"; key := "NAME";
              defaultValue := Some "guest" |}).
  vm_compute. reflexivity.
Defined.

End MatchScenarios.

(** ** [findPlaceholders] *)

Section AnalysisFacts.
Import JsString JsSplit Regex Grammar Js ParamResolver Preprocessor Document Analysis.

Context {World : Type}.
Variable readFile : string -> World -> outcome string * World.

Lemma execLoop_scan (s : string) : forall skip index,
  map snd (execLoop placeholderRegex skip index s) = scan placeholderRegex skip s.
Proof.
  induction s as [|a s IH]; intros skip index.
  - by destruct skip.
  - cbn [execLoop scan]. destruct skip as [|n]; [|apply IH].
    destruct (matchAt placeholderRegex (String a s)) as [m|]; [|apply IH].
    cbn [map snd]. f_equal. apply IH.
Qed.

Lemma drop_next (index : nat) : forall (content : string) a s,
  drop index content = String a s -> drop (S index) content = s.
Proof.
  induction index as [|i IH]; intros content a s H.
  - cbn [drop] in H. by subst.
  - destruct content as [|b content]; [discriminate|].
    cbn [drop] in H. cbn [drop]. by apply (IH _ a).
Qed.

(** Every listed match is a match at its index. *)
Lemma execLoop_at (r : regex) (content : string) (s : string) : forall skip index,
  drop index content = s ->
  Forall (fun found => matchAt r (drop (fst found) content) = Some (snd found))
    (execLoop r skip index s).
Proof.
  induction s as [|a s IH]; intros skip index Hs; [constructor|].
  cbn [execLoop]. pose proof (drop_next _ _ _ _ Hs) as Hs'.
  destruct skip as [|n]; [|by apply IH].
  destruct (matchAt r (String a s)) as [m|] eqn:E; [|by apply IH].
  constructor; [|by apply IH]. cbn [fst snd]. by rewrite Hs.
Qed.

Lemma toOccurrence_sound (content : string) (found : nat * rmatch_result) :
  matchAt placeholderRegex (drop (fst found) content) = Some (snd found) ->
  let o := toOccurrence found in
  asPlaceholder o = toPlaceholder (snd found) /\
  substring (start (position o)) (end_ (position o)) content = fullMatch o /\
  fullMatch o
  = createPlaceholder (name o) (source o) (key o) (asArgument (defaultValue o)).
Proof.
  destruct found as [index m]. cbn [fst snd]. intros H.
  apply matchAt_placeholder_sound in H
    as (n & s & k & d & rest & Hc & -> & Hv & Hd).
  assert (Hor : orNull (withDefault d
                          (<[3%nat := k]> (<[2%nat := s]> (<[1%nat := n]> ∅))) !! 4%nat)
                = d).
  { destruct d as [ds|]; cbn [withDefault]; simplify_map_eq; [|reflexivity].
    destruct Hd as [Hne _]. by apply orNull_nonempty. }
  cbn zeta. unfold toOccurrence, asPlaceholder, substring, groupOr, group.
  cbn [fullMatch name source key defaultValue position start end_ matched groups].
  rewrite Hor. split; [|split].
  - rewrite toPlaceholder_groups. f_equal; destruct d; cbn [withDefault]; by simplify_map_eq.
  - rewrite Hc.
    replace (index + len (placeholderText n s k d) - index)%nat
      with (len (placeholderText n s k d)) by lia.
    apply take_app.
  - rewrite placeholderText_asArgument.
    f_equal; destruct d; cbn [withDefault]; by simplify_map_eq.
Qed.

(** X15: [findPlaceholders] on a readable file lists the placeholders
    that [resolveText] resolves in its content, in the same order and
    with the same name, source, key and default; each entry's position
    cuts its [fullMatch] out of the content, and the [fullMatch] is
    [createPlaceholder] of the entry's fields.  Only the read acts on
    the world. *)
Theorem X15_findPlaceholders_agrees (filePath content : string)
    (st : state World) (w : World) :
  readFile filePath (world st) = (Return content, w) ->
  exists found,
    findPlaceholders readFile filePath st = (Return found, setWorld w st) /\
    map asPlaceholder found = map toPlaceholder (matchAll placeholderRegex content) /\
    Forall
      (fun o =>
         substring (start (position o)) (end_ (position o)) content = fullMatch o /\
         fullMatch o
         = createPlaceholder (name o) (source o) (key o) (asArgument (defaultValue o)))
      found.
Proof.
  intros Hread.
  exists (map toOccurrence (execLoop placeholderRegex 0 0 content)).
  split; [|split].
  - unfold findPlaceholders, tryCatch, bind, io, ret. by rewrite Hread.
  - unfold matchAll. rewrite <- (execLoop_scan content O O).
    pose proof (execLoop_at placeholderRegex content content O O eq_refl) as Hall.
    induction Hall as [|found l Hm _ IH]; [reflexivity|].
    cbn [map]. f_equal; [|exact IH].
    by destruct (toOccurrence_sound content found Hm) as [-> _].
  - pose proof (execLoop_at placeholderRegex content content O O eq_refl) as Hall.
    induction Hall as [|found l Hm _ IH]; [constructor|].
    cbn [map]. constructor; [|exact IH].
    by destruct (toOccurrence_sound content found Hm) as (_ & ? & ?).
Qed.

End AnalysisFacts.

(** ** Validation *)

Section ValidationFacts.
Import JsString JsSplit Regex Grammar Js ParamResolver Preprocessor Analysis.

Context {World : Type}.
Variable now : World -> Z.
Variable join : string -> string -> string.
Variable extname : string -> string.
Variable readFile : string -> World -> outcome string * World.

(** Induction on a listing, through the entries of its directories. *)
Lemma dirTree_induction (P : dirTree -> Prop) :
  (forall e, P (Unreadable e)) ->
  (forall items,
      Forall (fun item : string * dirent =>
                match snd item with IsDirectory sub => P sub | _ => True end) items ->
      P (Entries items)) ->
  forall listing, P listing.
Proof.
  intros HU HE. fix IH 1. intros [e|items]; [apply HU|]. apply HE.
  induction items as [|[n d] items IHitems]; constructor; [|exact IHitems].
  destruct d as [|sub|]; cbn [snd]; [exact I|apply IH|exact I].
Qed.

Lemma accountsFor_refl (r : results) : accountsFor 0 0 r r.
Proof.
  unfold accountsFor. repeat split; try lia. exists []. by rewrite app_nil_r.
Qed.

Lemma accountsFor_trans (n u n' u' : nat) (r1 r2 r3 : results) :
  accountsFor n u r1 r2 -> accountsFor n' u' r2 r3 ->
  accountsFor (n + n') (u + u') r1 r3.
Proof.
  intros (H1 & H2 & H3 & [new1 H4] & H5) (H1' & H2' & H3' & [new2 H4'] & H5').
  unfold accountsFor. repeat split; try lia; try congruence.
  exists (new1 ++ new2). rewrite H4', H4. by rewrite <- app_assoc.
Qed.

(** A spec file is processed or reported; nothing is thrown. *)
Lemma validateSpecFile_accounts (filePath : string) (r : results) (st : state World) :
  exists r' st',
    validateSpecFile now readFile filePath (r, st) = (Return tt, (r', st')) /\
    accountsFor 0 1 r r'.
Proof.
  unfold validateSpecFile, tryCatch, bind, onResolver, onResults, log, io, ret.
  cbn [fst snd world print].
  destruct (readFile filePath _) as [[content|e] w].
  - destruct (resolveText now (VString content) _) as [[v|e] st'].
    + eexists _, _. split; [reflexivity|].
      unfold accountsFor, countProcessed. cbn. repeat split; try lia.
      exists []. by rewrite app_nil_r.
    + eexists _, _. split; [reflexivity|].
      unfold accountsFor, pushError. cbn. rewrite length_app. cbn.
      repeat split; try lia. by eexists.
  - eexists _, _. split; [reflexivity|].
    unfold accountsFor, pushError. cbn. rewrite length_app. cbn.
    repeat split; try lia. by eexists.
Qed.

Lemma validateDirectoryRecursive_accounts (listing : dirTree) :
  forall (currentDir : string) (r : results) (st : state World),
  exists r' st',
    validateDirectoryRecursive now join extname readFile listing currentDir (r, st)
    = (Return tt, (r', st')) /\
    accountsFor (specFileCount extname listing) (unreadableCount listing) r r'.
Proof.
  induction listing as [e|items IH] using dirTree_induction; intros currentDir r st.
  - cbn [validateDirectoryRecursive]. unfold tryCatch, throw, onResults.
    eexists _, _. split; [reflexivity|].
    unfold accountsFor, pushError. cbn. rewrite length_app. cbn.
    repeat split; try lia. by eexists.
  - cbn [validateDirectoryRecursive specFileCount unreadableCount].
    unfold tryCatch.
    match goal with
    | |- context [forEach ?body items] => set (body_ := body)
    end.
    enough (exists r' st',
               forEach body_ items (r, st) = (Return tt, (r', st')) /\
               accountsFor
                 (list_sum
                    (map (fun item : string * dirent =>
                            match snd item with
                            | IsFile => if isSpecFile extname (fst item) then 1%nat else O
                            | IsDirectory sub => specFileCount extname sub
                            | IsOther => O
                            end) items))
                 (list_sum
                    (map (fun item : string * dirent =>
                            match snd item with
                            | IsDirectory sub => unreadableCount sub
                            | IsFile | IsOther => O
                            end) items)) r r')
      as (r' & st' & -> & Hacc) by (by exists r', st').
    clear -IH. revert r st.
    induction IH as [|[n d] items Hd _ IHitems]; intros r st.
    + exists r, st. split; [reflexivity|]. apply accountsFor_refl.
    + cbn [forEach map list_sum fst snd]. unfold bind at 1.
      assert (Hitem : exists r1 st1,
                 body_ (n, d) (r, st) = (Return tt, (r1, st1)) /\
                 accountsFor
                   match d with
                   | IsFile => if isSpecFile extname n then 1%nat else O
                   | IsDirectory sub => specFileCount extname sub
                   | IsOther => O
                   end
                   match d with
                   | IsDirectory sub => unreadableCount sub
                   | IsFile | IsOther => O
                   end r r1).
      { subst body_. unfold validateItem. cbn [fst snd] in *.
        destruct d as [|sub|].
        - destruct (isSpecFile extname n).
          + unfold bind, onResults. cbn [fst snd].
            destruct (validateSpecFile_accounts (join currentDir n) (countFile r) st)
              as (r1 & st1 & -> & Hacc).
            exists r1, st1. split; [reflexivity|].
            destruct Hacc as (H1 & H2 & H3 & [new H4] & H5).
            unfold accountsFor, countFile in *. cbn in *.
            repeat split; try lia; try congruence. by exists new.
          + exists r, st. split; [reflexivity|]. apply accountsFor_refl.
        - apply Hd.
        - exists r, st. split; [reflexivity|]. apply accountsFor_refl. }
      destruct Hitem as (r1 & st1 & -> & Hacc1).
      destruct (IHitems r1 st1) as (r' & st' & -> & Hacc2).
      exists r', st'. split; [reflexivity|].
      by apply (accountsFor_trans _ _ _ _ r r1 r').
Qed.

(** X16: [validateDirectoryRecursive] never throws, and its results
    account for the whole listing: [totalFiles] grows by the number of
    spec files in it; every one of them is either counted in
    [processedFiles] or reported in [errors], where every directory
    that cannot be read is reported as well; entries already in
    [errors] stay, and [warnings] is never written. *)
Theorem X16_validation_accounts (listing : dirTree) (currentDir : string)
    (r : results) (st : state World) :
  exists r' st',
    validateDirectoryRecursive now join extname readFile listing currentDir (r, st)
    = (Return tt, (r', st')) /\
    totalFiles r' = (totalFiles r + specFileCount extname listing)%nat /\
    (processedFiles r' + length (errors r')
     = processedFiles r + length (errors r)
       + specFileCount extname listing + unreadableCount listing)%nat /\
    (processedFiles r <= processedFiles r')%nat /\
    (exists new, errors r' = errors r ++ new) /\
    warnings r' = warnings r.
Proof.
  destruct (validateDirectoryRecursive_accounts listing currentDir r st)
    as (r' & st' & H & Hacc).
  by exists r', st'.
Qed.

End ValidationFacts.

(** ** The life cycle *)

Section LifecycleFacts.
Import JsString JsSplit Js ParamResolver Preprocessor Plugin Analysis Lifecycle.

Context {World Options : Type}.
Variable now : World -> Z.
Variable readFile : string -> World -> outcome string * World.
Variable jsonParse : string -> outcome (option (configuration Options)).
Variable construct : string -> option Options -> World -> Adapter World.
Variable defaultOptions : string -> Options.

Abbreviation resolver := (Lifecycle.resolver World Options).

Lemma sameSetup_refl (r : resolver) : sameSetup r r.
Proof. by repeat split. Qed.

Lemma sameSetup_trans (r1 r2 r3 : resolver) :
  sameSetup r1 r2 -> sameSetup r2 r3 -> sameSetup r1 r3.
Proof.
  intros (H1 & H2 & H3 & H4 & H5 & H6) (H1' & H2' & H3' & H4' & H5' & H6').
  unfold sameSetup. repeat split; congruence.
Qed.

(** A loop whose body always returns, and keeps a preorder, does so
    too. *)
Lemma forEach_returns {S A : Type} (P : S -> S -> Prop) (body : A -> Eff S unit)
    (items : list A) :
  (forall s, P s s) -> (forall a b c, P a b -> P b c -> P a c) ->
  (forall item s, In item items -> exists s', body item s = (Return tt, s') /\ P s s') ->
  forall s, exists s', forEach body items s = (Return tt, s') /\ P s s'.
Proof.
  intros Hrefl Htrans. induction items as [|item items IH]; intros Hbody s.
  - exists s. by split.
  - cbn [forEach]. unfold bind.
    destruct (Hbody item s (or_introl eq_refl)) as (s1 & -> & H1).
    destruct (IH (fun i s Hin => Hbody i s (or_intror Hin)) s1) as (s2 & -> & H2).
    exists s2. split; [reflexivity|]. by apply (Htrans s s1 s2).
Qed.

Lemma logR_sameSetup (line : string) (r : resolver) :
  exists r', logR line r = (Return tt, r') /\ sameSetup r r'.
Proof. eexists. split; [reflexivity|]. by repeat split. Qed.

(** A call of a method of an adapter, guarded by a handler that logs. *)
Lemma guarded_call_sameSetup (f : World -> outcome unit * World)
    (line : Js.error -> string) (r : resolver) :
  exists r', tryCatch (call f) (fun e => logR (line e)) r = (Return tt, r')
             /\ sameSetup r r'.
Proof.
  unfold tryCatch, call, onEngine, io, logR, log.
  destruct (f (world (engine r))) as [[[]|e] w]; eexists; (split; [reflexivity|]);
    by repeat split.
Qed.

Lemma refreshOne_sameSetup (entry : string * Adapter World) (r : resolver) :
  exists r', refreshOne entry r = (Return tt, r') /\ sameSetup r r'.
Proof.
  destruct entry as [name source]. unfold refreshOne.
  destruct (srcRefreshCache source) as [f|].
  - apply guarded_call_sameSetup.
  - exists r. split; [reflexivity|apply sameSetup_refl].
Qed.

Lemma cleanupOne_sameSetup (entry : string * Adapter World) (r : resolver) :
  exists r', cleanupOne entry r = (Return tt, r') /\ sameSetup r r'.
Proof.
  destruct entry as [name source]. unfold cleanupOne.
  destruct (srcCleanup source) as [f|].
  - apply guarded_call_sameSetup.
  - exists r. split; [reflexivity|apply sameSetup_refl].
Qed.

Lemma refreshCaches_returns (r : resolver) :
  exists r',
    refreshCaches r = (Return tt, r') /\
    cache (engine r') = ∅ /\ registry r' = registry r /\
    sources (engine r') = sources (engine r) /\
    cacheTimeout (engine r') = cacheTimeout (engine r).
Proof.
  unfold refreshCaches, bind, clearCache.
  destruct (forEach_returns sameSetup refreshOne (registry (setEngine (setCache ∅ (engine r)) r))
              sameSetup_refl sameSetup_trans
              (fun item s _ => refreshOne_sameSetup item s)
              (setEngine (setCache ∅ (engine r)) r))
    as (r' & Hrun & H1 & H2 & H3 & H4 & H5 & H6).
  exists r'. split; [exact Hrun|]. by repeat split.
Qed.

Lemma cleanup_returns (r : resolver) :
  exists r',
    cleanup r = (Return tt, r') /\
    registry r' = [] /\ sources (engine r') = ∅ /\ cache (engine r') = ∅ /\
    cacheTimeout (engine r') = cacheTimeout (engine r).
Proof.
  unfold cleanup, bind, clearCache.
  destruct (forEach_returns sameSetup cleanupOne (registry (setEngine (setCache ∅ (engine r)) r))
              sameSetup_refl sameSetup_trans
              (fun item s _ => cleanupOne_sameSetup item s)
              (setEngine (setCache ∅ (engine r)) r))
    as (r' & Hrun & H1 & H2 & H3 & H4 & H5 & H6).
  rewrite Hrun. eexists. split; [reflexivity|]. by repeat split.
Qed.

(** X17: [handleSpecExecutionStarting] never reports a failure: the
    refresh of the caches cannot throw, whatever the [refreshCache] of
    an adapter does, so the reply [Failed to refresh caches: ...] is
    never sent.  The cache of the resolver is empty afterwards, and the
    registered sources and the time to live are as before. *)
Theorem X17_spec_start_refreshes (r : resolver) :
  exists r',
    handleSpecExecutionStarting r
    = (Return {| failed := false; errorMessage := None |}, r') /\
    cache (engine r') = ∅ /\ registry r' = registry r /\
    sources (engine r') = sources (engine r) /\
    cacheTimeout (engine r') = cacheTimeout (engine r).
Proof.
  destruct (refreshCaches_returns r) as (r' & Hrun & H).
  exists r'. split; [|exact H].
  unfold handleSpecExecutionStarting, tryCatch, bind. by rewrite Hrun.
Qed.

(** With no source and an empty cache, a placeholder resolves to its
    default, or not at all. *)
Lemma resolvePlaceholder_no_sources name sourceType key (st : state World) :
  sources st = ∅ -> cache st = ∅ ->
  resolvePlaceholder now name sourceType key None st
  = (Throw (newError
              ("Could not resolve placeholder for key '" +:+ key +:+ "' from source '"
                 +:+ sourceType +:+ "'. Last error: No sources available")), st) /\
  forall d, resolvePlaceholder now name sourceType key (Some d) st = (Return d, st).
Proof.
  intros Hs Hc.
  assert (Hmiss : getCachedValue now (cacheKeyOf name sourceType key) st
                  = (Return None, st)).
  { unfold getCachedValue. by rewrite Hc, lookup_empty. }
  assert (Hord : getOrderedSources (sources st) sourceType = []).
  { rewrite Hs. unfold getOrderedSources. rewrite lookup_empty.
    cbn. repeat case_bool_decide; by rewrite ?lookup_empty. }
  split; [|intros d]; rewrite (resolvePlaceholder_miss now _ _ _ _ _ _ Hmiss), Hord;
    reflexivity.
Qed.

(** X18: [handleExecutionEnding] always replies without failure, and
    leaves a resolver without sources and with an empty cache, whatever
    the [cleanup] of an adapter does.  From then on a placeholder
    without default cannot be resolved ([No sources available]) and one
    with a default resolves to its default. *)
Theorem X18_execution_end_cleans_up (r : resolver) :
  exists r',
    handleExecutionEnding r = (Return {| failed := false; errorMessage := None |}, r') /\
    registry r' = [] /\ sources (engine r') = ∅ /\ cache (engine r') = ∅ /\
    forall name sourceType key,
      resolvePlaceholder now name sourceType key None (engine r')
      = (Throw (newError
                  ("Could not resolve placeholder for key '" +:+ key
                     +:+ "' from source '" +:+ sourceType
                     +:+ "'. Last error: No sources available")), engine r') /\
      forall d, resolvePlaceholder now name sourceType key (Some d) (engine r')
                = (Return d, engine r').
Proof.
  destruct (cleanup_returns r) as (r' & Hrun & H1 & H2 & H3 & _).
  exists r'. split; [|repeat split; try assumption].
  - unfold handleExecutionEnding, tryCatch, bind. by rewrite Hrun.
  - by apply resolvePlaceholder_no_sources.
  - by apply resolvePlaceholder_no_sources.
Qed.

(** *** Loading the configuration *)


Lemma loadConfig_missing (r : resolver) (e : Js.error) (w : World) :
  readFile (configPath r) (world (engine r)) = (Throw e, w) ->
  code e = Some "ENOENT" ->
  exists r1,
    loadConfig readFile jsonParse defaultOptions r = (Return tt, r1) /\
    config r1 = Some (getDefaultConfig defaultOptions) /\ registry r1 = registry r /\
    sources (engine r1) = sources (engine r) /\
    cache (engine r1) = cache (engine r) /\
    cacheTimeout (engine r1) = cacheTimeout (engine r) /\
    console (engine r1)
    = console (engine r)
        ++ ["Config file not found at " +:+ configPath r +:+ ", using defaults"].
Proof.
  intros Hread Hcode.
  unfold loadConfig, tryCatch, bind, onEngine, io.
  rewrite Hread. cbn [engine setEngine world setWorld].
  rewrite bool_decide_true by exact Hcode.
  eexists. split; [reflexivity|]. by repeat split.
Qed.


(** *** Registering and initializing the sources *)

Lemma view_registered (reg : list (string * Adapter World)) (name : string) :
  is_Some (view reg !! name) <-> In name (map fst reg).
Proof.
  unfold view. induction reg as [|[n a] reg IH]; cbn [map fst snd In].
  - rewrite list_to_map_nil, lookup_empty. split; [by intros [? ?]|by intros []].
  - rewrite list_to_map_cons. cbn [fst snd]. destruct (decide (n = name)) as [->|Hne].
    + rewrite lookup_insert_eq. split; [by left|by eexists].
    + rewrite lookup_insert_ne by exact Hne. rewrite IH. intuition.
Qed.

Lemma mapSet_names (name : string) (a : Adapter World)
    (reg : list (string * Adapter World)) (x : string) :
  In x (map fst (mapSet name a reg)) <-> x = name \/ In x (map fst reg).
Proof.
  induction reg as [|[n b] reg IH]; cbn [mapSet map fst In].
  - intuition.
  - destruct (String.eqb_spec n name) as [->|Hne]; cbn [map fst In]; [intuition|].
    rewrite IH. intuition.
Qed.

Lemma mapSet_Forall (Q : string * Adapter World -> Prop) (name : string)
    (a : Adapter World) (reg : list (string * Adapter World)) :
  Q (name, a) -> List.Forall Q reg -> List.Forall Q (mapSet name a reg).
Proof.
  intros Ha Hreg. induction Hreg as [|[n b] reg Hb Hreg IH]; cbn [mapSet fst].
  - by repeat constructor.
  - destruct (String.eqb n name); constructor; assumption.
Qed.

Lemma mapDelete_names (name : string) (reg : list (string * Adapter World))
    (x : string) :
  In x (map fst (mapDelete name reg)) -> In x (map fst reg).
Proof.
  unfold mapDelete. rewrite !in_map_iff. intros (entry & <- & Hin).
  apply filter_In in Hin as [Hin _]. by exists entry.
Qed.

(** An adapter as one of the constructors makes it. *)
Abbreviation constructed entry :=
  (exists o w0, snd entry = construct (fst entry) o w0).

(** What the registrations leave alone, and what they add. *)
Lemma conditional_register (b : bool) (name : string)
    (entry : option (sourceSettings Options)) (r : resolver) :
  exists r',
    (if b then register construct name entry else ret tt) r = (Return tt, r') /\
    config r' = config r /\ cache (engine r') = cache (engine r) /\
    cacheTimeout (engine r') = cacheTimeout (engine r) /\
    console (engine r') = console (engine r) /\
    (forall x, In x (map fst (registry r'))
               <-> (b = true /\ x = name) \/ In x (map fst (registry r))) /\
    (List.Forall (fun entry => constructed entry) (registry r) ->
     List.Forall (fun entry => constructed entry) (registry r')) /\
    (sources (engine r) = view (registry r) ->
     sources (engine r') = view (registry r')).
Proof.
  destruct b.
  - eexists. split; [reflexivity|]. cbn. repeat split; try done.
    + intros H. apply mapSet_names in H. intuition.
    + intros H. apply mapSet_names. intuition.
    + intros H. apply mapSet_Forall; [|exact H]. cbn. by eexists _, _.
  - exists r. split; [reflexivity|]. repeat split; try done; intuition; discriminate.
Qed.

Lemma initializeOne_drops (entry : string * Adapter World) (r : resolver) :
  exists r',
    initializeOne entry r = (Return tt, r') /\
    (config r' = config r /\ cache (engine r') = cache (engine r) /\
     cacheTimeout (engine r') = cacheTimeout (engine r) /\
     (forall x, In x (map fst (registry r')) -> In x (map fst (registry r))) /\
     (sources (engine r) = view (registry r) ->
      sources (engine r') = view (registry r'))).
Proof.
  destruct entry as [name source].
  unfold initializeOne, tryCatch, bind, call, onEngine, io, logR, log.
  destruct (srcInitialize source (world (engine r))) as [[[]|e] w];
    (eexists; split; [reflexivity|]); cbn; repeat split; try done.
  apply mapDelete_names.
Qed.

Lemma initializeOne_succeeds (entry : string * Adapter World) (r : resolver) :
  (forall w, exists w', srcInitialize (snd entry) w = (Return tt, w')) ->
  exists r', initializeOne entry r = (Return tt, r') /\ sameSetup r r'.
Proof.
  destruct entry as [name source]. cbn [snd]. intros Hinit.
  unfold initializeOne, tryCatch, bind, call, onEngine, io, logR, log.
  destruct (Hinit (world (engine r))) as [w' ->].
  eexists. split; [reflexivity|]. by repeat split.
Qed.

Lemma wanted_names (sc : gmap string (sourceSettings Options)) (x : string) :
  wanted sc x = true
  <-> (negb (isFalse (enabledOf (sc !! "env"))) = true /\ x = "env")
      \/ (negb (isFalse (enabledOf (sc !! "file"))) = true /\ x = "file")
      \/ (negb (isFalse (enabledOf (sc !! "http"))) = true /\ x = "http")
      \/ (isTrue (enabledOf (sc !! "vault")) = true /\ x = "vault")
      \/ (isTrue (enabledOf (sc !! "aws")) = true /\ x = "aws")
      \/ (isTrue (enabledOf (sc !! "k8s")) = true /\ x = "k8s").
Proof.
  unfold wanted. split.
  - repeat case_bool_decide; try discriminate.
    + set_unfold. intros Hw. destruct_or?; subst; try tauto. 
    + set_unfold. intros Hw. destruct_or?; subst; try tauto. 
  - intros H. destruct_or?; destruct H as [Hb ->];
      repeat (case_bool_decide; try exact Hb; try (set_unfold; intuition discriminate)).
Qed.

(** After a configuration is loaded, [initializeSources] returns: a
    source that fails to initialize is dropped.  From a resolver
    without sources, the sources left are among those the
    configuration asks for, and all of them when every adapter
    initializes. *)
Lemma initializeSources_returns (r : resolver) (c : configuration Options) :
  config r = Some c -> registry r = [] -> sources (engine r) = ∅ ->
  exists r',
    initializeSources construct r = (Return tt, r') /\
    config r' = Some c /\ cache (engine r') = cache (engine r) /\
    cacheTimeout (engine r') = cacheTimeout (engine r) /\
    (forall name, is_Some (sources (engine r') !! name) ->
                  wanted (default ∅ (cfgSources c)) name = true) /\
    ((forall name o w0 w,
         exists w', srcInitialize (construct name o w0) w = (Return tt, w')) ->
     forall name, wanted (default ∅ (cfgSources c)) name = true ->
                  is_Some (sources (engine r') !! name)).
Proof.
  intros Hc Hreg Hsrc. unfold initializeSources. rewrite Hc.
  set (sc := default ∅ (cfgSources c)).
  unfold unlessDisabled, whenEnabled, bind at 1 2 3 4 5 6.
  destruct (conditional_register (negb (isFalse (enabledOf (sc !! "env")))) "env"
              (sc !! "env") r)
    as (r1 & -> & Hc1 & Hk1 & Ht1 & _ & Hn1 & Hf1 & Hs1).
  destruct (conditional_register (negb (isFalse (enabledOf (sc !! "file")))) "file"
              (sc !! "file") r1)
    as (r2 & -> & Hc2 & Hk2 & Ht2 & _ & Hn2 & Hf2 & Hs2).
  destruct (conditional_register (negb (isFalse (enabledOf (sc !! "http")))) "http"
              (sc !! "http") r2)
    as (r3 & -> & Hc3 & Hk3 & Ht3 & _ & Hn3 & Hf3 & Hs3).
  destruct (conditional_register (isTrue (enabledOf (sc !! "vault"))) "vault"
              (sc !! "vault") r3)
    as (r4 & -> & Hc4 & Hk4 & Ht4 & _ & Hn4 & Hf4 & Hs4).
  destruct (conditional_register (isTrue (enabledOf (sc !! "aws"))) "aws"
              (sc !! "aws") r4)
    as (r5 & -> & Hc5 & Hk5 & Ht5 & _ & Hn5 & Hf5 & Hs5).
  destruct (conditional_register (isTrue (enabledOf (sc !! "k8s"))) "k8s"
              (sc !! "k8s") r5)
    as (r6 & -> & Hc6 & Hk6 & Ht6 & _ & Hn6 & Hf6 & Hs6).
  assert (Hnames : forall x, In x (map fst (registry r6)) <-> wanted sc x = true).
  { intros x. rewrite wanted_names, Hn6, Hn5, Hn4, Hn3, Hn2, Hn1, Hreg. cbn [map In].
    tauto. }
  assert (Hsync : sources (engine r6) = view (registry r6)).
  { apply Hs6, Hs5, Hs4, Hs3, Hs2, Hs1. by rewrite Hreg, Hsrc. }
  assert (Hcons : List.Forall (fun entry => constructed entry) (registry r6)).
  { apply Hf6, Hf5, Hf4, Hf3, Hf2, Hf1. rewrite Hreg. constructor. }
  destruct (forEach_returns
              (fun a b : resolver =>
                 config b = config a /\ cache (engine b) = cache (engine a) /\
                 cacheTimeout (engine b) = cacheTimeout (engine a) /\
                 (forall x, In x (map fst (registry b)) -> In x (map fst (registry a))) /\
                 (sources (engine a) = view (registry a) ->
                  sources (engine b) = view (registry b)))
              initializeOne (registry r6)
              ltac:(by repeat split)
              ltac:(intros a b d (A1 & A2 & A3 & A4 & A5) (B1 & B2 & B3 & B4 & B5);
                    repeat split; [congruence..|by auto|by auto])
              (fun item s _ => initializeOne_drops item s) r6)
    as (r' & Hrun & Hc' & Hk' & Ht' & Hn' & Hs').
  exists r'. split; [exact Hrun|]. repeat split; try congruence.
  - intros name Hin. rewrite (Hs' Hsync) in Hin.
    apply view_registered, Hn', Hnames in Hin. exact Hin.
  - intros Hinit name Hw.
    destruct (forEach_returns sameSetup initializeOne (registry r6)
                sameSetup_refl sameSetup_trans
                (fun item s Hin =>
                   initializeOne_succeeds item s
                     ltac:(rewrite List.Forall_forall in Hcons;
                           destruct (Hcons item Hin) as (o & w0 & ->); apply Hinit)) r6)
      as (r'' & Hrun' & Hreg' & _ & _ & Hsrc' & _).
    rewrite Hrun in Hrun'. injection Hrun' as <-.
    rewrite Hsrc', Hsync. by apply view_registered, Hnames.
Qed.





Lemma wanted_default (name : string) :
  wanted (default ∅ (cfgSources (getDefaultConfig defaultOptions))) name = true
  <-> name ∈ ["env"; "file"; "http"].
Proof.
  rewrite wanted_names. cbn [getDefaultConfig cfgSources default from_option id].
  set (sc := list_to_map _).
  assert (He : enabledOf (sc !! "env") = VBool true) by reflexivity.
  assert (Hf : enabledOf (sc !! "file") = VBool true) by reflexivity.
  assert (Hh : enabledOf (sc !! "http") = VBool true) by reflexivity.
  assert (Hv : enabledOf (sc !! "vault") = VBool false) by reflexivity.
  assert (Ha : enabledOf (sc !! "aws") = VBool false) by reflexivity.
  assert (Hk : enabledOf (sc !! "k8s") = VBool false) by reflexivity.
  rewrite He, Hf, Hh, Hv, Ha, Hk. cbn [isFalse isTrue negb]. set_unfold.
  intuition discriminate.
Qed.

(** X21: [initialize] on a new resolver whose configuration file does
    not exist ([ENOENT]).  It returns with the built-in configuration;
    the time to live is the 60000 ms of the constructor; only [env],
    [file] and [http] can be registered, never [vault], [aws] or
    [k8s], and the three are registered when their adapters
    initialize. *)
Theorem X21_initialize_without_config (w w1 : World) (path : string) (e : Js.error) :
  readFile path w = (Throw e, w1) ->
  code e = Some "ENOENT" ->
  exists r',
    initialize readFile jsonParse construct defaultOptions (newResolver w path)
    = (Return tt, r') /\
    config r' = Some (getDefaultConfig defaultOptions) /\
    cacheTimeout (engine r') = 60000 /\
    (forall name, is_Some (sources (engine r') !! name) ->
                  name ∈ ["env"; "file"; "http"]) /\
    ((forall name o w0 w,
         exists w', srcInitialize (construct name o w0) w = (Return tt, w')) ->
     forall name, name ∈ ["env"; "file"; "http"] ->
                  is_Some (sources (engine r') !! name)).
Proof.
  intros Hread Hcode.
  destruct (loadConfig_missing (newResolver w path) e w1 Hread Hcode)
    as (r1 & Hload & Hc1 & Hreg1 & Hsrc1 & Hk1 & Ht1 & _).
  destruct (initializeSources_returns r1 _ Hc1 Hreg1 Hsrc1)
    as (r2 & Hinit & Hc2 & Hk2 & Ht2 & Hin & Hall).
  unfold initialize, tryCatch, bind. rewrite Hload, Hinit.
  eexists. split; [reflexivity|]. cbn [engine setEngine config print cacheTimeout sources].
  repeat split; try assumption.
  - by rewrite Ht2, Ht1.
  - intros name H. by apply wanted_default, Hin.
  - intros Hok name H. by apply Hall, wanted_default.
Qed.

(** *** Cleaning up in [finally] *)

Lemma tryFinally_cleanup {A : Type} (m : R World Options A) (r : resolver) :
  exists r', tryFinally m cleanup r = (fst (m r), r') /\ cleanedUp r'.
Proof.
  unfold tryFinally. destruct (m r) as [out r1].
  destruct (cleanup_returns r1) as (r' & -> & H1 & H2 & H3 & _).
  by exists r'.
Qed.

Lemma tryCatch_failsWith {S A : Type} (m : Eff S A) (prefix : string) (s : S) :
  failsWith prefix
    (fst (tryCatch m (fun e => throw (newError (prefix +:+ message e))) s)).
Proof.
  unfold tryCatch, throw. destruct (m s) as [[a|e] s']; intros e' H; [discriminate|].
  injection H as <-. by eexists.
Qed.

Section EntryPoints.

Variable join : string -> string -> string.
Variable relative : string -> string -> string.
Variable dirname : string -> string.
Variable extname : string -> string.
Variable basename : string -> string -> string.
Variable writeFile : string -> string -> World -> outcome unit * World.
Variable fsCopyFile : string -> string -> World -> outcome unit * World.
Variable mkdir : string -> World -> outcome unit * World.

(** X22: the three entry points of the preprocessor clean up whatever
    happens: when [processDirectory], [processFile] or [validateSpecs]
    is over, by return or by error, the resolver has no source and no
    cached value left; and an error from them is a new [Error] whose
    message starts with [Preprocessing failed: ], [Failed to process
    file <path>: ] and [Validation failed: ]. *)
Theorem X22_entry_points_clean_up (listing : dirTree)
    (specDir outDir filePath : string) (outputPath : option string) (r : resolver) :
  (exists out r',
      processDirectory now readFile jsonParse construct defaultOptions
        join relative dirname extname writeFile fsCopyFile mkdir
        listing specDir outDir r = (out, r') /\
      cleanedUp r' /\ failsWith "Preprocessing failed: " out) /\
  (exists out r',
      processFile now readFile jsonParse construct defaultOptions
        join dirname extname basename writeFile fsCopyFile mkdir
        filePath outputPath r = (out, r') /\
      cleanedUp r' /\
      failsWith ("Failed to process file " +:+ filePath +:+ ": ") out) /\
  (exists out r',
      validateSpecs now readFile jsonParse construct defaultOptions
        join extname listing specDir r = (out, r') /\
      cleanedUp r' /\ failsWith "Validation failed: " out).
Proof.
  split; [|split].
  - unfold processDirectory.
    match goal with
    | |- context [tryFinally ?m cleanup r] =>
        destruct (tryFinally_cleanup m r) as (r' & -> & Hc)
    end.
    eexists _, r'. split; [reflexivity|]. split; [exact Hc|].
    apply tryCatch_failsWith.
  - unfold processFile.
    match goal with
    | |- context [tryFinally ?m cleanup r] =>
        destruct (tryFinally_cleanup m r) as (r' & -> & Hc)
    end.
    eexists _, r'. split; [reflexivity|]. split; [exact Hc|].
    unfold tryCatch, throw.
    match goal with
    | |- context [match ?m r with _ => _ end] => destruct (m r) as [[a|e] r1]
    end; intros e' H; [discriminate|].
    injection H as <-. exists (message e). f_equal.
    by rewrite !app_assoc_str.
  - unfold validateSpecs.
    match goal with
    | |- context [tryFinally ?m cleanup r] =>
        destruct (tryFinally_cleanup m r) as (r' & -> & Hc)
    end.
    eexists _, r'. split; [reflexivity|]. split; [exact Hc|].
    apply tryCatch_failsWith.
Qed.

(** X23: what [validateSpecs] returns.  When [initialize] succeeds,
    [validateSpecs] returns results in which [totalFiles] is the number
    of spec files of the listing, each of which is either counted in
    [processedFiles] or reported in [errors], together with one report
    for each directory that cannot be read, and [warnings] is empty;
    when [initialize] throws, so does [validateSpecs], with [Validation
    failed: ] before the message. *)
Theorem X23_validateSpecs_results (listing : dirTree) (specDir : string) (r : resolver) :
  match initialize readFile jsonParse construct defaultOptions r with
  | (Return _, _) =>
      exists res r',
        validateSpecs now readFile jsonParse construct defaultOptions
          join extname listing specDir r = (Return res, r') /\
        totalFiles res = specFileCount extname listing /\
        (processedFiles res + length (errors res)
         = specFileCount extname listing + unreadableCount listing)%nat /\
        warnings res = []
  | (Throw e, _) =>
      exists r',
        validateSpecs now readFile jsonParse construct defaultOptions
          join extname listing specDir r
        = (Throw (newError ("Validation failed: " +:+ message e)), r')
  end.
Proof.
  unfold validateSpecs.
  match goal with
  | |- context [tryFinally ?m cleanup r] =>
      destruct (tryFinally_cleanup m r) as (r' & Hrun & _); rewrite Hrun; clear Hrun
  end.
  unfold tryCatch, bind.
  destruct (initialize readFile jsonParse construct defaultOptions r) as [[[]|e] r1].
  - destruct (validateDirectoryRecursive_accounts now join extname readFile listing
                specDir emptyResults (engine r1))
      as (res & st' & -> & H1 & H2 & _ & _ & H5).
    cbn [fst snd]. exists res, r'. split; [reflexivity|].
    cbn in H1, H2, H5. repeat split; try assumption; lia.
  - exists r'. reflexivity.
Qed.

End EntryPoints.

End LifecycleFacts.

Section LifecycleScenarios.
Import JsString Js ParamResolver Demo Lifecycle LifecycleDemo.

Lemma construct_initializes (name : string) (o : option unit) (w0 w : demoWorld) :
  exists w', srcInitialize (construct name o w0) w = (Return tt, w').
Proof. unfold construct. destruct (String.eqb name "env"); by exists w. Qed.


Lemma X21_initialize_without_config_witness :
  exists r',
    initialize readFile jsonParse construct (fun _ => tt)
      (newResolver bare "gauge-external-params.json")
    = (Return tt, r') /\
    config r' = Some (getDefaultConfig (fun _ => tt)) /\
    cacheTimeout (engine r') = 60000 /\
    is_Some (sources (engine r') !! "env") /\
    sources (engine r') !! "k8s" = None.
Proof.
  destruct (X21_initialize_without_config readFile jsonParse construct (fun _ => tt)
              bare bare "gauge-external-params.json"
              {| message := "ENOENT: no such file or directory, open 'gauge-external-params.json'";
                 code := Some "ENOENT" |}
              eq_refl eq_refl)
    as (r' & Hrun & Hcfg & Httl & Honly & Hall).
  exists r'. split; [exact Hrun|]. split; [exact Hcfg|]. split; [exact Httl|]. split.
  - apply (Hall construct_initializes). by left.
  - destruct (sources (engine r') !! "k8s") as [src|] eqn:E; [|reflexivity].
    assert (Hv : is_Some (sources (engine r') !! "k8s")) by (by rewrite E; eexists).
    apply Honly in Hv. set_unfold in Hv. by destruct_or!.
Defined.

End LifecycleScenarios.

(** ** The mask and the reply to a step *)

Section PluginFacts.
Import JsString Regex Js ParamResolver Plugin.

Lemma hasRun_cons cl n (a : ascii) (s : string) :
  hasRun cl n (String a s) = false ->
  (runLength cl (String a s) < n)%nat /\ hasRun cl n s = false.
Proof.
  cbn [hasRun]. intros H. apply orb_false_iff in H as [H1 H2].
  apply Nat.leb_gt in H1. by split.
Qed.

Lemma replaceFrom_mask_unchanged (s : string) : forall before,
  hasRun sensitiveClass 20 s = false ->
  replaceFrom sensitiveRegex 1 "****" O before s = s.
Proof.
  induction s as [|a s IH]; intros before H.
  - cbn [replaceFrom]. pose proof (matchAt_sensitive "") as Hm.
    destruct (matchAt sensitiveRegex "") as [m|]; [|reflexivity].
    destruct Hm as [Hm _]. cbn in Hm. lia.
  - apply hasRun_cons in H as [Hrun Hrest].
    cbn [replaceFrom]. pose proof (matchAt_sensitive (String a s)) as Hm.
    destruct (matchAt sensitiveRegex (String a s)) as [m|].
    + destruct Hm as [Hm _]. lia.
    + f_equal. by apply IH.
Qed.

(** X24: [maskSensitiveInfo] changes a message exactly when it holds a
    run of 20 or more characters of [[a-zA-Z0-9+/]]: a message without
    such a run comes back as it is, one with such a run does not, and
    masking twice is masking once. *)
Theorem X24_mask_exact (message : string) :
  (maskSensitiveInfo message = message
   <-> hasRun sensitiveClass 20 message = false) /\
  maskSensitiveInfo (maskSensitiveInfo message) = maskSensitiveInfo message.
Proof.
  assert (Hid : forall m, hasRun sensitiveClass 20 m = false -> maskSensitiveInfo m = m).
  { intros m H. by apply replaceFrom_mask_unchanged. }
  split; [split|].
  - intros H. rewrite <- H. apply maskSensitiveInfo_no_run.
  - apply Hid.
  - apply Hid, maskSensitiveInfo_no_run.
Qed.

Context {World : Type}.
Variable now : World -> Z.

(** X25: [handleStepExecutionStarting] always replies, whatever the
    resolution does; a reply with an error message is a failure whose
    message, [Parameter resolution failed: ...], holds no run of 20 or
    more characters of [[a-zA-Z0-9+/]], and a reply without one is a
    success. *)
Theorem X25_step_reply_masked (req : request) (st : state World) :
  exists reply st',
    handleStepExecutionStarting now req st = (Return reply, st') /\
    match errorMessage reply with
    | Some msg =>
        failed reply = true /\
        (exists text, msg = "Parameter resolution failed: " +:+ maskSensitiveInfo text) /\
        hasRun sensitiveClass 20 msg = false
    | None => failed reply = false
    end.
Proof.
  unfold handleStepExecutionStarting, tryCatch.
  match goal with
  | |- context [match ?m st with _ => _ end] => destruct (m st) as [[reply|e] st1] eqn:E
  end.
  - exists reply, st1. split; [reflexivity|].
    unfold bind in E.
    match type of E with
    | context [match ?m st with _ => _ end] => destruct (m st) as [[[]|e] st2]
    end; [|discriminate].
    unfold ret in E. by injection E as <- _.
  - unfold bind, log, ret. eexists _, _. split; [reflexivity|].
    cbn [errorMessage failed]. split; [reflexivity|]. split; [by eexists|].
    rewrite reply_text_no_run. apply maskSensitiveInfo_no_run.
Qed.

End PluginFacts.

Section AnalysisScenarios.
Import JsString Regex Grammar Js ParamResolver Preprocessor Document Analysis Demo Scenario.

Lemma X15_findPlaceholders_agrees_witness :
  exists found,
    findPlaceholders readFile "specs/b.spec" (batchState [])
    = (Return found, setWorld (world (batchState [])) (batchState [])) /\
    map asPlaceholder found
    = map toPlaceholder (matchAll placeholderRegex "* Open <page:env#PAGE|home>") /\
    Forall
      (fun o =>
         substring (start (position o)) (end_ (position o))
           "* Open <page:env#PAGE|home>" = fullMatch o /\
         fullMatch o
         = createPlaceholder (Analysis.name o) (Analysis.source o) (Analysis.key o)
             (asArgument (Analysis.defaultValue o)))
      found.
Proof.
  apply (X15_findPlaceholders_agrees readFile "specs/b.spec"
           "* Open <page:env#PAGE|home>" (batchState []) (world (batchState []))).
  reflexivity.
Defined.

End AnalysisScenarios.

(** ** The cache of the Vault adapter *)

Section VaultFacts.
Import JsString JsSplit Js VaultKey VaultSource.

Context {World Json : Type}.
Variable now : World -> Z.
Variable fetchSecret : string -> World -> outcome Json * World.
Variable get : Json -> string -> option Json.
Variable asString : Json -> option string.
Variable stringify : Json -> string.

Abbreviation vaultResolve := (resolve now fetchSecret get asString stringify).

(** A fresh entry answers without a read. *)
Lemma resolve_cached (key : string) (v : vault World Json) (entry : cached Json) :
  secretCache v !! secretPath (parseKey key) = Some entry ->
  now (VaultSource.world v) - timestamp entry <= effectiveTimeout v ->
  vaultResolve key v
  = (reported key (extractField get asString stringify (data entry)
                     (field (parseKey key))), v).
Proof.
  intros Hentry Hage. unfold resolve, tryCatch, bind, getCachedSecret.
  rewrite Hentry.
  destruct (Z.gtb_spec (now (VaultSource.world v) - timestamp entry) (effectiveTimeout v));
    [lia|].
  by destruct (extractField _ _ _ _ _) as [s|e].
Qed.

(** X26: the Vault adapter reads a secret once per path and time to
    live.  When [resolve] finds no entry for the path of its key and
    the read from Vault gives a secret, the secret is cached under the
    path; from then on, as long as the clock is within the time to live
    of the entry ([config.cacheTimeout], or 300000 ms when that is
    left out or [0]), [resolve] of any key with the same path, whatever
    its field, answers from the cached secret and leaves the adapter
    and the world as they are: nothing is read from Vault. *)
Theorem X26_vault_one_read_per_path (key key' : string) (v v' : vault World Json)
    (secret : Json) (w : World) :
  secretCache v !! secretPath (parseKey key) = None ->
  fetchSecret (secretPath (parseKey key)) (VaultSource.world v) = (Return secret, w) ->
  secretPath (parseKey key') = secretPath (parseKey key) ->
  secretCache v' = secretCache (snd (vaultResolve key v)) ->
  cacheTimeout v' = cacheTimeout v ->
  now (VaultSource.world v') - now w <= effectiveTimeout v ->
  vaultResolve key v
  = (reported key (extractField get asString stringify secret (field (parseKey key))),
     setSecretCache
       (<[secretPath (parseKey key) := {| data := secret; timestamp := now w |}]>
          (secretCache v))
       (VaultSource.setWorld w v)) /\
  vaultResolve key' v'
  = (reported key' (extractField get asString stringify secret (field (parseKey key'))),
     v').
Proof.
  intros Hmiss Hfetch Hpath Hcache Htimeout Hage.
  assert (Hfirst : vaultResolve key v
                   = (reported key (extractField get asString stringify secret
                                      (field (parseKey key))),
                      setSecretCache
                        (<[secretPath (parseKey key)
                           := {| data := secret; timestamp := now w |}]> (secretCache v))
                        (VaultSource.setWorld w v))).
  { unfold resolve, tryCatch, bind, getCachedSecret, setCachedSecret.
    rewrite Hmiss, Hfetch. cbn [VaultSource.world VaultSource.setWorld secretCache].
    by destruct (extractField _ _ _ _ _) as [s|e]. }
  split; [exact Hfirst|].
  rewrite Hfirst in Hcache. cbn [snd secretCache setSecretCache] in Hcache.
  apply (resolve_cached key' v' {| data := secret; timestamp := now w |}).
  - by rewrite Hcache, Hpath, lookup_insert_eq.
  - cbn [timestamp]. unfold effectiveTimeout in *. by rewrite Htimeout.
Qed.

End VaultFacts.

(** ** The file adapter *)

Section FileFacts.
Import JsString JsSplit Js FileSource.

Context {World Data : Type}.
Variable pathResolve : string -> string -> string.
Variable pathResolveBase : string -> string.
Variable extname : string -> string.
Variable stat : string -> World -> outcome stats * World.
Variable readFile : string -> World -> outcome string * World.
Variable jsonParse : string -> outcome Data.
Variable yamlLoad : string -> outcome Data.
Variable notNull : Data -> bool.
Variable isSyntaxError : Js.error -> bool.
Variable showNumber : Z -> string.

Abbreviation load :=
  (loadFile pathResolve pathResolveBase extname stat readFile jsonParse yamlLoad
     notNull isSyntaxError showNumber).

(** X27: [loadFile] checks before it touches a file: for a file name
    whose resolved path does not begin with the resolved base path, or
    whose extension (in lower case) is not among the allowed ones,
    [loadFile] throws and leaves the adapter and the world as they are:
    no [stat], no read, no change of the cache. *)
Theorem X27_file_checks_before_access (filename : string) (f : fileSource World Data) :
  startsWith (pathResolveBase (basePath (cfg f)))
    (pathResolve (basePath (cfg f)) filename) = false
  \/ toLowerCase (extname filename) ∉ allowedExtensions (cfg f) ->
  exists e, load filename f = (Throw e, f).
Proof.
  intros H. unfold loadFile, tryCatch, bind, throw.
  assert (Hhandler : forall m,
             exists e,
               (if bool_decide (code (newError m) = Some "ENOENT")
                then fun st : fileSource World Data =>
                       (Throw (newError ("File '" +:+ filename +:+ "' not found")), st)
                else if bool_decide (code (newError m) = Some "EACCES")
                     then fun st =>
                            (Throw (newError ("Permission denied reading file '"
                                                +:+ filename +:+ "'")), st)
                     else if isSyntaxError (newError m)
                          then fun st =>
                                 (Throw (newError ("Invalid JSON/YAML syntax in file '"
                                                     +:+ filename +:+ "': "
                                                     +:+ message (newError m))), st)
                          else fun st => (Throw (newError m), st)) f
               = (@Throw Data e, f)).
  { intros m. cbn [code newError]. rewrite !bool_decide_false by discriminate.
    destruct (isSyntaxError _); by eexists. }
  destruct (startsWith _ _) eqn:Hprefix; cbn [negb]; [|apply Hhandler].
  destruct H as [H|H]; [discriminate|].
  rewrite bool_decide_false by exact H. cbn [negb]. apply Hhandler.
Qed.

(** X28: the base path is checked as a text prefix.  A [.json] file
    whose resolved path is the resolved base path followed by any text
    (a path below the base path, or a sibling whose name begins with
    the name of the base directory) passes the check; without caching,
    when the file is not larger than [maxFileSize], can be read and
    parses, [loadFile] returns the parsed data, after one [stat] and
    one read. *)
Theorem X28_file_base_path_is_text_prefix (filename rest content : string)
    (f : fileSource World Data) (fileStats : stats) (data : Data) (w1 w2 : World) :
  pathResolve (basePath (cfg f)) filename = pathResolveBase (basePath (cfg f)) +:+ rest ->
  toLowerCase (extname filename) = ".json" ->
  ".json" ∈ allowedExtensions (cfg f) ->
  cacheFiles (cfg f) = false ->
  stat (pathResolve (basePath (cfg f)) filename) (FileSource.world f)
  = (Return fileStats, w1) ->
  size fileStats <= maxFileSize (cfg f) ->
  readFile (pathResolve (basePath (cfg f)) filename) w1 = (Return content, w2) ->
  jsonParse content = Return data ->
  load filename f = (Return data, FileSource.setWorld w2 f).
Proof.
  intros Hpath Hext Hallowed Hcache Hstat Hsize Hread Hparse.
  assert (Hprefix : startsWith (pathResolveBase (basePath (cfg f)))
                      (pathResolve (basePath (cfg f)) filename) = true)
    by (rewrite Hpath; apply startsWith_app).
  unfold loadFile, readAndParse, tryCatch, bind, ret, fsCall. cbv beta iota zeta.
  rewrite Hext, Hcache, Hprefix. cbn [negb].
  rewrite bool_decide_true by exact Hallowed. cbn [negb]. cbv beta iota zeta.
  rewrite Hstat. cbv beta iota zeta.
  destruct (Z.gtb_spec (size fileStats) (maxFileSize (cfg f))); [lia|].
  cbn [FileSource.world FileSource.setWorld cfg]. rewrite Hread.
  cbn [String.eqb Ascii.eqb Bool.eqb FileSource.world FileSource.setWorld cfg].
  by rewrite Hparse.
Qed.

(** X29: the cache of files follows the modification time.  With
    caching on, for an allowed file below the base path that is cached
    with data other than [null]: when [stat] shows the modification
    time recorded with the entry, [loadFile] returns the cached data
    after that one [stat], without reading the file; when it shows
    another one, the entry is dropped and the file is loaded as if it
    had never been cached. *)
Theorem X29_file_cache_follows_mtime (filename : string) (f : fileSource World Data)
    (cachedData : Data) (fileStats : stats) (w : World) :
  let filePath := pathResolve (basePath (cfg f)) filename in
  startsWith (pathResolveBase (basePath (cfg f))) filePath = true ->
  toLowerCase (extname filename) ∈ allowedExtensions (cfg f) ->
  cacheFiles (cfg f) = true ->
  fileCache f !! filePath = Some cachedData ->
  notNull cachedData = true ->
  stat filePath (FileSource.world f) = (Return fileStats, w) ->
  (fileMTimes f !! filePath = Some (mtime fileStats) ->
   load filename f = (Return cachedData, FileSource.setWorld w f)) /\
  (fileMTimes f !! filePath <> Some (mtime fileStats) ->
   load filename f = load filename (evict filePath (FileSource.setWorld w f))).
Proof.
  intros filePath Hprefix Hallowed Hcache Hentry Hnotnull Hstat. subst filePath.
  split; intros Hmtime.
  - unfold loadFile, getCachedFile, tryCatch, bind, ret, fsCall. cbv beta iota zeta.
    rewrite Hprefix, bool_decide_true by exact Hallowed. cbn [negb].
    rewrite Hcache. cbv beta iota zeta. rewrite Hentry, Hstat. cbv beta iota zeta.
    cbn [fileMTimes FileSource.setWorld]. rewrite Hmtime.
    rewrite bool_decide_false by (by intros []).
    by rewrite Hnotnull.
  - unfold loadFile, getCachedFile, tryCatch, bind, ret, fsCall. cbv beta iota zeta.
    cbn [cfg fileCache fileMTimes evict setCaches FileSource.setWorld].
    rewrite Hprefix, bool_decide_true by exact Hallowed. cbn [negb].
    rewrite Hcache. cbv beta iota zeta.
    cbn [cfg fileCache fileMTimes evict setCaches FileSource.setWorld].
    rewrite Hentry, lookup_delete_eq, Hstat. cbv beta iota zeta.
    cbn [cfg fileCache fileMTimes evict setCaches FileSource.setWorld].
    rewrite bool_decide_true by congruence.
    reflexivity.
Qed.

End FileFacts.

Section AdapterScenarios.
Import JsString JsSplit Js VaultKey AdapterDemo.

Lemma X26_vault_one_read_per_path_witness :
  VaultSource.resolve id fetchSecret get asString stringify "secret/app:user"
    (emptyVault 0)
  = (Return "admin",
     VaultSource.setSecretCache
       {[ "secret/app" := {| VaultSource.data := JObject [("user", "admin"); ("db", "pg")];
                             VaultSource.timestamp := 0 |} ]}
       (emptyVault 0)) /\
  VaultSource.resolve id fetchSecret get asString stringify "secret/app:db"
    (VaultSource.setWorld 300000
       (snd (VaultSource.resolve id fetchSecret get asString stringify "secret/app:user"
               (emptyVault 0))))
  = (Return "pg",
     VaultSource.setWorld 300000
       (snd (VaultSource.resolve id fetchSecret get asString stringify "secret/app:user"
               (emptyVault 0)))).
Proof.
  apply (X26_vault_one_read_per_path id fetchSecret get asString stringify
           "secret/app:user" "secret/app:db" (emptyVault 0)
           (VaultSource.setWorld 300000
              (snd (VaultSource.resolve id fetchSecret get asString stringify
                      "secret/app:user" (emptyVault 0))))
           (JObject [("user", "admin"); ("db", "pg")]) 0);
    reflexivity.
Defined.

Lemma X27_file_checks_before_access_witness :
  exists e,
    FileSource.loadFile pathResolve id Demo.extname stat readFile parse parse
      (fun _ => true) (fun _ => false) showNumber "notes.txt" (fileAdapter false [] [])
    = (Throw e, fileAdapter false [] []).
Proof.
  apply (X27_file_checks_before_access pathResolve id Demo.extname stat readFile
           parse parse (fun _ => true) (fun _ => false) showNumber
           "notes.txt" (fileAdapter false [] [])).
  right. apply (proj1 (bool_decide_eq_false _)). vm_compute. reflexivity.
Defined.

Lemma X28_file_base_path_is_text_prefix_witness :
  FileSource.loadFile pathResolve id Demo.extname stat readFile parse parse
    (fun _ => true) (fun _ => false) showNumber "../app-private/keys.json"
    (fileAdapter false [] [])
  = (Return "[k1, k2]", FileSource.setWorld files (fileAdapter false [] [])).
Proof.
  apply (X28_file_base_path_is_text_prefix pathResolve id Demo.extname stat readFile
           parse parse (fun _ => true) (fun _ => false) showNumber
           "../app-private/keys.json" "-private/keys.json" "[k1, k2]"
           (fileAdapter false [] [])
           {| FileSource.size := 8; FileSource.mtime := 200 |} "[k1, k2]" files files);
    try reflexivity;
    first [ apply (proj1 (bool_decide_eq_true _)); vm_compute; reflexivity
          | vm_compute; discriminate ].
Defined.

Lemma X29_file_cache_follows_mtime_witness :
  FileSource.loadFile pathResolve id Demo.extname stat readFile parse parse
    (fun _ => true) (fun _ => false) showNumber "users.json"
    (fileAdapter true [("/data/app/users.json", "[alice]")]
       [("/data/app/users.json", 100)])
  = (Return "[alice]",
     FileSource.setWorld files
       (fileAdapter true [("/data/app/users.json", "[alice]")]
          [("/data/app/users.json", 100)])) /\
  FileSource.loadFile pathResolve id Demo.extname stat readFile parse parse
    (fun _ => true) (fun _ => false) showNumber "users.json"
    (fileAdapter true [("/data/app/users.json", "[alice]")]
       [("/data/app/users.json", 50)])
  = FileSource.loadFile pathResolve id Demo.extname stat readFile parse parse
      (fun _ => true) (fun _ => false) showNumber "users.json"
      (FileSource.evict "/data/app/users.json"
         (FileSource.setWorld files
            (fileAdapter true [("/data/app/users.json", "[alice]")]
               [("/data/app/users.json", 50)]))).
Proof.
  split.
  - refine (proj1 (X29_file_cache_follows_mtime pathResolve id Demo.extname stat
                     readFile parse parse (fun _ => true) (fun _ => false) showNumber
                     "users.json"
                     (fileAdapter true [("/data/app/users.json", "[alice]")]
                        [("/data/app/users.json", 100)])
                     "[alice]" {| FileSource.size := 12; FileSource.mtime := 100 |} files
                     eq_refl _ eq_refl eq_refl eq_refl eq_refl) eq_refl).
    apply (proj1 (bool_decide_eq_true _)). vm_compute. reflexivity.
  - refine (proj2 (X29_file_cache_follows_mtime pathResolve id Demo.extname stat
                     readFile parse parse (fun _ => true) (fun _ => false) showNumber
                     "users.json"
                     (fileAdapter true [("/data/app/users.json", "[alice]")]
                        [("/data/app/users.json", 50)])
                     "[alice]" {| FileSource.size := 12; FileSource.mtime := 100 |} files
                     eq_refl _ eq_refl eq_refl eq_refl eq_refl) _).
    + apply (proj1 (bool_decide_eq_true _)). vm_compute. reflexivity.
    + vm_compute. discriminate.
Defined.

End AdapterScenarios.
